(** * config_parser.py: scanner, parser and interpreter

    A shallow embedding of [src/config_parser.py] and the properties of
    its specification.

    - A Python [str] is a [string]; a character is the code point it
      denotes, taken below 256 (the type [ascii]), and [isspace],
      [isdigit] and the classes of [re] are those of Python on these code
      points.
    - Python integers are unbounded: offsets, lines and columns are [nat],
      number literals are [N].
    - A [dict] is the list of its items in insertion order.
    - The mutable fields of [Parser] are threaded through the parsing
      methods as a record; a [ConfigLanguageError] is an explicit outcome,
      which keeps the parser as the method left it.
    - The recursion of [parse_value] through [parse_dict], and the loops
      of [parse_dict] and [parse_all], run on fuel; [parse_all] is shown
      never to exhaust the fuel it gives itself.
    - The interpreter threads its variables and what it has printed.
    - The limits of the Python implementation (the depth of the recursion,
      the number of digits [int] accepts) are not part of the model: what
      is shown of a run that returns or raises is shown of one that stays
      within them.
    - [Unicode] has [skip_whitespace] once more, on a text of any code
      points.
    - [main] is the program on the content of the file; [main_argv] is
      the program on its command line, with what the opening of a path
      gives. *)

From Stdlib Require Import String Ascii NArith List Arith Bool Lia.
From Stdlib Require Import DecimalString Sorting.Sorted Sorting.Permutation.
From Stdlib Require DecimalN.
From stdpp Require Import base option gmap strings.

Import ListNotations.
Local Open Scope string_scope.
Local Open Scope list_scope.
Local Open Scope nat_scope.
#[local] Arguments String.append !_ _ : simpl nomatch.

(** ** Characters *)

Module Char.

Definition code (c : ascii) : nat := nat_of_ascii c.

Definition newline : ascii := "010"%char.
Definition quote : ascii := "034"%char.
Definition backslash : ascii := "\"%char.

(** [str.isspace] on the code points below 256: the controls
    U+0009..U+000D and U+001C..U+001F, the space, U+0085 and U+00A0. *)
Definition isspace (c : ascii) : bool :=
  let n := code c in
  ((9 <=? n) && (n <=? 13)) || ((28 <=? n) && (n <=? 32))
  || (n =? 133) || (n =? 160).

(** [str.isdigit] on the code points below 256: [0-9] and the
    superscripts U+00B2, U+00B3, U+00B9. *)
Definition isdigit (c : ascii) : bool :=
  let n := code c in
  ((48 <=? n) && (n <=? 57)) || (n =? 178) || (n =? 179) || (n =? 185).

(** The class [\d] of [re] on a [str] pattern: the decimal digits
    (category Nd), which below 256 are [0-9]. *)
Definition re_digit (c : ascii) : bool :=
  let n := code c in (48 <=? n) && (n <=? 57).

(** The class [[_a-z]]. *)
Definition re_ident (c : ascii) : bool :=
  let n := code c in (n =? 95) || ((97 <=? n) && (n <=? 122)).

End Char.

(** ** Text: slices of a [str] *)

Module Text.

(** [s[n:]] *)
Fixpoint drop (n : nat) (s : string) : string :=
  match n, s with
  | 0, _ => s
  | S n', String _ s' => drop n' s'
  | S _, EmptyString => EmptyString
  end.

(** [s[:n]] *)
Fixpoint take (n : nat) (s : string) : string :=
  match n, s with
  | 0, _ => EmptyString
  | S n', String c s' => String c (take n' s')
  | S _, EmptyString => EmptyString
  end.

(** [s[i:j]] *)
Definition slice (s : string) (i j : nat) : string := take (j - i) (drop i s).

(** The first character of [s], if any. *)
Definition head (s : string) : option ascii :=
  match s with
  | String c _ => Some c
  | EmptyString => None
  end.

(** [s.startswith(prefix)] *)
Fixpoint startswith (prefix s : string) : bool :=
  match prefix, s with
  | EmptyString, _ => true
  | String a prefix', String b s' => Ascii.eqb a b && startswith prefix' s'
  | String _ _, EmptyString => false
  end.

(** The longest prefix of [s] whose characters all satisfy [f]. *)
Fixpoint span (f : ascii -> bool) (s : string) : string :=
  match s with
  | String c s' => if f c then String c (span f s') else EmptyString
  | EmptyString => EmptyString
  end.

(** Every character of [s] satisfies [f]. *)
Fixpoint all (f : ascii -> bool) (s : string) : bool :=
  match s with
  | String c s' => f c && all f s'
  | EmptyString => true
  end.

(** [s.count(c)] *)
Fixpoint count (c : ascii) (s : string) : nat :=
  match s with
  | String a s' => (if Ascii.eqb a c then 1 else 0) + count c s'
  | EmptyString => 0
  end.

(** The part of [s] after its last occurrence of [c]; [s] when there is
    none. *)
Fixpoint after_last (c : ascii) (s : string) : string :=
  match s with
  | String a s' =>
      if count c s' =? 0
      then (if Ascii.eqb a c then s' else s)
      else after_last c s'
  | EmptyString => EmptyString
  end.

End Text.

(** ** Errors

    All errors of the program are instances of [ConfigLanguageError] and
    differ by their message. *)

(** The patterns [Parser.match] is called with. *)
Inductive pattern : Type :=
  | re_digits                 (* r'\d+' *)
  | re_identifier             (* r'[_a-z]+' *)
  | re_literal (s : string).  (* a pattern that matches the text [s] only:
                                 r'let', r'=', r'=>', r',', r'{', r'}',
                                 r'q\(', r'\)', r'\$', r'\[', r'\]' and the
                                 quote *)

(** The messages handed to [Parser.error]. *)
Inductive message : Type :=
  | ExpectedToken (pat : pattern)  (* match: the pattern that did not match *)
  | UnterminatedString             (* parse_string *)
  | UnexpectedEnd                  (* parse_value at the end of the text *)
  | ExpectedValue.                 (* parse_value on another character *)

(** ** The syntax tree

    [parse_value] returns an [int], a [str], a [dict] or the tuple
    [('var', name)]; statements are the tuples [('let', name, value)] and
    [('q', expr)]. A tuple is kept with its tag and its other components.
    A [dict] keeps its items in insertion order. *)
#[warnings="-register-all"]
Inductive node : Type :=
  | Num (n : N)
  | Str (s : string)
  | Dict (items : list (string * node))
  | Tuple (tag : string) (args : list node).

(** The tuples the parser builds. *)
Definition Let (name : string) (value : node) : node :=
  Tuple "let" [Str name; value].
Definition Q (expr : node) : node := Tuple "q" [expr].
Definition Var (name : string) : node := Tuple "var" [Str name].

Inductive ConfigLanguageError : Type :=
  | SyntaxError (line col : nat) (msg : message)  (* Parser.error *)
  | UndefinedVariable (name : string)             (* evaluate, 'var' *)
  | UnknownNode (ast : node).                     (* evaluate, else branch *)

(** ** Parser *)

Record Parser : Type := mkParser {
  text : string;
  pos : nat;
  line : nat;
  col : nat
}.

(** [Parser.__init__] *)
Definition Parser_init (text : string) : Parser := mkParser text 0 1 1.

(** [self.text[self.pos:]] *)
Definition remaining (p : Parser) : string := Text.drop (pos p) (text p).

(** [self.text[self.pos]], when [self.pos < len(self.text)]. *)
Definition peek (p : Parser) : option ascii := Text.head (remaining p).

(** [self.pos >= len(self.text)] *)
Definition at_end (p : Parser) : bool := String.length (text p) <=? pos p.

(** The outcome of a parsing method: its value and the parser after it,
    or the error raised, with the parser as the method left it. *)
Inductive result (A : Type) : Type :=
  | Return (a : A) (p : Parser)
  | Raise (e : ConfigLanguageError) (p : Parser)
  | OutOfFuel.
Arguments Return {A} a p.
Arguments Raise {A} e p.
Arguments OutOfFuel {A}.

Definition M (A : Type) : Type := Parser -> result A.

Definition bind {A B : Type} (m : M A) (k : A -> M B) : M B :=
  fun p =>
    match m p with
    | Return a p' => k a p'
    | Raise e p' => Raise e p'
    | OutOfFuel => OutOfFuel
    end.

Definition ret {A : Type} (a : A) : M A := fun p => Return a p.

Notation "'do' x <- m ; k" := (bind m (fun x => k))
  (at level 10, x name, m at level 100, k at level 200).
Notation "'run' m ; k" := (bind m (fun _ => k))
  (at level 10, m at level 100, k at level 200).

(** [Parser.error] *)
Definition error {A : Type} (msg : message) : M A :=
  fun p => Raise (SyntaxError (line p) (col p) msg) p.

(** One turn of the loop of [skip_whitespace] on the character [c]. *)
Definition skip_char (c : ascii) (p : Parser) : Parser :=
  if Ascii.eqb c Char.newline
  then mkParser (text p) (pos p + 1) (line p + 1) 1
  else mkParser (text p) (pos p + 1) (line p) (col p + 1).

(** The loop of [skip_whitespace]; [rest] is [self.text[self.pos:]]. *)
Fixpoint skip_whitespace_loop (rest : string) (p : Parser) : Parser :=
  match rest with
  | String c rest' =>
      if Char.isspace c then skip_whitespace_loop rest' (skip_char c p) else p
  | EmptyString => p
  end.

(** [Parser.skip_whitespace] *)
Definition skip_whitespace (p : Parser) : Parser :=
  skip_whitespace_loop (remaining p) p.

(** [re.match(pattern, s)]: the token matched at the start of [s]. *)
Definition re_match (pat : pattern) (s : string) : option string :=
  match pat with
  | re_digits =>
      match Text.span Char.re_digit s with
      | EmptyString => None
      | token => Some token
      end
  | re_identifier =>
      match Text.span Char.re_ident s with
      | EmptyString => None
      | token => Some token
      end
  | re_literal l => if Text.startswith l s then Some l else None
  end.

(** [Parser.match] *)
Definition match_ (pat : pattern) : M string :=
  fun p =>
    let p := skip_whitespace p in
    match re_match pat (remaining p) with
    | None => error (ExpectedToken pat) p
    | Some token =>
        Return token
          (mkParser (text p) (pos p + String.length token) (line p)
             (col p + String.length token))
    end.

(** [int(num_str)] on a string of decimal digits. *)
Definition digit_value (c : ascii) : N := N.of_nat (Char.code c - 48).

(** The digits of [s] read after those that made [acc]. *)
Fixpoint int_loop (acc : N) (s : string) : N :=
  match s with
  | String c s' => int_loop (10 * acc + digit_value c)%N s'
  | EmptyString => acc
  end.

Definition int (num_str : string) : N := int_loop 0%N num_str.

(** [Parser.parse_number] *)
Definition parse_number : M node :=
  do num_str <- match_ re_digits;
  ret (Num (int num_str)).

(** [Parser.parse_identifier] *)
Definition parse_identifier : M string :=
  match_ re_identifier.

(** The loop of [parse_string]: the offset it stops at, from the offset
    [pos] with [rest] the text from there on. A backslash takes the
    character after it along; the [break] leaves the loop one past a
    backslash that ends the text. *)
Fixpoint parse_string_loop (rest : string) (pos : nat) : nat :=
  match rest with
  | EmptyString => pos
  | String c rest' =>
      if Ascii.eqb c Char.quote then pos
      else if Ascii.eqb c Char.backslash then
        match rest' with
        | EmptyString => pos + 1
        | String _ rest'' => parse_string_loop rest'' (pos + 1 + 1)
        end
      else parse_string_loop rest' (pos + 1)
  end.

(** The pattern of the quote. *)
Definition re_quote : pattern := re_literal (String Char.quote EmptyString).

(** [Parser.parse_string]: the scan moves [pos] only, [line] and [col]
    stay as the opening quote left them. *)
Definition parse_string : M node :=
  run match_ re_quote;
  fun p =>
    let start := pos p in
    let p := mkParser (text p) (parse_string_loop (remaining p) (pos p))
               (line p) (col p) in
    match peek p with
    | Some c =>
        if Ascii.eqb c Char.quote then
          let s := Text.slice (text p) start (pos p) in
          (run match_ re_quote; ret (Str s)) p
        else error UnterminatedString p
    | None => error UnterminatedString p
    end.

(** [Parser.parse_var] *)
Definition parse_var : M node :=
  run match_ (re_literal "$");
  run match_ (re_literal "[");
  do name <- parse_identifier;
  run match_ (re_literal "]");
  ret (Var name).

(** [result[key] = value] on a [dict]: the value of a key that is there
    is replaced where the key stands, a new key is added at the end. *)
Fixpoint dict_set (d : list (string * node)) (key : string) (value : node)
  : list (string * node) :=
  match d with
  | [] => [(key, value)]
  | (k, v) :: d' =>
      if String.eqb k key then (k, value) :: d'
      else (k, v) :: dict_set d' key value
  end.

(** [self.pos < len(self.text) and self.text[self.pos] == c] *)
Definition looking_at (c : ascii) (p : Parser) : bool :=
  match peek p with
  | Some c' => Ascii.eqb c' c
  | None => false
  end.

(** The loop of [parse_dict], at most [n] turns of it. *)
Fixpoint parse_dict_loop (parse_value : M node) (n : nat) (first : bool)
    (result : list (string * node)) : M (list (string * node)) :=
  fun p =>
    match n with
    | 0 => OutOfFuel
    | S n' =>
        if at_end p then Return result p
        else
          let p := skip_whitespace p in
          if looking_at "}" p then Return result p
          else
            (run (if first then ret "" else match_ (re_literal ","));
             do key <- parse_identifier;
             run match_ (re_literal "=>");
             do value <- parse_value;
             parse_dict_loop parse_value n' false (dict_set result key value)) p
    end.

(** [Parser.parse_dict], with the [parse_value] it calls. The loop
    consumes a character at every turn it completes. *)
Definition parse_dict (parse_value : M node) : M node :=
  run match_ (re_literal "{");
  do result <- (fun p =>
    parse_dict_loop parse_value (S (String.length (text p))) true [] p);
  run match_ (re_literal "}");
  ret (Dict result).

(** [Parser.parse_value]; [fuel] bounds the nesting of dict literals. *)
Fixpoint parse_value (fuel : nat) : M node :=
  fun p =>
    match fuel with
    | 0 => OutOfFuel
    | S fuel' =>
        let p := skip_whitespace p in
        match peek p with
        | None => error UnexpectedEnd p
        | Some char =>
            if Char.isdigit char then parse_number p
            else if Ascii.eqb char Char.quote then parse_string p
            else if Ascii.eqb char "{" then parse_dict (parse_value fuel') p
            else if Ascii.eqb char "$" then parse_var p
            else error ExpectedValue p
        end
    end.

(** [Parser.parse_let] *)
Definition parse_let (fuel : nat) : M node :=
  run match_ (re_literal "let");
  do name <- parse_identifier;
  run match_ (re_literal "=");
  do value <- parse_value fuel;
  ret (Let name value).

(** [Parser.parse_q] *)
Definition parse_q (fuel : nat) : M node :=
  run match_ (re_literal "q(");
  do expr <- parse_value fuel;
  run match_ (re_literal ")");
  ret (Q expr).

(** [Parser.parse_expression] *)
Definition parse_expression (fuel : nat) : M node :=
  fun p =>
    let p := skip_whitespace p in
    if looking_at "$" p then parse_var p else parse_value fuel p.

(** [Parser.parse_statement]; [None] at the end of the text. *)
Definition parse_statement (fuel : nat) : M (option node) :=
  fun p =>
    let p := skip_whitespace p in
    if at_end p then Return None p
    else if Text.startswith "let" (remaining p)
    then (do stmt <- parse_let fuel; ret (Some stmt)) p
    else if Text.startswith "q(" (remaining p)
    then (do stmt <- parse_q fuel; ret (Some stmt)) p
    else (do stmt <- parse_expression fuel; ret (Some stmt)) p.

(** The loop of [parse_all], at most [n] turns of it. *)
Fixpoint parse_all_loop (fuel n : nat) (statements : list node)
  : M (list node) :=
  fun p =>
    match n with
    | 0 => OutOfFuel
    | S n' =>
        if at_end p then Return statements p
        else
          let p := skip_whitespace p in
          if at_end p then Return statements p
          else
            (do stmt <- parse_statement fuel;
             match stmt with
             | None => ret statements
             | Some stmt => parse_all_loop fuel n' (statements ++ [stmt])
             end) p
    end.

(** [Parser.parse_all]. Every statement consumes a character and every
    nested dict literal its opening brace, so the length of the text, plus
    one, bounds both the turns of the loop and the nesting. *)
Definition parse_all : M (list node) :=
  fun p =>
    let fuel := S (String.length (text p)) in
    parse_all_loop fuel fuel [] p.

(** ** The scanner on a text of any characters

    A [str] holds any code points, and [main] reads the file as UTF-8.
    [skip_whitespace] is embedded here a second time, on a text that is
    the list of its code points, with [str.isspace] as it is on all of
    them. The parser above has this scanner on the texts of code points
    below 256. *)

Module Unicode.

Definition newline : N := 10%N.

(** The characters for which [str.isspace] holds: those of bidirectional
    class WS, B or S and those of category Zs. They are U+0009 to U+000D,
    U+001C to U+0020, U+0085, U+00A0, U+1680, U+2000 to U+200A, U+2028,
    U+2029, U+202F, U+205F and U+3000. *)
Definition whitespace : list N :=
  [9; 10; 11; 12; 13; 28; 29; 30; 31; 32; 133; 160; 5760;
   8192; 8193; 8194; 8195; 8196; 8197; 8198; 8199; 8200; 8201; 8202;
   8232; 8233; 8239; 8287; 12288]%N.

(** [c.isspace()] *)
Definition isspace (c : N) : bool := existsb (N.eqb c) whitespace.

Record Parser : Type := mkParser {
  text : list N;
  pos : nat;
  line : nat;
  col : nat
}.

(** [self.text[self.pos:]] *)
Definition remaining (p : Parser) : list N := skipn (pos p) (text p).

(** [self.text[self.pos]], when [self.pos < len(self.text)]. *)
Definition peek (p : Parser) : option N := List.head (remaining p).

(** One turn of the loop of [skip_whitespace] on the character [c]. *)
Definition skip_char (c : N) (p : Parser) : Parser :=
  if N.eqb c newline
  then mkParser (text p) (pos p + 1) (line p + 1) 1
  else mkParser (text p) (pos p + 1) (line p) (col p + 1).

(** The loop of [skip_whitespace]; [rest] is [self.text[self.pos:]]. *)
Fixpoint skip_whitespace_loop (rest : list N) (p : Parser) : Parser :=
  match rest with
  | c :: rest' =>
      if isspace c then skip_whitespace_loop rest' (skip_char c p) else p
  | [] => p
  end.

(** [Parser.skip_whitespace] *)
Definition skip_whitespace (p : Parser) : Parser :=
  skip_whitespace_loop (remaining p) p.

(** The longest prefix of [l] whose characters all satisfy [f]. *)
Fixpoint span (f : N -> bool) (l : list N) : list N :=
  match l with
  | c :: l' => if f c then c :: span f l' else []
  | [] => []
  end.

(** [l.count(c)] *)
Fixpoint count (c : N) (l : list N) : nat :=
  match l with
  | a :: l' => (if N.eqb a c then 1 else 0) + count c l'
  | [] => 0
  end.

(** The part of [l] after its last occurrence of [c]; [l] when there is
    none. *)
Fixpoint after_last (c : N) (l : list N) : list N :=
  match l with
  | a :: l' =>
      if count c l' =? 0
      then (if N.eqb a c then l' else l)
      else after_last c l'
  | [] => []
  end.

(** The space, the tab and the newline. *)
Definition space_tab_newline (c : N) : bool :=
  N.eqb c 32 || N.eqb c 9 || N.eqb c 10.

(** The code points of a text of the parser. *)
Definition of_string (s : string) : list N :=
  map (fun c => N.of_nat (Char.code c)) (list_ascii_of_string s).

End Unicode.

(** The parser, as a parser on the code points of its text. *)
Definition unicode_of (p : Parser) : Unicode.Parser :=
  Unicode.mkParser (Unicode.of_string (text p)) (pos p) (line p) (col p).

(** ** The serializer

    [yaml.dump] is PyYAML's, not this repository's. The model is the node
    graph that its representer builds from the value; the emitter then
    writes the graph as it is, in block style an item of a mapping per
    line, in the order of the graph. The anchors that the representer
    gives to a dict it meets twice, and the quoting that the emitter
    chooses for a scalar, are left out. *)

Module yaml.

#[warnings="-register-all"]
Inductive Node : Type :=
  | ScalarNode (tag value : string)
  | SequenceNode (tag : string) (value : list Node)
  | MappingNode (tag : string) (value : list (Node * Node)).

(** [str(n)] *)
Definition str (n : N) : string := NilZero.string_of_uint (N.to_uint n).

Section Sorted.
Context {A : Type}.

(** [item] put before the first item of [l] that is not below it. *)
Fixpoint insert (item : string * A) (l : list (string * A))
  : list (string * A) :=
  match l with
  | [] => [item]
  | x :: l' =>
      if String.leb (fst item) (fst x) then item :: l
      else x :: insert item l'
  end.

(** [sorted(mapping)] on the items of a dict: its keys are pairwise
    distinct, so two items compare as their keys do. *)
Fixpoint sorted (l : list (string * A)) : list (string * A) :=
  match l with
  | [] => []
  | x :: l' => insert x (sorted l')
  end.
End Sorted.

(** [represent_data]: [represent_int], [represent_str], [represent_dict]
    and [represent_tuple]. The call of [dump] leaves [sort_keys] at its
    default, [True], with which [represent_mapping] replaces the items of
    a dict by [sorted(mapping)] before it represents them. The keys decide
    the order, so the values are represented here before the sort rather
    than after it. *)
Fixpoint represent_data (data : node) : Node :=
  match data with
  | Num n => ScalarNode "tag:yaml.org,2002:int" (str n)
  | Str s => ScalarNode "tag:yaml.org,2002:str" s
  | Dict items =>
      MappingNode "tag:yaml.org,2002:map"
        (map (fun item =>
                (ScalarNode "tag:yaml.org,2002:str" (fst item), snd item))
           (sorted
              (map (fun item => (fst item, represent_data (snd item)))
                 items)))
  | Tuple tag args =>
      SequenceNode "tag:yaml.org,2002:python/tuple"
        (ScalarNode "tag:yaml.org,2002:str" tag :: map represent_data args)
  end.

(** [yaml.dump(data, allow_unicode=True, default_flow_style=False)] *)
Definition dump (data : node) : Node := represent_data data.

(** The keys of a mapping, in the order the emitter writes them. *)
Definition keys (n : Node) : list string :=
  match n with
  | MappingNode _ value =>
      map (fun item =>
             match fst item with
             | ScalarNode _ k => k
             | _ => EmptyString
             end) value
  | _ => []
  end.

End yaml.

(** ** Interpreter *)

(** The outcome of a method of the interpreter: a value, a
    [ConfigLanguageError], or [Crashes]. [Crashes] is the exception that
    the unpacking of a tuple of the wrong length raises under a recognized
    tag, which [main] does not catch. It is also the outcome given to a
    tuple whose name is not a [str]: a name is an identifier in every
    tuple that the parser builds, and what Python does with another one is
    not described. No run of the program crashes, see
    [main_no_traceback]. *)
Inductive outcome (A : Type) : Type :=
  | Value (a : A)
  | Raises (e : ConfigLanguageError)
  | Crashes.
Arguments Value {A} a.
Arguments Raises {A} e.
Arguments Crashes {A}.

(** The interpreter, and what it has printed so far. *)
Record Interpreter : Type := mkInterpreter {
  variables : gmap string node;
  stdout : list yaml.Node
}.

(** [Interpreter.__init__] *)
Definition Interpreter_init : Interpreter := mkInterpreter ∅ [].

(** The ['var'] branch of [evaluate], which [_eval_value] enters through
    [self.evaluate(value)]. *)
Definition evaluate_var (vars : gmap string node) (args : list node)
  : outcome node :=
  match args with
  | [Str name] =>
      match vars !! name with
      | None => Raises (UndefinedVariable name)
      | Some v => Value v
      end
  | _ => Crashes
  end.

(** [Interpreter._eval_value]. The comprehension builds the new dict item
    by item, in the order of [value.items()]. *)
Fixpoint _eval_value (vars : gmap string node) (value : node)
  : outcome node :=
  match value with
  | Dict items =>
      (fix comprehension (items : list (string * node))
           (acc : list (string * node)) : outcome node :=
         match items with
         | [] => Value (Dict acc)
         | (k, v) :: items' =>
             match _eval_value vars v with
             | Value v' => comprehension items' (dict_set acc k v')
             | Raises e => Raises e
             | Crashes => Crashes
             end
         end) items []
  | Tuple tag args =>
      if String.eqb tag "var" then evaluate_var vars args
      else Value value
  | _ => Value value
  end.

(** [Interpreter.evaluate]: the value returned ([None] is Python's) and
    the interpreter after the call. An error is raised before the
    statement has assigned or printed anything. [ast] is never [None]:
    [parse_all] appends no [None] to the statements. *)
Definition evaluate (self : Interpreter) (ast : node)
  : outcome (option node * Interpreter) :=
  match ast with
  | Tuple tag args =>
      if String.eqb tag "let" then
        match args with
        | [Str name; value] =>
            match _eval_value (variables self) value with
            | Value v =>
                Value (None,
                       mkInterpreter (<[name := v]> (variables self))
                         (stdout self))
            | Raises e => Raises e
            | Crashes => Crashes
            end
        | _ => Crashes
        end
      else if String.eqb tag "q" then
        match args with
        | [expr] =>
            match _eval_value (variables self) expr with
            | Value result =>
                Value (None,
                       mkInterpreter (variables self)
                         (stdout self ++ [yaml.dump result]))
            | Raises e => Raises e
            | Crashes => Crashes
            end
        | _ => Crashes
        end
      else if String.eqb tag "var" then
        match evaluate_var (variables self) args with
        | Value v => Value (Some v, self)
        | Raises e => Raises e
        | Crashes => Crashes
        end
      else Raises (UnknownNode ast)
  | _ => Value (Some ast, self)
  end.

(** ** The program *)

(** How a run ends: [main] returns, [sys.exit(1)] after the message of a
    [ConfigLanguageError] went to the error stream, or a traceback. *)
Inductive ending : Type :=
  | Finished
  | Failed (e : ConfigLanguageError)
  | Traceback.

(** The exit code of the process. *)
Definition exit_code (e : ending) : nat :=
  match e with
  | Finished => 0
  | Failed _ => 1
  | Traceback => 1
  end.

(** What a run leaves: the standard output and the ending. *)
Record outputs : Type := mkOutputs {
  output : list yaml.Node;
  status : ending
}.

(** The loop [for stmt in ast: interpreter.evaluate(stmt)] of [main]. *)
Fixpoint main_loop (interpreter : Interpreter) (ast : list node) : outputs :=
  match ast with
  | [] => mkOutputs (stdout interpreter) Finished
  | stmt :: ast' =>
      match evaluate interpreter stmt with
      | Value (_, interpreter') => main_loop interpreter' ast'
      | Raises e => mkOutputs (stdout interpreter) (Failed e)
      | Crashes => mkOutputs (stdout interpreter) Traceback
      end
  end.

(** [main] on the content of the file; [None] when the parser ran out of
    fuel. *)
Definition main (content : string) : option outputs :=
  match parse_all (Parser_init content) with
  | Raise e _ => Some (mkOutputs [] (Failed e))
  | Return ast _ => Some (main_loop Interpreter_init ast)
  | OutOfFuel => None
  end.

(** What [open(filepath, 'r', encoding='utf-8')] and [f.read()] do with a
    path: the content of the file, [FileNotFoundError], or another
    exception. *)
Inductive opened : Type :=
  | Content (content : string)
  | FileNotFoundError
  | OtherException.

(** What [main] and the interpreter of Python write on the error stream:
    the usage line, the two messages about the file, the message of a
    [ConfigLanguageError], and the traceback of an exception that nothing
    catches. *)
Inductive diagnostic : Type :=
  | Usage
  | FileNotFound (filepath : string)
  | ReadError
  | Message (e : ConfigLanguageError)
  | Uncaught.

(** What a process leaves: the two streams and the exit status. *)
Record process : Type := mkProcess {
  process_stdout : list yaml.Node;
  process_stderr : list diagnostic;
  process_status : nat
}.

(** [main], from [sys.argv] and the files; [None] when the parser ran
    out of fuel. *)
Definition main_argv (argv : list string) (open_ : string -> opened)
  : option process :=
  match argv with
  | [_; filepath] =>
      match open_ filepath with
      | FileNotFoundError => Some (mkProcess [] [FileNotFound filepath] 1)
      | OtherException => Some (mkProcess [] [ReadError] 1)
      | Content content =>
          match main content with
          | Some out =>
              Some (mkProcess (output out)
                      match status out with
                      | Finished => []
                      | Failed e => [Message e]
                      | Traceback => [Uncaught]
                      end
                      (exit_code (status out)))
          | None => None
          end
      end
  | _ => Some (mkProcess [] [Usage] 1)
  end.

(** A newline and a quote, to write source texts with. *)
Definition nl : string := String Char.newline EmptyString.
Definition dq : string := String Char.quote EmptyString.

(** ** Notions of the properties *)

(** *** The scanner and the parser *)

(** The column after the whitespace [ws], from the column [col]. *)
Definition col_after (ws : string) (col : nat) : nat :=
  if Text.count Char.newline ws =? 0 then col + String.length ws
  else 1 + String.length (Text.after_last Char.newline ws).

(** The line and the column of an offset of a text, both from 1: one more
    than the newlines before the offset, and one more than the characters
    between the last of them, or the start of the text, and the offset. *)
Definition line_col_at (text : string) (offset : nat) : nat * nat :=
  let before := Text.take offset text in
  (1 + Text.count Char.newline before,
   1 + String.length (Text.after_last Char.newline before)).

(** The line and the column of the parser are those of its offset. *)
Definition in_step (p : Parser) : Prop :=
  (line p, col p) = line_col_at (text p) (pos p).

(** What stands between the quotes of a string literal: characters other
    than the quote and the backslash, and pairs of a backslash and any
    character. *)
Inductive string_body : string -> Prop :=
  | body_nil : string_body EmptyString
  | body_char c s :
      c <> Char.quote -> c <> Char.backslash ->
      string_body s -> string_body (String c s)
  | body_escape c s :
      string_body s -> string_body (String Char.backslash (String c s)).

(** The value of a result, changed by [f]. *)
Definition result_map {A B : Type} (f : A -> B) (r : result A) : result B :=
  match r with
  | Return a p => Return (f a) p
  | Raise e p => Raise e p
  | OutOfFuel => OutOfFuel
  end.

(** The loop of [parse_dict] without the assignment to [result]: the
    entries of the literal as they stand in the text, a key and its value
    per entry, in the order of the text. *)
Fixpoint read_entries (parse_value : M node) (n : nat) (first : bool)
    (entries : list (string * node)) : M (list (string * node)) :=
  fun p =>
    match n with
    | 0 => OutOfFuel
    | S n' =>
        if at_end p then Return entries p
        else
          let p := skip_whitespace p in
          if looking_at "}" p then Return entries p
          else
            (run (if first then ret "" else match_ (re_literal ","));
             do key <- parse_identifier;
             run match_ (re_literal "=>");
             do value <- parse_value;
             read_entries parse_value n' false (entries ++ [(key, value)])) p
    end.

(** The dict that the assignments [result[key] = value] build, entry
    after entry, from [result]. *)
Definition assign_all (entries result : list (string * node))
  : list (string * node) :=
  fold_left (fun d entry => dict_set d (fst entry) (snd entry)) entries result.

(** [d.get(key)] *)
Fixpoint dict_get (d : list (string * node)) (key : string) : option node :=
  match d with
  | [] => None
  | (k, v) :: d' => if String.eqb k key then Some v else dict_get d' key
  end.

(** The keys of [keys] that are not in [seen], each at its first
    occurrence. *)
Fixpoint first_occurrences (seen keys : list string) : list string :=
  match keys with
  | [] => []
  | k :: keys' =>
      if existsb (String.eqb k) seen then first_occurrences seen keys'
      else k :: first_occurrences (seen ++ [k]) keys'
  end.

(** The value of the last entry of [entries] under [key]. *)
Fixpoint last_value (key : string) (entries : list (string * node))
  : option node :=
  match entries with
  | [] => None
  | (k, v) :: entries' =>
      match last_value key entries' with
      | Some v' => Some v'
      | None => if String.eqb k key then Some v else None
      end
  end.

(** *** Literals in the text *)

(** The concrete syntax of a value: the digits of a number, the body of a
    string, the name of a variable, the entries of a dict. *)
#[warnings="-register-all"]
Inductive literal : Type :=
  | LNum (digits : string)
  | LStr (body : string)
  | LVar (name : string)
  | LDict (entries : list (string * literal)).

(** The text of a literal, a space around [=>] and after a comma. *)
Fixpoint unparse (l : literal) : string :=
  match l with
  | LNum digits => digits
  | LStr body => String Char.quote (body +:+ String Char.quote EmptyString)
  | LVar name => "$[" +:+ name +:+ "]"
  | LDict entries =>
      String "{"
        ((fix unparse_entries (es : list (string * literal)) (first : bool)
            : string :=
            match es with
            | [] => "}"
            | (k, v) :: es' =>
                (if first then "" else ", ") +:+ k +:+ " => " +:+
                unparse v +:+ unparse_entries es' false
            end) entries true)
  end.

(** The text of the entries of a dict, up to the closing brace. *)
Fixpoint unparse_entries (es : list (string * literal)) (first : bool)
  : string :=
  match es with
  | [] => "}"
  | (k, v) :: es' =>
      (if first then "" else ", ") +:+ k +:+ " => " +:+
      unparse v +:+ unparse_entries es' false
  end.

(** The node that a literal stands for: for a dict literal, the dict
    that the assignments of its entries build, in the order of the
    text. *)
Fixpoint denote (l : literal) : node :=
  match l with
  | LNum digits => Num (int digits)
  | LStr body => Str body
  | LVar name => Var name
  | LDict entries =>
      Dict
        (assign_all
           ((fix denote_entries (es : list (string * literal))
               : list (string * node) :=
               match es with
               | [] => []
               | (k, v) :: es' => (k, denote v) :: denote_entries es'
               end) entries) [])
  end.

(** The entries of a dict literal, each with the node of its value. *)
Fixpoint denote_entries (es : list (string * literal))
  : list (string * node) :=
  match es with
  | [] => []
  | (k, v) :: es' => (k, denote v) :: denote_entries es'
  end.

(** How deep the dict literals of a literal nest. *)
Fixpoint depth (l : literal) : nat :=
  match l with
  | LDict entries =>
      S ((fix depth_entries (es : list (string * literal)) : nat :=
            match es with
            | [] => 0
            | (_, v) :: es' => Nat.max (depth v) (depth_entries es')
            end) entries)
  | _ => 0
  end.

(** The deepest nesting among the values of the entries. *)
Fixpoint depth_entries (es : list (string * literal)) : nat :=
  match es with
  | [] => 0
  | (_, v) :: es' => Nat.max (depth v) (depth_entries es')
  end.

(** A token of the class [f]: not empty, and of characters of [f]. *)
Definition token_of (f : ascii -> bool) (s : string) : Prop :=
  s <> EmptyString /\ Text.all f s = true.

(** The literals that the grammar has. *)
Fixpoint well_formed (l : literal) : Prop :=
  match l with
  | LNum digits => token_of Char.re_digit digits
  | LStr body => string_body body
  | LVar name => token_of Char.re_ident name
  | LDict entries =>
      (fix well_formed_entries (es : list (string * literal)) : Prop :=
         match es with
         | [] => True
         | (k, v) :: es' =>
             token_of Char.re_ident k /\ well_formed v /\
             well_formed_entries es'
         end) entries
  end.

(** The entries that the grammar has: an identifier and a literal. *)
Fixpoint well_formed_entries (es : list (string * literal)) : Prop :=
  match es with
  | [] => True
  | (k, v) :: es' =>
      token_of Char.re_ident k /\ well_formed v /\ well_formed_entries es'
  end.

(** [m], from [p], returns [a] and leaves [rest] to read. *)
Definition parses {A : Type} (m : M A) (p : Parser) (a : A) (rest : string)
  : Prop :=
  exists p', m p = Return a p' /\ text p' = text p /\ remaining p' = rest.

(** The text [s] does not go on with a character of [f]. *)
Definition stops (f : ascii -> bool) (s : string) : Prop :=
  match Text.head s with
  | Some c => f c = false
  | None => True
  end.

(** The number of digits that [int] accepts: beyond
    [sys.int_info.default_max_str_digits] digits, [int(num_str)] raises
    [ValueError]; up to it, [int(num_str)] is [int]. *)
Definition int_max_str_digits : nat := 4300.

(** *** The progress of the parsing methods *)

(** The characters left. *)
Definition measure (p : Parser) : nat := String.length (text p) - pos p.

(** A method that moves forward only. *)
Definition advances {A : Type} (m : M A) : Prop :=
  forall p a p', m p = Return a p' -> text p' = text p /\ pos p <= pos p'.

(** A method that consumes a character whenever it returns. *)
Definition consumes {A : Type} (m : M A) : Prop :=
  forall p a p', m p = Return a p' -> text p' = text p /\ pos p < pos p'.

(** A method that needs no fuel. *)
Definition fuelless {A : Type} (m : M A) : Prop :=
  forall p, m p <> OutOfFuel.

(** A pattern that matches no empty token. *)
Definition nonempty (pat : pattern) : Prop :=
  match pat with
  | re_literal EmptyString => False
  | _ => True
  end.

(** A pattern whose tokens hold no newline. *)
Definition one_line (pat : pattern) : Prop :=
  match pat with
  | re_literal l => Text.count Char.newline l = 0
  | _ => True
  end.

(** A method whose errors are syntax errors with the line and the column
    that the parser has when it raises. *)
Definition positioned {A : Type} (m : M A) : Prop :=
  forall p e p',
    m p = Raise e p' -> exists msg, e = SyntaxError (line p') (col p') msg.

(** A parser on [content], a text without a quote, where no string
    literal can start, and in step. *)
Definition steady_state (content : string) (p : Parser) : Prop :=
  text p = content /\ in_step p.

(** A method that keeps such a parser so, and whose errors carry the line
    and the column of the parser. *)
Definition steady (content : string) {A : Type} (m : M A) : Prop :=
  forall p,
    steady_state content p ->
    match m p with
    | Return _ p' => steady_state content p'
    | Raise e p' =>
        steady_state content p' /\
        exists msg, e = SyntaxError (line p') (col p') msg
    | OutOfFuel => True
    end.

(** A method whose value, when it returns, satisfies [P]. *)
Definition yields {A : Type} (P : A -> Prop) (m : M A) : Prop :=
  forall p a p', m p = Return a p' -> P a.

(** *** The interpreter and the serializer *)

(** [evaluated self stmts self']: the statements [stmts], evaluated in
    order from [self], all return and leave the interpreter [self']. *)
Inductive evaluated : Interpreter -> list node -> Interpreter -> Prop :=
  | evaluated_nil self : evaluated self [] self
  | evaluated_cons self stmt v self1 stmts self2 :
      evaluate self stmt = Value (v, self1) ->
      evaluated self1 stmts self2 ->
      evaluated self (stmt :: stmts) self2.

(** A bare value: what [parse_value] returns that is no tuple. *)
Definition is_literal (ast : node) : bool :=
  match ast with
  | Num _ | Str _ | Dict _ => true
  | Tuple _ _ => false
  end.

(** The tags [evaluate] knows. *)
Definition recognized (tag : string) : bool :=
  String.eqb tag "let" || String.eqb tag "q" || String.eqb tag "var".

(** The values of the language: numbers, strings, references to
    variables, and dicts of values. *)
Fixpoint is_value (ast : node) : bool :=
  match ast with
  | Num _ | Str _ => true
  | Dict items =>
      (fix all (l : list (string * node)) : bool :=
         match l with
         | [] => true
         | (_, v) :: l' => is_value v && all l'
         end) items
  | Tuple tag args =>
      String.eqb tag "var" &&
      match args with
      | [Str _] => true
      | _ => false
      end
  end.

(** The statements of the language: values, [let] and [q]. *)
Definition is_statement (ast : node) : bool :=
  match ast with
  | Tuple tag args =>
      if String.eqb tag "let" then
        match args with
        | [Str _; value] => is_value value
        | _ => false
        end
      else if String.eqb tag "q" then
        match args with
        | [expr] => is_value expr
        | _ => false
        end
      else is_value ast
  | _ => is_value ast
  end.

(** A dict of values. *)
Definition all_values (d : list (string * node)) : Prop :=
  Forall (fun item => is_value (snd item) = true) d.

(** The order of [str] on keys: that of the code points, character by
    character. *)
Definition key_le (a b : string) : Prop := String.leb a b = true.

(** The order of the items of a dict: that of their keys. *)
Definition item_le {A : Type} (x y : string * A) : Prop :=
  key_le (fst x) (fst y).

(** Every mapping of a document lists its keys in ascending order. *)
Fixpoint mappings_sorted (n : yaml.Node) : Prop :=
  match n with
  | yaml.ScalarNode _ _ => True
  | yaml.SequenceNode _ items =>
      (fix all (l : list yaml.Node) : Prop :=
         match l with
         | [] => True
         | x :: l' => mappings_sorted x /\ all l'
         end) items
  | yaml.MappingNode _ pairs =>
      Sorted key_le (yaml.keys n) /\
      (fix all (l : list (yaml.Node * yaml.Node)) : Prop :=
         match l with
         | [] => True
         | item :: l' => mappings_sorted (snd item) /\ all l'
         end) pairs
  end.

(** *** The bounds of the parser *)

(** The parser stands within its text; its line is at least 1 and at
    most the line of its offset; its column is at least 1 and at most one
    more than its offset. *)
Definition within (p : Parser) : Prop :=
  pos p <= String.length (text p) /\
  1 <= line p /\
  line p <= 1 + Text.count Char.newline (Text.take (pos p) (text p)) /\
  1 <= col p /\
  col p <= pos p + 1.

(** A method that leaves the text as it is and keeps [Inv], whether it
    returns or raises. *)
Definition keeps (Inv : Parser -> Prop) {A : Type} (m : M A) : Prop :=
  forall p,
    Inv p ->
    match m p with
    | Return _ p' => text p' = text p /\ Inv p'
    | Raise _ p' => text p' = text p /\ Inv p'
    | OutOfFuel => True
    end.

(** *** The nodes of the grammar *)

(** The values that the grammar has: a number, a string whose body has
    no quote but after a backslash, a reference to an identifier, a dict
    whose keys are identifiers, each once, and whose values are values of
    the grammar. *)
Fixpoint grammatical (ast : node) : Prop :=
  match ast with
  | Num _ => True
  | Str s => string_body s
  | Dict items =>
      NoDup (map fst items) /\
      (fix all (l : list (string * node)) : Prop :=
         match l with
         | [] => True
         | (k, v) :: l' => token_of Char.re_ident k /\ grammatical v /\ all l'
         end) items
  | Tuple tag args =>
      tag = "var" /\
      match args with
      | [Str name] => token_of Char.re_ident name
      | _ => False
      end
  end.

(** The items of a dict of the grammar. *)
Definition grammatical_items (d : list (string * node)) : Prop :=
  Forall
    (fun item => token_of Char.re_ident (fst item) /\ grammatical (snd item))
    d.

(** The statements that the grammar has: the binding of an identifier to
    a value, the [q] of a value, a value. *)
Definition grammatical_statement (ast : node) : Prop :=
  match ast with
  | Tuple tag args =>
      if String.eqb tag "let" then
        match args with
        | [Str name; value] =>
            token_of Char.re_ident name /\ grammatical value
        | _ => False
        end
      else if String.eqb tag "q" then
        match args with
        | [expr] => grammatical expr
        | _ => False
        end
      else grammatical ast
  | _ => grammatical ast
  end.

(** *** Statements in the text *)

(** The concrete syntax of a statement: a binding, a [q], or a bare
    value. *)
Inductive statement : Type :=
  | SLet (name : string) (value : literal)
  | SQ (expr : literal)
  | SValue (value : literal).

(** The literal of a statement. *)
Definition literal_of (s : statement) : literal :=
  match s with
  | SLet _ value => value
  | SQ expr => expr
  | SValue value => value
  end.

(** The text of a statement, a space after [let] and around [=]. *)
Definition unparse_statement (s : statement) : string :=
  match s with
  | SLet name value => "let " +:+ name +:+ " = " +:+ unparse value
  | SQ expr => "q(" +:+ unparse expr +:+ ")"
  | SValue value => unparse value
  end.

(** The tuple, or the value, that a statement stands for. *)
Definition denote_statement (s : statement) : node :=
  match s with
  | SLet name value => Let name (denote value)
  | SQ expr => Q (denote expr)
  | SValue value => denote value
  end.

(** The statements that the grammar has. *)
Definition well_formed_statement (s : statement) : Prop :=
  match s with
  | SLet name value => token_of Char.re_ident name /\ well_formed value
  | SQ expr => well_formed expr
  | SValue value => well_formed value
  end.

(** The text of a program, a statement per line. *)
Fixpoint unparse_program (stmts : list statement) : string :=
  match stmts with
  | [] => EmptyString
  | s :: stmts' =>
      unparse_statement s +:+ String Char.newline (unparse_program stmts')
  end.

(** A literal for a value: the digits that [str] writes for a number,
    the string as the body, the name of a reference, and a literal for
    each item of a dict, in the order of the items. *)
Fixpoint literal_for (value : node) : literal :=
  match value with
  | Num n => LNum (yaml.str n)
  | Str s => LStr s
  | Dict items =>
      LDict
        ((fix go (l : list (string * node)) : list (string * literal) :=
            match l with
            | [] => []
            | (k, v) :: l' => (k, literal_for v) :: go l'
            end) items)
  | Tuple _ args =>
      match args with
      | [Str name] => LVar name
      | _ => LVar EmptyString
      end
  end.

(** A statement for a node of the grammar. *)
Definition statement_for (ast : node) : statement :=
  match ast with
  | Tuple tag args =>
      if String.eqb tag "let" then
        match args with
        | [Str name; value] => SLet name (literal_for value)
        | _ => SValue (literal_for ast)
        end
      else if String.eqb tag "q" then
        match args with
        | [expr] => SQ (literal_for expr)
        | _ => SValue (literal_for ast)
        end
      else SValue (literal_for ast)
  | _ => SValue (literal_for ast)
  end.

(** The text of the entries of a dict without the closing brace. *)
Fixpoint unparse_items (es : list (string * literal)) (first : bool)
  : string :=
  match es with
  | [] => EmptyString
  | (k, v) :: es' =>
      (if first then "" else ", ") +:+ k +:+ " => " +:+
      unparse v +:+ unparse_items es' false
  end.

(** *** References and resolved values *)

(** The comprehension of [_eval_value], from the items built so far. *)
Fixpoint comprehension (vars : gmap string node)
    (items acc : list (string * node)) : outcome node :=
  match items with
  | [] => Value (Dict acc)
  | (k, v) :: items' =>
      match _eval_value vars v with
      | Value v' => comprehension vars items' (dict_set acc k v')
      | Raises e => Raises e
      | Crashes => Crashes
      end
  end.

(** The names that a value refers to, in the order in which
    [_eval_value] looks them up: the items of a dict one after the other,
    each to its depth. *)
Fixpoint references (value : node) : list string :=
  match value with
  | Dict items =>
      (fix go (l : list (string * node)) : list string :=
         match l with
         | [] => []
         | (_, v) :: l' => references v ++ go l'
         end) items
  | Tuple tag args =>
      if String.eqb tag "var" then
        match args with
        | [Str name] => [name]
        | _ => []
        end
      else []
  | _ => []
  end.

(** The names that the evaluation of a statement looks up: those of the
    value of a [let] or of a [q], the name of a bare reference, and none
    for a bare number, string or dict, which is returned as it is. *)
Definition statement_references (ast : node) : list string :=
  match ast with
  | Tuple tag args =>
      if String.eqb tag "let" then
        match args with
        | [Str _; value] => references value
        | _ => []
        end
      else if String.eqb tag "q" then
        match args with
        | [expr] => references expr
        | _ => []
        end
      else references ast
  | _ => []
  end.

(** The first of [names] that [vars] does not bind. *)
Fixpoint first_unbound (vars : gmap string node) (names : list string)
  : option string :=
  match names with
  | [] => None
  | x :: names' =>
      match vars !! x with
      | Some _ => first_unbound vars names'
      | None => Some x
      end
  end.

(** A resolved value: a number, a string, or a dict, each key once, of
    resolved values; no tuple is left in it. *)
Fixpoint resolved (value : node) : Prop :=
  match value with
  | Num _ | Str _ => True
  | Dict items =>
      NoDup (map fst items) /\
      (fix all (l : list (string * node)) : Prop :=
         match l with
         | [] => True
         | (_, v) :: l' => resolved v /\ all l'
         end) items
  | Tuple _ _ => False
  end.

(** The variables of the interpreter are bound to resolved values. *)
Definition resolved_variables (vars : gmap string node) : Prop :=
  forall x v, vars !! x = Some v -> resolved v.


(** The names that a statement binds. *)
Definition statement_binds (ast : node) : list string :=
  match ast with
  | Tuple tag args =>
      if String.eqb tag "let" then
        match args with
        | [Str name; _] => [name]
        | _ => []
        end
      else []
  | _ => []
  end.



(** * Properties *)

(** ** Slices *)

Module TextFacts.
Import Text.

Lemma drop_nil n : drop n EmptyString = EmptyString.
Proof. destruct n; reflexivity. Qed.

Lemma drop_drop n k s : drop k (drop n s) = drop (n + k) s.
Proof.
  revert s; induction n as [|n IH]; intros s; simpl; [reflexivity|].
  destruct s; [apply drop_nil | apply IH].
Qed.

Lemma drop_app_length (a b : string) : drop (String.length a) (a +:+ b) = b.
Proof. induction a; simpl; auto. Qed.

Lemma take_app_length (a b : string) : take (String.length a) (a +:+ b) = a.
Proof. induction a; simpl; [reflexivity | now f_equal]. Qed.

Lemma length_drop n s : String.length (drop n s) = String.length s - n.
Proof.
  revert s; induction n as [|n IH]; intros s; simpl; [lia|].
  destruct s; simpl; [reflexivity | apply IH].
Qed.

Lemma length_append (a b : string) :
  String.length (a +:+ b) = String.length a + String.length b.
Proof. induction a; simpl; auto. Qed.

Lemma append_assoc (a b c : string) : (a +:+ b) +:+ c = a +:+ (b +:+ c).
Proof. induction a; simpl; [reflexivity | now f_equal]. Qed.

Lemma append_nil_r (a : string) : a +:+ EmptyString = a.
Proof. induction a; simpl; [reflexivity | now f_equal]. Qed.

Lemma drop_cons_lt n s c s' : drop n s = String c s' -> n < String.length s.
Proof.
  intros H. pose proof (length_drop n s) as L. rewrite H in L.
  simpl in L. lia.
Qed.

Lemma drop_ge n s : String.length s <= n -> drop n s = EmptyString.
Proof.
  intros H. pose proof (length_drop n s) as L.
  destruct (drop n s); [reflexivity | simpl in L; lia].
Qed.

Lemma span_app f (s : string) :
  s = span f s +:+ drop (String.length (span f s)) s.
Proof.
  induction s as [|c s IH]; simpl; [reflexivity|].
  destruct (f c); simpl; [now f_equal | reflexivity].
Qed.

Lemma span_all f s : all f (span f s) = true.
Proof.
  induction s as [|c s IH]; simpl; [reflexivity|].
  destruct (f c) eqn:E; simpl; [now rewrite E | reflexivity].
Qed.

Lemma span_stop f s :
  match head (drop (String.length (span f s)) s) with
  | Some c => f c = false
  | None => True
  end.
Proof.
  induction s as [|c s IH]; simpl; [exact I|].
  destruct (f c) eqn:E; simpl; [exact IH | exact E].
Qed.

Lemma startswith_app (l s : string) :
  startswith l s = true -> s = l +:+ drop (String.length l) s.
Proof.
  revert s; induction l as [|a l IH]; intros s H; simpl in *; [reflexivity|].
  destruct s as [|b s]; [discriminate|].
  apply andb_prop in H as [H1 H2].
  apply Ascii.eqb_eq in H1; subst b.
  simpl. f_equal. now apply IH.
Qed.

Lemma startswith_refl_app (l s : string) : startswith l (l +:+ s) = true.
Proof.
  induction l as [|a l IH]; simpl; [reflexivity|].
  now rewrite Ascii.eqb_refl.
Qed.

End TextFacts.

(** ** The scanner *)

Section Scanner.
Import Text TextFacts.

Lemma skip_whitespace_loop_spec rest p :
  let ws := span Char.isspace rest in
  skip_whitespace_loop rest p =
    mkParser (text p) (pos p + String.length ws)
      (line p + count Char.newline ws) (col_after ws (col p)).
Proof.
  revert p; induction rest as [|c rest IH]; intros p; simpl.
  - unfold col_after; simpl. destruct p; simpl. f_equal; lia.
  - destruct (Char.isspace c) eqn:Hc; simpl.
    + rewrite IH. unfold skip_char, col_after. simpl.
      destruct (Ascii.eqb c Char.newline) eqn:Hn; simpl.
      * destruct (count Char.newline (span Char.isspace rest) =? 0) eqn:Hz;
          simpl; f_equal; lia.
      * destruct (count Char.newline (span Char.isspace rest) =? 0) eqn:Hz;
          simpl; f_equal; lia.
    + unfold col_after; simpl. destruct p; simpl. f_equal; lia.
Qed.

Lemma skip_whitespace_spec p :
  let ws := span Char.isspace (remaining p) in
  skip_whitespace p =
    mkParser (text p) (pos p + String.length ws)
      (line p + count Char.newline ws) (col_after ws (col p)).
Proof. apply skip_whitespace_loop_spec. Qed.

Lemma skip_whitespace_text p : text (skip_whitespace p) = text p.
Proof. now rewrite skip_whitespace_spec. Qed.

Lemma skip_whitespace_pos p : pos p <= pos (skip_whitespace p).
Proof. rewrite skip_whitespace_spec; simpl; lia. Qed.

Lemma skip_whitespace_remaining p :
  remaining (skip_whitespace p) =
    drop (String.length (span Char.isspace (remaining p))) (remaining p).
Proof.
  rewrite skip_whitespace_spec. unfold remaining; simpl.
  now rewrite drop_drop.
Qed.

(** After [skip_whitespace] the parser is at the end of the text or at a
    character that is not whitespace. *)
Lemma skip_whitespace_stop p :
  match peek (skip_whitespace p) with
  | Some c => Char.isspace c = false
  | None => True
  end.
Proof.
  unfold peek. rewrite skip_whitespace_remaining. apply span_stop.
Qed.

(** Where there is no whitespace to skip, nothing moves. *)
Lemma skip_whitespace_id p :
  match peek p with
  | Some c => Char.isspace c = false
  | None => True
  end ->
  skip_whitespace p = p.
Proof.
  unfold peek, skip_whitespace. destruct (remaining p) as [|c r]; simpl.
  - reflexivity.
  - intros ->. reflexivity.
Qed.

Lemma skip_whitespace_idem p :
  skip_whitespace (skip_whitespace p) = skip_whitespace p.
Proof. apply skip_whitespace_id, skip_whitespace_stop. Qed.

(** The loop treats the whitespace it skips character by character. *)
Lemma skip_whitespace_loop_fold rest p :
  skip_whitespace_loop rest p =
    fold_left (fun q c => skip_char c q)
      (list_ascii_of_string (span Char.isspace rest)) p.
Proof.
  revert p; induction rest as [|c rest IH]; intros p; simpl; [reflexivity|].
  destruct (Char.isspace c); simpl; [apply IH | reflexivity].
Qed.

End Scanner.

(** ** Progress and termination of the parser *)

Section Progress.
Import Text TextFacts.

Lemma bind_Return {A B : Type} (m : M A) (k : A -> M B) p b p'' :
  bind m k p = Return b p'' ->
  exists a p', m p = Return a p' /\ k a p' = Return b p''.
Proof.
  unfold bind. destruct (m p) as [a p'| |]; try discriminate.
  intros H. now exists a, p'.
Qed.

Lemma bind_OutOfFuel {A B : Type} (m : M A) (k : A -> M B) p :
  bind m k p = OutOfFuel ->
  m p = OutOfFuel \/ exists a p', m p = Return a p' /\ k a p' = OutOfFuel.
Proof.
  unfold bind. destruct (m p) as [a p'| |]; try discriminate.
  - intros H. right. now exists a, p'.
  - now left.
Qed.

Lemma consumes_advances {A : Type} (m : M A) : consumes m -> advances m.
Proof. intros H p a p' E. destruct (H p a p' E). split; [assumption | lia]. Qed.

Lemma advances_bind {A B : Type} (m : M A) (k : A -> M B) :
  advances m -> (forall a, advances (k a)) -> advances (bind m k).
Proof.
  intros Hm Hk p b p'' E.
  apply bind_Return in E as (a & p' & E1 & E2).
  destruct (Hm _ _ _ E1) as [T1 P1], (Hk a _ _ _ E2) as [T2 P2].
  split; [congruence | lia].
Qed.

Lemma consumes_bind_l {A B : Type} (m : M A) (k : A -> M B) :
  consumes m -> (forall a, advances (k a)) -> consumes (bind m k).
Proof.
  intros Hm Hk p b p'' E.
  apply bind_Return in E as (a & p' & E1 & E2).
  destruct (Hm _ _ _ E1) as [T1 P1], (Hk a _ _ _ E2) as [T2 P2].
  split; [congruence | lia].
Qed.

Lemma fuelless_bind {A B : Type} (m : M A) (k : A -> M B) :
  fuelless m -> (forall a, fuelless (k a)) -> fuelless (bind m k).
Proof.
  intros Hm Hk p E. apply bind_OutOfFuel in E as [E | (a & p' & _ & E)].
  - exact (Hm p E).
  - exact (Hk a p' E).
Qed.

Lemma advances_ret {A : Type} (a : A) : advances (ret a).
Proof. intros p b p' E. inversion E; subst. split; [reflexivity | lia]. Qed.

Lemma fuelless_ret {A : Type} (a : A) : fuelless (ret a).
Proof. intros p E. discriminate. Qed.

(** The token of a successful [match] starts the text left after the
    whitespace. *)
Lemma match_Return pat p token p' :
  match_ pat p = Return token p' ->
  re_match pat (remaining (skip_whitespace p)) = Some token /\
  p' = mkParser (text p) (pos (skip_whitespace p) + String.length token)
         (line (skip_whitespace p))
         (col (skip_whitespace p) + String.length token).
Proof.
  unfold match_.
  destruct (re_match pat (remaining (skip_whitespace p))) as [t|] eqn:E;
    [|discriminate].
  intros H. inversion H; subst. now rewrite skip_whitespace_text.
Qed.

Lemma match_Raise pat p e p' :
  match_ pat p = Raise e p' ->
  re_match pat (remaining (skip_whitespace p)) = None /\
  p' = skip_whitespace p /\
  e = SyntaxError (line p') (col p') (ExpectedToken pat).
Proof.
  unfold match_, error.
  destruct (re_match pat (remaining (skip_whitespace p))) as [t|] eqn:E;
    [discriminate|].
  intros H. inversion H; subst. auto.
Qed.

Lemma fuelless_match pat : fuelless (match_ pat).
Proof.
  intros p. unfold match_, error.
  destruct (re_match pat (remaining (skip_whitespace p))); discriminate.
Qed.

Lemma advances_match pat : advances (match_ pat).
Proof.
  intros p token p' E. apply match_Return in E as [_ ->]. simpl.
  pose proof (skip_whitespace_pos p). split; [reflexivity | lia].
Qed.

Lemma re_match_nonempty pat s token :
  nonempty pat -> re_match pat s = Some token -> 0 < String.length token.
Proof.
  destruct pat as [| |l]; simpl.
  - intros _. destruct (span Char.re_digit s); [discriminate|].
    intros H; inversion H; simpl; lia.
  - intros _. destruct (span Char.re_ident s); [discriminate|].
    intros H; inversion H; simpl; lia.
  - destruct l; [contradiction|]. intros _.
    destruct (startswith _ s); [|discriminate].
    intros H; inversion H; simpl; lia.
Qed.

Lemma consumes_match pat : nonempty pat -> consumes (match_ pat).
Proof.
  intros Hne p token p' E. apply match_Return in E as [R ->]. simpl.
  pose proof (skip_whitespace_pos p).
  pose proof (re_match_nonempty _ _ _ Hne R).
  split; [reflexivity | lia].
Qed.

End Progress.

Section Termination.
Import Text TextFacts.

Lemma parse_string_loop_bounds rest :
  forall pos,
    pos <= parse_string_loop rest pos /\
    parse_string_loop rest pos <= pos + String.length rest.
Proof.
  remember (String.length rest) as n eqn:Hn.
  assert (String.length rest <= n) as Hle by lia. clear Hn.
  revert rest Hle. induction n as [n IH] using lt_wf_ind.
  intros rest Hle pos. destruct rest as [|c rest]; simpl; [lia|].
  destruct (Ascii.eqb c Char.quote); [lia|].
  destruct (Ascii.eqb c Char.backslash).
  - destruct rest as [|c' rest]; simpl in *; [lia|].
    destruct (IH (String.length rest) ltac:(lia) rest ltac:(lia) (pos + 1 + 1)).
    lia.
  - simpl in Hle.
    destruct (IH (String.length rest) ltac:(lia) rest ltac:(lia) (pos + 1)).
    lia.
Qed.

Lemma fuelless_parse_number : fuelless parse_number.
Proof.
  apply fuelless_bind; [apply fuelless_match | intros; apply fuelless_ret].
Qed.

Lemma consumes_parse_number : consumes parse_number.
Proof.
  apply consumes_bind_l; [now apply consumes_match|].
  intros; apply advances_ret.
Qed.

Lemma fuelless_parse_identifier : fuelless parse_identifier.
Proof. apply fuelless_match. Qed.

Lemma consumes_parse_identifier : consumes parse_identifier.
Proof. now apply consumes_match. Qed.

Lemma fuelless_parse_string : fuelless parse_string.
Proof.
  apply fuelless_bind; [apply fuelless_match|]. intros _ p.
  cbv beta zeta. destruct (peek _) as [c|]; [|discriminate].
  destruct (Ascii.eqb c Char.quote); [|discriminate].
  apply fuelless_bind; [apply fuelless_match | intros; apply fuelless_ret].
Qed.

Lemma consumes_parse_string : consumes parse_string.
Proof.
  apply consumes_bind_l; [now apply consumes_match|]. intros _ p a p'.
  cbv beta zeta. destruct (peek _) as [c|]; [|discriminate].
  destruct (Ascii.eqb c Char.quote); [|discriminate].
  intros E.
  apply (advances_bind (match_ re_quote) (fun _ => ret _)) in E;
    [| apply advances_match | intros; apply advances_ret].
  simpl in E. destruct E as [T P].
  pose proof (parse_string_loop_bounds (remaining p) (pos p)) as [B _].
  split; [assumption | lia].
Qed.

Lemma fuelless_parse_var : fuelless parse_var.
Proof.
  repeat (apply fuelless_bind; [apply fuelless_match | intros]).
  apply fuelless_ret.
Qed.

Lemma consumes_parse_var : consumes parse_var.
Proof.
  apply consumes_bind_l; [now apply consumes_match | intros].
  repeat (apply advances_bind; [apply advances_match | intros]).
  apply advances_ret.
Qed.

Lemma at_end_false p : at_end p = false -> 0 < measure p.
Proof. unfold at_end, measure. intros H. apply Nat.leb_gt in H. lia. Qed.

Lemma peek_Some p c : peek p = Some c -> 0 < measure p.
Proof.
  unfold peek, measure, remaining.
  destruct (drop (pos p) (text p)) as [|c' r] eqn:E; [discriminate|].
  intros _. apply drop_cons_lt in E. lia.
Qed.

Lemma advances_separator (first : bool) :
  advances (if first then ret EmptyString else match_ (re_literal ",")).
Proof. destruct first; [apply advances_ret | apply advances_match]. Qed.

Section Dict.
Variable parse_value : M node.
Hypothesis parse_value_advances : advances parse_value.

Lemma advances_parse_dict_loop n :
  forall first result, advances (parse_dict_loop parse_value n first result).
Proof.
  induction n as [|n IH]; intros first result p a p' E; simpl in E;
    [discriminate|].
  destruct (at_end p); [inversion E; subst; split; [reflexivity | lia]|].
  pose proof (skip_whitespace_pos p) as Hs.
  pose proof (skip_whitespace_text p) as Ht.
  destruct (looking_at _ _);
    [inversion E; subst; split; [assumption | lia]|].
  apply bind_Return in E as (x & p1 & E1 & E).
  apply bind_Return in E as (key & p2 & E2 & E).
  apply bind_Return in E as (y & p3 & E3 & E).
  apply bind_Return in E as (value & p4 & E4 & E).
  apply IH in E as [T5 P5].
  apply parse_value_advances in E4 as [T4 P4].
  apply advances_match in E3 as [T3 P3].
  apply consumes_parse_identifier in E2 as [T2 P2].
  apply advances_separator in E1 as [T1 P1].
  split; [congruence | lia].
Qed.

Lemma consumes_parse_dict : consumes (parse_dict parse_value).
Proof.
  apply consumes_bind_l; [now apply consumes_match | intros _].
  apply advances_bind.
  - intros p a p'. apply advances_parse_dict_loop.
  - intros result.
    apply advances_bind; [apply advances_match | intros; apply advances_ret].
Qed.

(** The loop ends within as many turns as there are characters left,
    wherever [parse_value] needs no more fuel than it has. *)
Lemma parse_dict_loop_fuel (bound : nat) :
  (forall q, measure q < bound -> parse_value q <> OutOfFuel) ->
  forall n first result p,
    measure p < bound -> measure p < n ->
    parse_dict_loop parse_value n first result p <> OutOfFuel.
Proof.
  intros Hpv. induction n as [|n IH]; intros first result p Hb Hn;
    [lia|]. simpl.
  destruct (at_end p) eqn:Hend; [discriminate|].
  apply at_end_false in Hend.
  pose proof (skip_whitespace_pos p) as Hs.
  pose proof (skip_whitespace_text p) as Ht.
  destruct (looking_at _ _); [discriminate|].
  intros E.
  apply bind_OutOfFuel in E as [E | (x & p1 & E1 & E)].
  { destruct first; [discriminate | now apply fuelless_match in E]. }
  apply advances_separator in E1 as [T1 P1].
  apply bind_OutOfFuel in E as [E | (key & p2 & E2 & E)];
    [now apply fuelless_parse_identifier in E|].
  apply consumes_parse_identifier in E2 as [T2 P2].
  apply bind_OutOfFuel in E as [E | (y & p3 & E3 & E)];
    [now apply fuelless_match in E|].
  apply advances_match in E3 as [T3 P3].
  assert (measure p3 < measure p) as M3.
  { unfold measure in *. rewrite T3, T2, T1, Ht. lia. }
  apply bind_OutOfFuel in E as [E | (value & p4 & E4 & E)].
  { apply Hpv in E; [assumption | lia]. }
  apply parse_value_advances in E4 as [T4 P4].
  assert (measure p4 <= measure p3) as M4.
  { unfold measure in *. rewrite T4. lia. }
  apply IH in E; [assumption | lia | lia].
Qed.

End Dict.

End Termination.

Section ParseAll.
Import Text TextFacts.

Lemma consumes_parse_value fuel : consumes (parse_value fuel).
Proof.
  induction fuel as [|fuel IH]; intros p a p' E; simpl in E; [discriminate|].
  pose proof (skip_whitespace_pos p) as Hs.
  pose proof (skip_whitespace_text p) as Ht.
  assert (forall m : M node, consumes m ->
            m (skip_whitespace p) = Return a p' ->
            text p' = text p /\ pos p < pos p') as K.
  { intros m Hm Em. apply Hm in Em as [T P]. split; [congruence | lia]. }
  destruct (peek (skip_whitespace p)) as [c|]; [|discriminate].
  destruct (Char.isdigit c); [exact (K _ consumes_parse_number E)|].
  destruct (Ascii.eqb c Char.quote); [exact (K _ consumes_parse_string E)|].
  destruct (Ascii.eqb c "{").
  { refine (K _ _ E). apply consumes_parse_dict.
    now apply consumes_advances. }
  destruct (Ascii.eqb c "$"); [exact (K _ consumes_parse_var E)|].
  discriminate.
Qed.

Lemma measure_advance p p' :
  text p' = text p -> pos p <= pos p' -> measure p' <= measure p.
Proof. unfold measure. intros -> H. lia. Qed.

Lemma measure_consume p p' :
  text p' = text p -> pos p < pos p' -> 0 < measure p ->
  measure p' < measure p.
Proof. unfold measure. intros -> H. lia. Qed.

Lemma measure_le_length p : measure p <= String.length (text p).
Proof. unfold measure. lia. Qed.

(** [parse_value] needs no more fuel than there are characters left,
    plus one. *)
Lemma parse_value_fuel fuel :
  forall p, measure p < fuel -> parse_value fuel p <> OutOfFuel.
Proof.
  induction fuel as [|fuel IH]; intros p Hm; [lia|]. simpl.
  pose proof (skip_whitespace_pos p) as Hs.
  pose proof (skip_whitespace_text p) as Ht.
  destruct (peek (skip_whitespace p)) as [c|] eqn:Hp; [|discriminate].
  apply peek_Some in Hp.
  destruct (Char.isdigit c); [apply fuelless_parse_number|].
  destruct (Ascii.eqb c Char.quote); [apply fuelless_parse_string|].
  destruct (Ascii.eqb c "$") eqn:Hd;
    destruct (Ascii.eqb c "{"); try apply fuelless_parse_var;
    try discriminate.
  all: unfold parse_dict; intros E.
  all: apply bind_OutOfFuel in E as [E | (x & p1 & E1 & E)];
    [now apply fuelless_match in E|].
  all: apply (consumes_match (re_literal "{") I) in E1 as [T1 P1].
  all: assert (measure p1 < measure (skip_whitespace p)) as M1
      by (now apply measure_consume).
  all: assert (measure (skip_whitespace p) <= measure p) as M0
      by (now apply measure_advance).
  all: apply bind_OutOfFuel in E as [E | (result & p2 & E2 & E)].
  all: try (apply parse_dict_loop_fuel with (bound := fuel) in E;
            [assumption | apply consumes_advances, consumes_parse_value
            | assumption | lia | pose proof (measure_le_length p1); lia]).
  all: apply bind_OutOfFuel in E as [E | (y & p3 & E3 & E)];
    [now apply fuelless_match in E | discriminate].
Qed.

Lemma parse_let_fuel fuel p :
  measure p < fuel -> parse_let fuel p <> OutOfFuel.
Proof.
  intros Hm E. unfold parse_let in E.
  apply bind_OutOfFuel in E as [E | (x & p1 & E1 & E)];
    [now apply fuelless_match in E|].
  apply advances_match in E1 as [T1 P1].
  apply bind_OutOfFuel in E as [E | (name & p2 & E2 & E)];
    [now apply fuelless_parse_identifier in E|].
  apply consumes_parse_identifier in E2 as [T2 P2].
  apply bind_OutOfFuel in E as [E | (y & p3 & E3 & E)];
    [now apply fuelless_match in E|].
  apply advances_match in E3 as [T3 P3].
  apply bind_OutOfFuel in E as [E | (value & p4 & E4 & E)];
    [|discriminate].
  apply parse_value_fuel in E; [assumption|].
  assert (measure p3 <= measure p); [|lia].
  apply measure_advance; [congruence | lia].
Qed.

Lemma parse_q_fuel fuel p :
  measure p < fuel -> parse_q fuel p <> OutOfFuel.
Proof.
  intros Hm E. unfold parse_q in E.
  apply bind_OutOfFuel in E as [E | (x & p1 & E1 & E)];
    [now apply fuelless_match in E|].
  apply advances_match in E1 as [T1 P1].
  apply bind_OutOfFuel in E as [E | (expr & p2 & E2 & E)].
  - apply parse_value_fuel in E; [assumption|].
    assert (measure p1 <= measure p); [|lia].
    now apply measure_advance.
  - apply bind_OutOfFuel in E as [E | (y & p3 & E3 & E)];
      [now apply fuelless_match in E | discriminate].
Qed.

Lemma parse_expression_fuel fuel p :
  measure p < fuel -> parse_expression fuel p <> OutOfFuel.
Proof.
  intros Hm. unfold parse_expression.
  destruct (looking_at _ _); [apply fuelless_parse_var|].
  apply parse_value_fuel.
  pose proof (measure_advance p (skip_whitespace p)
                (skip_whitespace_text p) (skip_whitespace_pos p)).
  lia.
Qed.

Lemma parse_statement_fuel fuel p :
  measure p < fuel -> parse_statement fuel p <> OutOfFuel.
Proof.
  intros Hm. unfold parse_statement.
  pose proof (measure_advance p (skip_whitespace p)
                (skip_whitespace_text p) (skip_whitespace_pos p)).
  destruct (at_end _); [discriminate|].
  destruct (startswith "let" _);
    [|destruct (startswith "q(" _)]; intros E;
    apply bind_OutOfFuel in E as [E | (stmt & p1 & _ & E)];
    try discriminate.
  - apply parse_let_fuel in E; [assumption | lia].
  - apply parse_q_fuel in E; [assumption | lia].
  - apply parse_expression_fuel in E; [assumption | lia].
Qed.

Lemma consumes_parse_let fuel : consumes (parse_let fuel).
Proof.
  unfold parse_let.
  apply consumes_bind_l; [now apply consumes_match | intros _].
  apply advances_bind;
    [apply consumes_advances, consumes_parse_identifier | intros name].
  apply advances_bind; [apply advances_match | intros _].
  apply advances_bind;
    [apply consumes_advances, consumes_parse_value | intros value].
  apply advances_ret.
Qed.

Lemma consumes_parse_q fuel : consumes (parse_q fuel).
Proof.
  unfold parse_q.
  apply consumes_bind_l; [now apply consumes_match | intros _].
  apply advances_bind;
    [apply consumes_advances, consumes_parse_value | intros expr].
  apply advances_bind; [apply advances_match | intros _].
  apply advances_ret.
Qed.

Lemma consumes_parse_expression fuel : consumes (parse_expression fuel).
Proof.
  intros p a p' E. unfold parse_expression in E.
  pose proof (skip_whitespace_pos p) as Hs.
  pose proof (skip_whitespace_text p) as Ht.
  destruct (looking_at _ _).
  - apply consumes_parse_var in E as [T P]. split; [congruence | lia].
  - apply consumes_parse_value in E as [T P]. split; [congruence | lia].
Qed.

(** A statement that is parsed consumes a character. *)
Lemma parse_statement_Some fuel p stmt p' :
  parse_statement fuel p = Return (Some stmt) p' ->
  text p' = text p /\ pos p < pos p'.
Proof.
  unfold parse_statement.
  pose proof (skip_whitespace_pos p) as Hs.
  pose proof (skip_whitespace_text p) as Ht.
  destruct (at_end _); [discriminate|].
  destruct (startswith "let" _);
    [|destruct (startswith "q(" _)]; intros E;
    apply bind_Return in E as (s & p1 & E1 & E); inversion E; subst.
  - apply consumes_parse_let in E1 as [T P]. split; [congruence | lia].
  - apply consumes_parse_q in E1 as [T P]. split; [congruence | lia].
  - apply consumes_parse_expression in E1 as [T P].
    split; [congruence | lia].
Qed.

Lemma parse_all_loop_fuel fuel n :
  forall statements p,
    measure p < fuel -> measure p < n ->
    parse_all_loop fuel n statements p <> OutOfFuel.
Proof.
  induction n as [|n IH]; intros statements p Hf Hn; [lia|]. simpl.
  destruct (at_end p) eqn:Hend; [discriminate|].
  apply at_end_false in Hend.
  pose proof (measure_advance p (skip_whitespace p)
                (skip_whitespace_text p) (skip_whitespace_pos p)) as Hs.
  destruct (at_end (skip_whitespace p)) eqn:Hend'; [discriminate|].
  apply at_end_false in Hend'.
  intros E. apply bind_OutOfFuel in E as [E | (stmt & p1 & E1 & E)].
  - apply parse_statement_fuel in E; [assumption | lia].
  - destruct stmt as [stmt|]; [|discriminate].
    apply parse_statement_Some in E1 as [T1 P1].
    pose proof (measure_consume _ _ T1 P1 Hend').
    apply IH in E; [assumption | lia | lia].
Qed.

(** [parse_all] returns the statements or raises: the fuel it is given
    is never exhausted. *)
Theorem parse_all_terminates content :
  parse_all (Parser_init content) <> OutOfFuel.
Proof.
  unfold parse_all. apply parse_all_loop_fuel;
    unfold measure; simpl; lia.
Qed.

Corollary main_total content : exists r, main content = Some r.
Proof.
  unfold main. pose proof (parse_all_terminates content) as H.
  destruct (parse_all (Parser_init content)); [eauto | eauto | contradiction].
Qed.

End ParseAll.

(** ** The interpreter *)

Section Interpreter.

Lemma main_loop_app self pre self' post :
  evaluated self pre self' ->
  main_loop self (pre ++ post) = main_loop self' post.
Proof.
  induction 1 as [self|self stmt v self1 stmts self2 E _ IH]; simpl.
  - reflexivity.
  - now rewrite E.
Qed.

Lemma main_loop_finished self pre self' :
  evaluated self pre self' ->
  main_loop self pre = mkOutputs (stdout self') Finished.
Proof.
  intros H. rewrite <- (app_nil_r pre).
  now rewrite (main_loop_app _ _ _ [] H).
Qed.



End Interpreter.

(** ** The scan of a string literal *)

Section StringLiteral.
Import Text TextFacts.

(** The loop stops at the quote that closes the body. *)
Lemma parse_string_loop_closed body rest :
  string_body body ->
  forall pos,
    parse_string_loop (body +:+ String Char.quote rest) pos =
      pos + String.length body.
Proof.
  induction 1 as [|c s Hq Hb _ IH|c s _ IH]; intros pos; simpl.
  - lia.
  - apply Ascii.eqb_neq in Hq, Hb. rewrite Hq, Hb, IH. lia.
  - rewrite IH. lia.
Qed.

(** Without a closing quote the loop runs to the end of the text, also
    past a backslash that ends it. *)
Lemma parse_string_loop_open body tail :
  string_body body ->
  tail = EmptyString \/ tail = String Char.backslash EmptyString ->
  forall pos,
    parse_string_loop (body +:+ tail) pos =
      pos + String.length (body +:+ tail).
Proof.
  intros Hbody Htail.
  induction Hbody as [|c s Hq Hb _ IH|c s _ IH]; intros pos; simpl.
  - destruct Htail as [-> | ->]; simpl; lia.
  - apply Ascii.eqb_neq in Hq, Hb. rewrite Hq, Hb, IH. lia.
  - rewrite IH. lia.
Qed.

(** Every text is the body of a literal followed by a closing quote, or
    a body that the end of the text cuts, possibly after a backslash. *)
Lemma string_body_cases s :
  exists body,
    string_body body /\
    ((exists rest, s = body +:+ String Char.quote rest) \/
     s = body \/ s = body +:+ String Char.backslash EmptyString).
Proof.
  remember (String.length s) as n eqn:Hn.
  assert (String.length s <= n) as Hle by lia. clear Hn.
  revert s Hle. induction n as [n IH] using lt_wf_ind. intros s Hle.
  destruct s as [|c s].
  { exists EmptyString. split; [constructor | auto]. }
  destruct (Ascii.eqb c Char.quote) eqn:Hq.
  { apply Ascii.eqb_eq in Hq; subst c. exists EmptyString.
    split; [constructor | left; now exists s]. }
  destruct (Ascii.eqb c Char.backslash) eqn:Hb.
  - apply Ascii.eqb_eq in Hb; subst c. destruct s as [|c' s].
    { exists EmptyString. split; [constructor | auto]. }
    simpl in Hle.
    destruct (IH (String.length s) ltac:(lia) s ltac:(lia))
      as (body & Hbody & H).
    exists (String Char.backslash (String c' body)).
    split; [now constructor|].
    destruct H as [[rest ->] | [-> | ->]]; simpl; eauto.
  - simpl in Hle.
    destruct (IH (String.length s) ltac:(lia) s ltac:(lia))
      as (body & Hbody & H).
    apply Ascii.eqb_neq in Hq, Hb.
    exists (String c body). split; [now constructor|].
    destruct H as [[rest ->] | [-> | ->]]; simpl; eauto.
Qed.

Lemma remaining_advance p n s1 s2 :
  remaining p = s1 +:+ s2 -> n = String.length s1 ->
  forall l c, remaining (mkParser (text p) (pos p + n) l c) = s2.
Proof.
  intros H -> l c. unfold remaining in *. simpl.
  now rewrite <- drop_drop, H, drop_app_length.
Qed.

Lemma slice_remaining p s1 s2 :
  remaining p = s1 +:+ s2 ->
  slice (text p) (pos p) (pos p + String.length s1) = s1.
Proof.
  intros H. unfold slice, remaining in *.
  replace (pos p + String.length s1 - pos p) with (String.length s1) by lia.
  now rewrite H, take_app_length.
Qed.

(** [match] on a literal pattern that the text left continues with. *)
Lemma match_literal p l rest :
  remaining (skip_whitespace p) = l +:+ rest ->
  let p0 := skip_whitespace p in
  match_ (re_literal l) p =
    Return l
      (mkParser (text p) (pos p0 + String.length l) (line p0)
         (col p0 + String.length l)).
Proof.
  intros H p0. subst p0. unfold match_. rewrite H. simpl re_match.
  rewrite startswith_refl_app.
  now rewrite skip_whitespace_text.
Qed.

(** [parse_string] on a closed literal. *)
Lemma parse_string_closed p body rest :
  string_body body ->
  remaining (skip_whitespace p) =
    String Char.quote (body +:+ String Char.quote rest) ->
  let p0 := skip_whitespace p in
  parse_string p =
    Return (Str body)
      (mkParser (text p) (pos p0 + 1 + String.length body + 1)
         (line p0) (col p0 + 1 + 1)).
Proof.
  intros Hbody Hrem p0. unfold parse_string, bind at 1.
  unfold re_quote at 1.
  rewrite (match_literal p _ (body +:+ String Char.quote rest)) by exact Hrem.
  fold p0. simpl String.length. cbv beta iota zeta. cbn [text pos line col].
  set (p1 := mkParser (text p) (pos p0 + 1) (line p0) (col p0 + 1)).
  assert (remaining p1 = body +:+ String Char.quote rest) as R1.
  { unfold p1. rewrite <- (skip_whitespace_text p). fold p0.
    now apply (remaining_advance p0 1 (String Char.quote EmptyString)). }
  rewrite R1, parse_string_loop_closed by assumption.
  set (p2 := mkParser _ _ _ _).
  assert (remaining p2 = String Char.quote rest) as R2.
  { now apply (remaining_advance p1 _ body). }
  unfold peek. rewrite R2. unfold head.
  change (Ascii.eqb Char.quote Char.quote) with true. cbv iota.
  unfold bind, re_quote.
  rewrite (match_literal p2 _ rest)
    by (rewrite skip_whitespace_id;
        [exact R2 | unfold peek; rewrite R2; reflexivity]).
  rewrite (skip_whitespace_id p2)
    by (unfold peek; rewrite R2; reflexivity).
  unfold ret. subst p2. cbn [text pos line col].
  pose proof (slice_remaining p1 body _ R1) as S1.
  unfold p1 in S1. cbn [text pos] in S1. now rewrite S1.
Qed.

(** [parse_string] on a literal that the end of the text cuts. *)
Lemma parse_string_open p body tail :
  string_body body ->
  tail = EmptyString \/ tail = String Char.backslash EmptyString ->
  remaining (skip_whitespace p) = String Char.quote (body +:+ tail) ->
  let p0 := skip_whitespace p in
  parse_string p =
    Raise (SyntaxError (line p0) (col p0 + 1) UnterminatedString)
      (mkParser (text p) (String.length (text p)) (line p0) (col p0 + 1)).
Proof.
  intros Hbody Htail Hrem p0. unfold parse_string, bind at 1.
  unfold re_quote at 1.
  rewrite (match_literal p _ (body +:+ tail)) by exact Hrem.
  fold p0. simpl String.length. cbv beta iota zeta. cbn [text pos line col].
  set (p1 := mkParser (text p) (pos p0 + 1) (line p0) (col p0 + 1)).
  assert (remaining p1 = body +:+ tail) as R1.
  { unfold p1. rewrite <- (skip_whitespace_text p). fold p0.
    now apply (remaining_advance p0 1 (String Char.quote EmptyString)). }
  rewrite R1, parse_string_loop_open by assumption.
  assert (pos p0 + 1 + String.length (body +:+ tail) =
            String.length (text p)) as L.
  { pose proof (length_drop (pos (skip_whitespace p))
                  (text (skip_whitespace p))) as L.
    unfold remaining in Hrem. rewrite Hrem in L.
    cbn [String.length] in L. rewrite skip_whitespace_text in L.
    subst p0. lia. }
  rewrite L. unfold peek, remaining. cbn [text pos line col].
  rewrite drop_ge by lia. reflexivity.
Qed.

End StringLiteral.

(** ** The serializer *)

Section NodeInduction.
Variable P : node -> Prop.
Hypothesis HNum : forall n, P (Num n).
Hypothesis HStr : forall s, P (Str s).
Hypothesis HDict :
  forall items, Forall (fun item => P (snd item)) items -> P (Dict items).
Hypothesis HTuple : forall tag args, Forall P args -> P (Tuple tag args).

(** Induction on a node, with the hypothesis on every item of a dict
    and every component of a tuple. *)
Fixpoint node_nested_ind (ast : node) : P ast :=
  match ast with
  | Num n => HNum n
  | Str s => HStr s
  | Dict items =>
      HDict items
        ((fix go (l : list (string * node))
            : Forall (fun item => P (snd item)) l :=
            match l with
            | [] => @List.Forall_nil _ _
            | (k, v) :: l' =>
                @List.Forall_cons _ (fun item => P (snd item)) (k, v) l'
                  (node_nested_ind v) (go l')
            end) items)
  | Tuple tag args =>
      HTuple tag args
        ((fix go (l : list node) : Forall P l :=
            match l with
            | [] => @List.Forall_nil _ _
            | a :: l' => @List.Forall_cons _ P a l' (node_nested_ind a) (go l')
            end) args)
  end.
End NodeInduction.

Section Serializer.
Context {A : Type}.
Implicit Types (l : list (string * A)) (x y : string * A).

Lemma insert_Permutation x l : Permutation (yaml.insert x l) (x :: l).
Proof.
  induction l as [|y l IH]; simpl; [reflexivity|].
  destruct (String.leb (fst x) (fst y)); [reflexivity|].
  rewrite IH. apply perm_swap.
Qed.

Lemma sorted_Permutation l : Permutation (yaml.sorted l) l.
Proof.
  induction l as [|x l IH]; simpl; [reflexivity|].
  rewrite insert_Permutation. now constructor.
Qed.

Lemma insert_HdRel x y l :
  item_le y x -> HdRel item_le y l -> HdRel item_le y (yaml.insert x l).
Proof.
  intros Hyx Hl. destruct l as [|z l]; simpl; [now constructor|].
  destruct (String.leb (fst x) (fst z)); constructor; [assumption|].
  now inversion Hl.
Qed.

Lemma insert_Sorted x l :
  Sorted item_le l -> Sorted item_le (yaml.insert x l).
Proof.
  induction 1 as [|y l Hs IH Hd]; simpl; [repeat constructor|].
  destruct (String.leb (fst x) (fst y)) eqn:E.
  - constructor; [now constructor | now constructor].
  - constructor; [assumption|]. apply insert_HdRel; [|assumption].
    unfold item_le, key_le.
    destruct (String.leb_total (fst x) (fst y)); congruence.
Qed.

Lemma sorted_Sorted l : Sorted item_le (yaml.sorted l).
Proof.
  induction l as [|x l IH]; simpl; [constructor | now apply insert_Sorted].
Qed.

Lemma Sorted_keys l : Sorted item_le l -> Sorted key_le (map fst l).
Proof.
  induction 1 as [|y l Hs IH Hd]; simpl; constructor; [assumption|].
  destruct Hd; simpl; now constructor.
Qed.

End Serializer.

Section Dump.

Lemma keys_dump_Dict items :
  yaml.keys (yaml.dump (Dict items)) =
    map fst
      (yaml.sorted
         (map (fun item => (fst item, yaml.represent_data (snd item)))
            items)).
Proof. simpl. now rewrite map_map. Qed.

Lemma mappings_sorted_sequence tag items :
  mappings_sorted (yaml.SequenceNode tag items) <->
  Forall mappings_sorted items.
Proof.
  simpl. induction items as [|x items IH].
  - split; [constructor | trivial].
  - rewrite IH. split.
    + intros [H1 H2]. now constructor.
    + intros H. inversion H; subst. now split.
Qed.

Lemma mappings_sorted_mapping tag pairs :
  mappings_sorted (yaml.MappingNode tag pairs) <->
  Sorted key_le (yaml.keys (yaml.MappingNode tag pairs)) /\
  Forall (fun item => mappings_sorted (snd item)) pairs.
Proof.
  cbn [mappings_sorted].
  set (all := fix all (l : list (yaml.Node * yaml.Node)) : Prop := _).
  assert (all pairs <-> Forall (fun item => mappings_sorted (snd item)) pairs)
    as ->; [|reflexivity].
  induction pairs as [|x pairs IH].
  - split; [constructor | simpl; trivial].
  - cbn [all]. rewrite IH. split.
    + intros [H1 H2]. now constructor.
    + intros H. inversion H; subst. now split.
Qed.

(** Every mapping of a dumped value lists its keys in ascending
    order. *)
Lemma dump_mappings_sorted data : mappings_sorted (yaml.dump data).
Proof.
  unfold yaml.dump.
  induction data as [n|s|items IH|tag args IH] using node_nested_ind.
  - exact I.
  - exact I.
  - apply mappings_sorted_mapping. split.
    + change (Sorted key_le (yaml.keys (yaml.dump (Dict items)))).
      rewrite keys_dump_Dict. apply Sorted_keys, sorted_Sorted.
    + apply List.Forall_forall. intros item Hin.
      apply in_map_iff in Hin as (item' & <- & Hin). simpl.
      apply (Permutation_in _ (sorted_Permutation _)) in Hin.
      apply in_map_iff in Hin as (item'' & <- & Hin). simpl.
      rewrite List.Forall_forall in IH. now apply IH.
  - cbn [yaml.represent_data]. apply mappings_sorted_sequence.
    constructor; [exact I|].
    apply List.Forall_forall. intros x Hin.
    apply in_map_iff in Hin as (a & <- & Hin).
    rewrite List.Forall_forall in IH. now apply IH.
Qed.

(** What a statement prints is a dumped value. *)
Lemma evaluate_prints self stmt v self' :
  evaluate self stmt = Value (v, self') ->
  stdout self' = stdout self \/
  exists result, stdout self' = stdout self ++ [yaml.dump result].
Proof.
  destruct stmt as [n|s|items|tag args]; simpl;
    try (intros H; inversion H; subst; now left).
  destruct (String.eqb tag "let").
  { destruct args as [|[| name | |] [|value [|]]]; try discriminate.
    destruct (_eval_value _ value); try discriminate.
    intros H; inversion H; subst; simpl. now left. }
  destruct (String.eqb tag "q").
  { destruct args as [|expr [|]]; try discriminate.
    destruct (_eval_value _ expr) as [result| |]; try discriminate.
    intros H; inversion H; subst; simpl. right. now exists result. }
  destruct (String.eqb tag "var"); [|discriminate].
  destruct (evaluate_var _ args); try discriminate.
  intros H; inversion H; subst. now left.
Qed.

Lemma main_loop_mappings_sorted stmts :
  forall self,
    Forall mappings_sorted (stdout self) ->
    Forall mappings_sorted (output (main_loop self stmts)).
Proof.
  induction stmts as [|stmt stmts IH]; intros self H; simpl; [assumption|].
  destruct (evaluate self stmt) as [[v self1]| |] eqn:E; simpl;
    try assumption.
  apply IH. apply evaluate_prints in E as [-> | [result ->]];
    [assumption|].
  apply List.Forall_app. split; [assumption|].
  constructor; [apply dump_mappings_sorted | constructor].
Qed.

End Dump.

(** ** Assignments to a dict *)

Section DuplicateKeys.

Lemma existsb_eqb_In k (l : list string) :
  existsb (String.eqb k) l = true <-> In k l.
Proof.
  rewrite existsb_exists. split.
  - intros (x & Hin & E). apply String.eqb_eq in E. now subst.
  - intros H. exists k. split; [assumption | apply String.eqb_refl].
Qed.

Lemma keys_dict_set d k v :
  map fst (dict_set d k v) =
    if existsb (String.eqb k) (map fst d) then map fst d
    else map fst d ++ [k].
Proof.
  induction d as [|[k' v'] d IH]; simpl; [reflexivity|].
  rewrite (String.eqb_sym k k').
  destruct (String.eqb k' k) eqn:E; simpl; [reflexivity|].
  rewrite IH. now destruct (existsb _ _).
Qed.

Lemma dict_get_dict_set d k v key :
  dict_get (dict_set d k v) key =
    if String.eqb k key then Some v else dict_get d key.
Proof.
  induction d as [|[k' v'] d IH]; simpl; [reflexivity|].
  destruct (String.eqb k' k) eqn:E; simpl.
  - apply String.eqb_eq in E; subst k'. now destruct (String.eqb k key).
  - rewrite IH. destruct (String.eqb k key) eqn:E'; [|reflexivity].
    apply String.eqb_eq in E'; subst key. now rewrite E.
Qed.

Lemma NoDup_dict_set d k v :
  NoDup (map fst d) -> NoDup (map fst (dict_set d k v)).
Proof.
  intros H. rewrite keys_dict_set.
  destruct (existsb _ _) eqn:E; [assumption|].
  apply NoDup_app. split; [assumption|]. split.
  - intros x Hx Hin. apply list_elem_of_In in Hx, Hin.
    destruct Hin as [<- | []].
    apply existsb_eqb_In in Hx. congruence.
  - apply NoDup_singleton.
Qed.

Lemma keys_assign_all entries :
  forall result,
    map fst (assign_all entries result) =
      map fst result ++ first_occurrences (map fst result) (map fst entries).
Proof.
  induction entries as [|[k v] entries IH]; intros result; simpl.
  - now rewrite app_nil_r.
  - unfold assign_all in *. simpl. rewrite IH, keys_dict_set.
    destruct (existsb _ _); [reflexivity|]. now rewrite <- app_assoc.
Qed.

Lemma NoDup_assign_all entries :
  forall result,
    NoDup (map fst result) -> NoDup (map fst (assign_all entries result)).
Proof.
  induction entries as [|[k v] entries IH]; intros result H; simpl;
    [assumption|].
  apply IH. now apply NoDup_dict_set.
Qed.

Lemma dict_get_assign_all key entries :
  forall result,
    dict_get (assign_all entries result) key =
      match last_value key entries with
      | Some v => Some v
      | None => dict_get result key
      end.
Proof.
  induction entries as [|[k v] entries IH]; intros result; simpl;
    [reflexivity|].
  unfold assign_all in *. simpl. rewrite IH.
  destruct (last_value key entries); [reflexivity|].
  rewrite dict_get_dict_set. now destruct (String.eqb k key).
Qed.

Lemma assign_all_app es es' result :
  assign_all (es ++ es') result = assign_all es' (assign_all es result).
Proof. apply fold_left_app. Qed.

(** The loop of [parse_dict] assigns the entries it reads, in the
    order it reads them. *)
Lemma parse_dict_loop_read_entries parse_value n :
  forall first entries p,
    parse_dict_loop parse_value n first (assign_all entries []) p =
      result_map (fun es => assign_all es [])
        (read_entries parse_value n first entries p).
Proof.
  induction n as [|n IH]; intros first entries p; simpl; [reflexivity|].
  destruct (at_end p); [reflexivity|].
  destruct (looking_at _ _); [reflexivity|].
  unfold bind.
  destruct ((if first then ret "" else match_ (re_literal ","))
              (skip_whitespace p)) as [x p1|e p1|]; try reflexivity.
  destruct (parse_identifier p1) as [key p2|e p2|]; try reflexivity.
  destruct (match_ (re_literal "=>") p2) as [y p3|e p3|]; try reflexivity.
  destruct (parse_value p3) as [value p4|e p4|]; try reflexivity.
  rewrite <- IH, assign_all_app. reflexivity.
Qed.

Lemma first_occurrences_NoDup keys :
  forall seen, NoDup (seen ++ keys) -> first_occurrences seen keys = keys.
Proof.
  induction keys as [|k keys IH]; intros seen H; simpl; [reflexivity|].
  destruct (existsb (String.eqb k) seen) eqn:E.
  - apply existsb_eqb_In in E. apply NoDup_app in H as (_ & H & _).
    exfalso. apply (H k); [now apply list_elem_of_In | left].
  - f_equal. apply IH. now rewrite <- app_assoc.
Qed.

(** The comprehension of [_eval_value] keeps the keys of the dict in
    their order. *)
Lemma _eval_value_keys vars items result :
  _eval_value vars (Dict items) = Value result ->
  exists d,
    result = Dict d /\
    map fst d = first_occurrences [] (map fst items).
Proof.
  simpl.
  change (first_occurrences [] (map fst items)) with
    (map fst (@nil (string * node)) ++
     first_occurrences (map fst (@nil (string * node))) (map fst items)).
  generalize (@nil (string * node)) as acc. revert result.
  induction items as [|[k v] items IH]; intros result acc H.
  - inversion H; subst. exists acc. now rewrite app_nil_r.
  - destruct (_eval_value vars v) as [v'| |]; try discriminate.
    apply IH in H as (d & -> & Hd). exists d. split; [reflexivity|].
    rewrite Hd, keys_dict_set. simpl.
    destruct (existsb _ _); [reflexivity|]. now rewrite <- app_assoc.
Qed.

End DuplicateKeys.

(** ** Literals in the text *)

Section Literals.
Import Text TextFacts.

Lemma unparse_LDict entries :
  unparse (LDict entries) = String "{" (unparse_entries entries true).
Proof. reflexivity. Qed.

Lemma denote_LDict entries :
  denote (LDict entries) = Dict (assign_all (denote_entries entries) []).
Proof. reflexivity. Qed.

Lemma depth_LDict entries : depth (LDict entries) = S (depth_entries entries).
Proof. reflexivity. Qed.

Lemma well_formed_LDict entries :
  well_formed (LDict entries) = well_formed_entries entries.
Proof. reflexivity. Qed.

Lemma re_ident_not_space c : Char.re_ident c = true -> Char.isspace c = false.
Proof.
  destruct c as [[] [] [] [] [] [] [] []]; vm_compute; congruence.
Qed.

Lemma re_digit_not_space c : Char.re_digit c = true -> Char.isspace c = false.
Proof.
  destruct c as [[] [] [] [] [] [] [] []]; vm_compute; congruence.
Qed.

Lemma re_digit_isdigit c : Char.re_digit c = true -> Char.isdigit c = true.
Proof.
  destruct c as [[] [] [] [] [] [] [] []]; vm_compute; congruence.
Qed.

Lemma token_head f s :
  token_of f s ->
  exists c s', s = String c s' /\ f c = true /\ all f s' = true.
Proof.
  intros [Hne Hall]. destruct s as [|c s']; [contradiction|].
  simpl in Hall. apply andb_prop in Hall as [H1 H2]. eauto.
Qed.

Lemma span_token f (s rest : string) :
  all f s = true -> stops f rest -> span f (s +:+ rest) = s.
Proof.
  intros Hall Hstop. induction s as [|c s IH]; simpl in *.
  - unfold stops in Hstop. destruct rest as [|c rest]; simpl in *;
      [reflexivity | now rewrite Hstop].
  - apply andb_prop in Hall as [H1 H2]. rewrite H1. now rewrite IH.
Qed.

Lemma skip_whitespace_solid p :
  stops Char.isspace (remaining p) -> skip_whitespace p = p.
Proof. apply skip_whitespace_id. Qed.

Lemma skip_whitespace_space p s :
  remaining p = String " " s -> stops Char.isspace s ->
  remaining (skip_whitespace p) = s.
Proof.
  intros R Hs. rewrite skip_whitespace_remaining, R.
  change (String " " s) with (" " +:+ s).
  rewrite (span_token Char.isspace " " s eq_refl Hs). reflexivity.
Qed.

Lemma parses_ret {A : Type} (a : A) p rest :
  remaining p = rest -> parses (ret a) p a rest.
Proof. intros H. exists p. auto. Qed.

Lemma parses_bind {A B : Type} (m : M A) (k : A -> M B) p a r1 b r2 :
  parses m p a r1 ->
  (forall p1, text p1 = text p -> remaining p1 = r1 -> parses (k a) p1 b r2) ->
  parses (bind m k) p b r2.
Proof.
  intros (p1 & E1 & T1 & R1) Hk.
  destruct (Hk p1 T1 R1) as (p2 & E2 & T2 & R2).
  exists p2. unfold bind. rewrite E1. split; [assumption|].
  split; [congruence | assumption].
Qed.

Lemma parses_literal p l rest :
  remaining (skip_whitespace p) = l +:+ rest ->
  parses (match_ (re_literal l)) p l rest.
Proof.
  intros R. eexists. split; [now apply (match_literal p l rest)|].
  split; [reflexivity|].
  rewrite <- (skip_whitespace_text p).
  now apply (remaining_advance (skip_whitespace p) _ l rest).
Qed.

Lemma parses_token pat f p token rest :
  (forall s, re_match pat s =
             match span f s with
             | EmptyString => None
             | t => Some t
             end) ->
  remaining (skip_whitespace p) = token +:+ rest ->
  token_of f token -> stops f rest ->
  parses (match_ pat) p token rest.
Proof.
  intros Hpat R [Hne Hall] Hstop. unfold parses, match_.
  rewrite Hpat, R, (span_token f token rest Hall Hstop).
  destruct token as [|c token]; [contradiction|].
  eexists. split; [reflexivity|]. cbn [text].
  split; [apply skip_whitespace_text|].
  now apply (remaining_advance (skip_whitespace p) _ (String c token) rest).
Qed.

Lemma parses_identifier p name rest :
  remaining (skip_whitespace p) = name +:+ rest ->
  token_of Char.re_ident name -> stops Char.re_ident rest ->
  parses parse_identifier p name rest.
Proof. now apply parses_token. Qed.

Lemma parses_number p digits rest :
  remaining (skip_whitespace p) = digits +:+ rest ->
  token_of Char.re_digit digits -> stops Char.re_digit rest ->
  parses parse_number p (Num (int digits)) rest.
Proof.
  intros R Ht Hs.
  apply parses_bind with (a := digits) (r1 := rest).
  - now apply (parses_token re_digits Char.re_digit).
  - intros p1 _ R1. now apply parses_ret.
Qed.

Lemma parses_string p body rest :
  remaining (skip_whitespace p) =
    String Char.quote (body +:+ String Char.quote rest) ->
  string_body body ->
  parses parse_string p (Str body) rest.
Proof.
  intros R Hb. eexists.
  split; [exact (parse_string_closed p body rest Hb R)|].
  split; [reflexivity|].
  rewrite <- (skip_whitespace_text p).
  replace (pos (skip_whitespace p) + 1 + String.length body + 1)
    with (pos (skip_whitespace p) +
          String.length
            (String Char.quote (body +:+ String Char.quote EmptyString)))
    by (simpl; rewrite length_append; simpl; lia).
  apply (remaining_advance (skip_whitespace p) _
           (String Char.quote (body +:+ String Char.quote EmptyString)) rest);
    [|reflexivity].
  rewrite R. simpl. now rewrite append_assoc.
Qed.

Lemma parses_var p name rest :
  remaining (skip_whitespace p) = "$[" +:+ name +:+ "]" +:+ rest ->
  token_of Char.re_ident name ->
  parses parse_var p (Var name) rest.
Proof.
  intros R Ht. unfold parse_var.
  apply parses_bind with (a := "$") (r1 := "[" +:+ name +:+ "]" +:+ rest).
  { apply parses_literal. exact R. }
  intros p1 _ R1.
  apply parses_bind with (a := "[") (r1 := name +:+ "]" +:+ rest).
  { apply parses_literal. rewrite skip_whitespace_solid; [exact R1|].
    now rewrite R1. }
  intros p2 _ R2. destruct (token_head _ _ Ht) as (c & s' & -> & Hc & Hs').
  apply parses_bind with (a := String c s') (r1 := "]" +:+ rest).
  { apply parses_identifier; [|assumption | reflexivity].
    rewrite skip_whitespace_solid; [exact R2|].
    rewrite R2. simpl. now apply re_ident_not_space. }
  intros p3 _ R3.
  apply parses_bind with (a := "]") (r1 := rest).
  { apply parses_literal. rewrite skip_whitespace_solid; [exact R3|].
    now rewrite R3. }
  intros p4 _ R4. now apply parses_ret.
Qed.

Lemma remaining_cons_at_end p c r :
  remaining p = String c r -> at_end p = false.
Proof.
  unfold remaining, at_end. intros H. apply drop_cons_lt in H.
  apply Nat.leb_gt. exact H.
Qed.

Lemma peek_remaining p c r : remaining p = String c r -> peek p = Some c.
Proof. unfold peek. now intros ->. Qed.

Lemma re_ident_not_brace c : Char.re_ident c = true -> Ascii.eqb c "}" = false.
Proof.
  destruct c as [[] [] [] [] [] [] [] []]; vm_compute; congruence.
Qed.

(** The text of a literal starts with a character that is no
    whitespace. *)
Lemma unparse_solid l rest :
  well_formed l -> stops Char.isspace (unparse l +:+ rest).
Proof.
  destruct l as [digits|body|name|entries]; simpl; intros H;
    try reflexivity.
  destruct (token_head _ _ H) as (c & s' & -> & Hc & _). simpl.
  now apply re_digit_not_space.
Qed.

Lemma unparse_entries_length es first :
  length es < String.length (unparse_entries es first).
Proof.
  revert first; induction es as [|[k v] es IH]; intros first;
    cbn [unparse_entries length]; [simpl; lia|].
  specialize (IH false). rewrite !length_append.
  cbn [String.length]. lia.
Qed.

(** The text of the entries goes on with a comma or the closing brace. *)
Lemma unparse_entries_false_head es rest :
  exists c r,
    unparse_entries es false +:+ rest = String c r /\
    Char.re_digit c = false /\ Char.isspace c = false.
Proof.
  destruct es as [|[k v] es]; simpl; eauto.
Qed.

Lemma parses_after_skip {A : Type} (m m' : M A) p a rest :
  m p = m' (skip_whitespace p) ->
  parses m' (skip_whitespace p) a rest -> parses m p a rest.
Proof.
  intros E (p' & E' & T & R). exists p'. rewrite E.
  split; [assumption|]. split; [|assumption].
  now rewrite T, skip_whitespace_text.
Qed.

Section DictLoop.
Variable parse_value : M node.

Lemma parse_dict_loop_end n first acc p :
  at_end p = false -> looking_at "}" (skip_whitespace p) = true ->
  parse_dict_loop parse_value (S n) first acc p =
    Return acc (skip_whitespace p).
Proof. intros H1 H2. cbn [parse_dict_loop]. now rewrite H1, H2. Qed.

Lemma parse_dict_loop_turn n first acc p :
  at_end p = false -> looking_at "}" (skip_whitespace p) = false ->
  parse_dict_loop parse_value (S n) first acc p =
    (run (if first then ret EmptyString else match_ (re_literal ","));
     do key <- parse_identifier;
     run match_ (re_literal "=>");
     do value <- parse_value;
     parse_dict_loop parse_value n false (dict_set acc key value))
      (skip_whitespace p).
Proof. intros H1 H2. cbn [parse_dict_loop]. now rewrite H1, H2. Qed.

Lemma parses_dict_loop es :
  well_formed_entries es ->
  Forall (fun e =>
            forall p rest,
              remaining (skip_whitespace p) = unparse (snd e) +:+ rest ->
              stops Char.re_digit rest ->
              parses parse_value p (denote (snd e)) rest) es ->
  forall n first acc p rest,
    length es < n ->
    remaining p = unparse_entries es first +:+ rest ->
    parses (parse_dict_loop parse_value n first acc) p
      (assign_all (denote_entries es) acc) ("}" +:+ rest).
Proof.
  induction es as [|[k v] es IH]; intros Hwf Hpv n first acc p rest Hn R;
    (destruct n as [|n]; [simpl in Hn; lia|]).
  - simpl in R. exists p. split; [|auto].
    rewrite parse_dict_loop_end.
    + now rewrite skip_whitespace_solid by (now rewrite R).
    + exact (remaining_cons_at_end _ _ _ R).
    + rewrite skip_whitespace_solid by (now rewrite R).
      unfold looking_at. now rewrite (peek_remaining _ _ _ R).
  - destruct Hwf as (Hk & Hv & Hes).
    inversion Hpv as [|? ? Hpv1 Hpv2]; subst. clear Hpv. simpl in Hpv1.
    destruct (token_head _ _ Hk) as (c & k' & -> & Hc & Hk').
    cbn [unparse_entries] in R. rewrite !append_assoc in R.
    assert (exists c0 r0, remaining p = String c0 r0 /\
              Char.isspace c0 = false /\ Ascii.eqb c0 "}" = false)
      as (c0 & r0 & R0 & Hsp & Hbr).
    { destruct first; simpl in R; rewrite R; eexists; eexists;
        (split; [reflexivity|]); split;
        try reflexivity; try now apply re_ident_not_space.
      now apply re_ident_not_brace. }
    assert (skip_whitespace p = p) as Hskip
      by (apply skip_whitespace_solid; now rewrite R0).
    eapply parses_after_skip.
    { apply parse_dict_loop_turn; [exact (remaining_cons_at_end _ _ _ R0)|].
      rewrite Hskip. unfold looking_at.
      now rewrite (peek_remaining _ _ _ R0). }
    rewrite Hskip.
    set (tail := unparse_entries es false +:+ rest) in *.
    apply parses_bind with
      (a := if first then EmptyString else ",")
      (r1 := (if first then EmptyString else " ") +:+ String c k' +:+
             " => " +:+ unparse v +:+ tail).
    { destruct first.
      - apply parses_ret. exact R.
      - apply parses_literal. rewrite skip_whitespace_solid; [exact R|].
        now rewrite R. }
    intros p1 _ R1.
    apply parses_bind with (a := String c k')
      (r1 := " => " +:+ unparse v +:+ tail).
    { apply parses_identifier; [|assumption | reflexivity].
      destruct first; simpl in R1.
      - rewrite skip_whitespace_solid; [exact R1|].
        rewrite R1. now apply re_ident_not_space.
      - apply (skip_whitespace_space _ _ R1). now apply re_ident_not_space. }
    intros p2 _ R2.
    apply parses_bind with (a := "=>") (r1 := " " +:+ unparse v +:+ tail).
    { apply parses_literal. now apply (skip_whitespace_space _ _ R2). }
    intros p3 _ R3.
    apply parses_bind with (a := denote v) (r1 := tail).
    { apply Hpv1.
      - apply (skip_whitespace_space _ _ R3). now apply unparse_solid.
      - unfold tail.
        destruct (unparse_entries_false_head es rest)
          as (c1 & r1 & -> & H1 & _).
        exact H1. }
    intros p4 _ R4.
    apply (IH Hes Hpv2 n false (dict_set acc (String c k') (denote v)) p4 rest).
    + simpl in Hn. lia.
    + exact R4.
Qed.

End DictLoop.

Section LiteralInduction.
Variable P : literal -> Prop.
Hypothesis HNum : forall digits, P (LNum digits).
Hypothesis HStr : forall body, P (LStr body).
Hypothesis HVar : forall name, P (LVar name).
Hypothesis HDict :
  forall entries, Forall (fun e => P (snd e)) entries -> P (LDict entries).

Fixpoint literal_nested_ind (l : literal) : P l :=
  match l with
  | LNum digits => HNum digits
  | LStr body => HStr body
  | LVar name => HVar name
  | LDict entries =>
      HDict entries
        ((fix go (es : list (string * literal))
            : Forall (fun e => P (snd e)) es :=
            match es with
            | [] => @List.Forall_nil _ _
            | (k, v) :: es' =>
                @List.Forall_cons _ (fun e => P (snd e)) (k, v) es'
                  (literal_nested_ind v) (go es')
            end) entries)
  end.
End LiteralInduction.

Lemma parse_value_dispatch fuel p c :
  peek (skip_whitespace p) = Some c ->
  parse_value (S fuel) p =
    (if Char.isdigit c then parse_number
     else if Ascii.eqb c Char.quote then parse_string
     else if Ascii.eqb c "{" then parse_dict (parse_value fuel)
     else if Ascii.eqb c "$" then parse_var
     else error ExpectedValue) (skip_whitespace p).
Proof.
  intros H. cbn [parse_value]. rewrite H.
  destruct (Char.isdigit c); [reflexivity|].
  destruct (Ascii.eqb c Char.quote); [reflexivity|].
  destruct (Ascii.eqb c "{"); [reflexivity|].
  now destruct (Ascii.eqb c "$").
Qed.

Lemma depth_entries_Forall es n :
  depth_entries es < n -> Forall (fun e => depth (snd e) < n) es.
Proof.
  induction es as [|[k v] es IH]; simpl; intros H; constructor.
  - simpl. lia.
  - apply IH. lia.
Qed.

Lemma well_formed_entries_Forall es :
  well_formed_entries es -> Forall (fun e => well_formed (snd e)) es.
Proof.
  induction es as [|[k v] es IH]; simpl; intros H; constructor.
  - apply H.
  - apply IH, H.
Qed.

(** [parse_value] reads a literal of the grammar from its text, and
    returns the node that it stands for. *)
Lemma parse_value_unparse l :
  well_formed l ->
  forall fuel p rest,
    depth l < fuel ->
    remaining (skip_whitespace p) = unparse l +:+ rest ->
    stops Char.re_digit rest ->
    parses (parse_value fuel) p (denote l) rest.
Proof.
  induction l as [digits|body|name|entries IH] using literal_nested_ind;
    intros Hwf fuel p rest Hfuel R Hstop;
    (destruct fuel as [|fuel]; [lia|]).
  - destruct (token_head _ _ Hwf) as (c & s' & E & Hc & Hs').
    simpl in R.
    assert (peek (skip_whitespace p) = Some c) as Hpeek
      by (unfold peek; rewrite R, E; reflexivity).
    eapply parses_after_skip; [apply (parse_value_dispatch _ _ _ Hpeek)|].
    rewrite (re_digit_isdigit _ Hc).
    apply parses_number; [|assumption | assumption].
    now rewrite skip_whitespace_idem.
  - simpl in R. rewrite append_assoc in R. simpl in R.
    assert (peek (skip_whitespace p) = Some Char.quote) as Hpeek
      by (unfold peek; rewrite R; reflexivity).
    eapply parses_after_skip; [apply (parse_value_dispatch _ _ _ Hpeek)|].
    change (Char.isdigit Char.quote) with false. cbv iota.
    change (Ascii.eqb Char.quote Char.quote) with true. cbv iota.
    apply parses_string; [|assumption].
    now rewrite skip_whitespace_idem.
  - simpl in R. rewrite !append_assoc in R.
    assert (peek (skip_whitespace p) = Some "$"%char) as Hpeek
      by (unfold peek; rewrite R; reflexivity).
    eapply parses_after_skip; [apply (parse_value_dispatch _ _ _ Hpeek)|].
    change (Char.isdigit "$") with false. cbv iota.
    change (Ascii.eqb "$" Char.quote) with false. cbv iota.
    change (Ascii.eqb "$" "{") with false. cbv iota.
    change (Ascii.eqb "$" "$") with true. cbv iota.
    apply parses_var; [|assumption].
    now rewrite skip_whitespace_idem.
  - rewrite unparse_LDict in R. rewrite well_formed_LDict in Hwf.
    rewrite depth_LDict in Hfuel. rewrite denote_LDict.
    assert (peek (skip_whitespace p) = Some "{"%char) as Hpeek
      by (unfold peek; rewrite R; reflexivity).
    eapply parses_after_skip; [apply (parse_value_dispatch _ _ _ Hpeek)|].
    change (Char.isdigit "{") with false. cbv iota.
    change (Ascii.eqb "{" Char.quote) with false. cbv iota.
    change (Ascii.eqb "{" "{") with true. cbv iota.
    unfold parse_dict.
    apply parses_bind with (a := "{")
      (r1 := unparse_entries entries true +:+ rest).
    { apply parses_literal. now rewrite skip_whitespace_idem. }
    intros p1 T1 R1.
    apply parses_bind with (a := assign_all (denote_entries entries) [])
      (r1 := "}" +:+ rest).
    { apply parses_dict_loop; [assumption| | |exact R1].
      - apply List.Forall_forall. intros e Hin q rest' Rq Hq.
        rewrite List.Forall_forall in IH.
        assert (Forall (fun e => depth (snd e) < fuel) entries) as D
          by (apply depth_entries_Forall; lia).
        rewrite List.Forall_forall in D.
        pose proof (well_formed_entries_Forall _ Hwf) as W.
        rewrite List.Forall_forall in W.
        exact (IH e Hin (W e Hin) fuel q rest' (D e Hin) Rq Hq).
      - pose proof (unparse_entries_length entries true) as L1.
        pose proof (length_drop (pos p1) (text p1)) as L2.
        unfold remaining in R1. rewrite R1, length_append in L2. lia. }
    intros p2 _ R2.
    apply parses_bind with (a := "}") (r1 := rest).
    { apply parses_literal. rewrite skip_whitespace_solid; [exact R2|].
      now rewrite R2. }
    intros p3 _ R3. now apply parses_ret.
Qed.

Lemma depth_le_length l : depth l <= String.length (unparse l).
Proof.
  induction l as [digits|body|name|entries IH] using literal_nested_ind;
    try (simpl; lia).
  rewrite depth_LDict, unparse_LDict. cbn [String.length].
  apply le_n_S. generalize true as first.
  induction entries as [|[k v] es IHes]; intros first;
    cbn [depth_entries unparse_entries]; [lia|].
  inversion IH as [|? ? IHv IHrest]; subst. simpl in IHv.
  specialize (IHes IHrest false). rewrite !length_append. lia.
Qed.

Lemma re_digit_not_keyword c :
  Char.re_digit c = true ->
  Ascii.eqb "l" c = false /\ Ascii.eqb "q" c = false /\
  Ascii.eqb c "$" = false.
Proof.
  destruct c as [[] [] [] [] [] [] [] []]; vm_compute; intros H;
    repeat split; congruence.
Qed.

Lemma remaining_nil_at_end p : remaining p = EmptyString -> at_end p = true.
Proof.
  unfold remaining, at_end. intros H.
  pose proof (length_drop (pos p) (text p)) as L. rewrite H in L.
  simpl in L. apply Nat.leb_le. lia.
Qed.

Lemma startswith_cons_false a pre c s :
  Ascii.eqb a c = false -> startswith (String a pre) (String c s) = false.
Proof. simpl. now intros ->. Qed.

(** The statement that a bare literal makes is the node it stands for. *)
Lemma parse_statement_unparse l p fuel :
  well_formed l ->
  depth l < fuel ->
  remaining p = unparse l ->
  parses (parse_statement fuel) p (Some (denote l)) EmptyString.
Proof.
  intros Hwf Hfuel R.
  assert (stops Char.isspace (remaining p)) as Hsolid.
  { rewrite R, <- (append_nil_r (unparse l)). now apply unparse_solid. }
  assert (skip_whitespace p = p) as Hskip
    by now apply skip_whitespace_solid.
  assert (exists c r, remaining p = String c r /\
            Text.startswith "let" (remaining p) = false /\
            Text.startswith "q(" (remaining p) = false /\
            (Ascii.eqb c "$" = true -> exists name, l = LVar name) /\
            (Ascii.eqb c "$" = false -> forall name, l <> LVar name))
    as (c & r & Rc & Hlet & Hq & Hvar & Hnovar).
  { rewrite R. destruct l as [digits|body|name|entries];
      [cbn [unparse] | simpl ..].
    - destruct (token_head _ _ Hwf) as (c & s' & -> & Hc & _).
      destruct (re_digit_not_keyword _ Hc) as (H1 & H2 & H3).
      exists c, s'. split; [reflexivity|].
      split; [now apply startswith_cons_false|].
      split; [now apply startswith_cons_false|].
      rewrite H3. split; [discriminate | discriminate].
    - eexists; eexists. repeat split; try discriminate.
    - eexists; eexists. repeat split; eauto; discriminate.
    - eexists; eexists. repeat split; try discriminate. }
  unfold parses, parse_statement. rewrite Hskip.
  rewrite (remaining_cons_at_end _ _ _ Rc), Hlet, Hq.
  unfold bind, parse_expression, looking_at. rewrite Hskip.
  rewrite (peek_remaining _ _ _ Rc).
  destruct (Ascii.eqb c "$") eqn:Hd.
  - destruct (Hvar eq_refl) as [name ->]. simpl in *.
    destruct (parses_var p name EmptyString) as (p' & E & T & R');
      [rewrite Hskip, R; reflexivity | assumption|].
    rewrite E. exists p'. auto.
  - destruct (parse_value_unparse l Hwf fuel p EmptyString Hfuel)
      as (p' & E & T & R');
      [rewrite Hskip, R; now rewrite append_nil_r | exact I|].
    rewrite E. exists p'. auto.
Qed.

(** The program made of one bare literal parses to the node it stands
    for. *)
Lemma parse_all_unparse l :
  well_formed l ->
  exists p,
    parse_all (Parser_init (unparse l)) = Return [denote l] p /\
    text p = unparse l.
Proof.
  intros Hwf. unfold parse_all. cbn [text Parser_init].
  set (p0 := Parser_init (unparse l)).
  assert (remaining p0 = unparse l) as R by reflexivity.
  assert (stops Char.isspace (remaining p0)) as Hsolid.
  { rewrite R, <- (append_nil_r (unparse l)). now apply unparse_solid. }
  assert (exists c r, unparse l = String c r) as (c & r & Hc).
  { destruct l as [digits|body|name|entries]; simpl; eauto.
    destruct (token_head _ _ Hwf) as (c & s' & -> & _). eauto. }
  assert (at_end p0 = false) as Hend.
  { apply (remaining_cons_at_end p0 c r). now rewrite R. }
  destruct (parse_statement_unparse l p0 (S (String.length (unparse l))) Hwf)
    as (p1 & E1 & T1 & R1);
    [pose proof (depth_le_length l); lia | exact R|].
  cbv zeta. cbn [parse_all_loop].
  rewrite Hend, (skip_whitespace_solid p0 Hsolid), Hend.
  unfold bind. rewrite E1. simpl app.
  exists p1. split; [|exact T1].
  destruct (String.length (unparse l)) as [|n] eqn:L;
    [rewrite Hc in L; discriminate|].
  cbn [parse_all_loop]. now rewrite (remaining_nil_at_end _ R1).
Qed.

End Literals.

Lemma keys_denote_entries es : map fst (denote_entries es) = map fst es.
Proof.
  induction es as [|[k v] es IH]; simpl; [reflexivity | now rewrite IH].
Qed.

(** ** Lines and columns *)

Section InStep.
Import Text TextFacts.

Lemma take_add n k s : take (n + k) s = take n s +:+ take k (drop n s).
Proof.
  revert s; induction n as [|n IH]; intros s; simpl; [reflexivity|].
  destruct s as [|c s]; simpl.
  - now destruct k.
  - now rewrite IH.
Qed.

Lemma count_append c (a b : string) : count c (a +:+ b) = count c a + count c b.
Proof. induction a as [|x a IH]; simpl; [reflexivity | rewrite IH; lia]. Qed.

Lemma after_last_append c (a b : string) :
  after_last c (a +:+ b) =
    if count c b =? 0 then after_last c a +:+ b else after_last c b.
Proof.
  induction a as [|x a IH]; simpl.
  - destruct (count c b =? 0) eqn:E; [|reflexivity].
    apply Nat.eqb_eq in E. clear -E.
    induction b as [|y b IH]; simpl in *; [reflexivity|].
    destruct (Ascii.eqb y c); [discriminate|]. simpl in E.
    apply Nat.eqb_eq in E as E'. now rewrite E'.
  - rewrite count_append, IH.
    destruct (count c b =? 0) eqn:Eb.
    + apply Nat.eqb_eq in Eb. rewrite Eb, Nat.add_0_r.
      destruct (count c a =? 0); [|reflexivity].
      now destruct (Ascii.eqb x c).
    + apply Nat.eqb_neq in Eb.
      destruct (count c a + count c b =? 0) eqn:E; [|reflexivity].
      apply Nat.eqb_eq in E. lia.
Qed.

Lemma count_all_zero f c (s : string) :
  f c = false -> all f s = true -> count c s = 0.
Proof.
  intros Hc. induction s as [|x s IH]; simpl; [reflexivity|].
  intros H. apply andb_prop in H as [Hx Hs].
  destruct (Ascii.eqb x c) eqn:E; [|now apply IH].
  apply Ascii.eqb_eq in E. congruence.
Qed.

Lemma count_drop c n (s : string) : count c (drop n s) <= count c s.
Proof.
  revert s; induction n as [|n IH]; intros s; simpl; [lia|].
  destruct s as [|x s]; simpl; [lia|]. specialize (IH s). lia.
Qed.

(** Moving over [ws] as [skip_whitespace] counts it keeps the parser in
    step. *)
Lemma in_step_advance p (ws rest : string) :
  in_step p -> remaining p = ws +:+ rest ->
  in_step (mkParser (text p) (pos p + String.length ws)
             (line p + count Char.newline ws) (col_after ws (col p))).
Proof.
  unfold in_step, line_col_at, remaining. cbn [text pos line col].
  intros H R. inversion H as [[Hl Hc]].
  rewrite take_add, R, take_app_length, count_append, after_last_append.
  unfold col_after. rewrite Hl, Hc.
  destruct (count Char.newline ws =? 0).
  - rewrite length_append. f_equal; lia.
  - f_equal; lia.
Qed.

Lemma in_step_skip_whitespace p : in_step p -> in_step (skip_whitespace p).
Proof.
  intros H. rewrite skip_whitespace_spec.
  apply in_step_advance with
    (rest := drop (String.length (span Char.isspace (remaining p)))
               (remaining p)); [assumption | apply span_app].
Qed.

Lemma re_match_prefix pat s token :
  re_match pat s = Some token ->
  s = token +:+ drop (String.length token) s.
Proof.
  destruct pat as [| |l]; simpl.
  - destruct (span Char.re_digit s) eqn:E; [discriminate|].
    intros H; inversion H; subst. rewrite <- E. apply span_app.
  - destruct (span Char.re_ident s) eqn:E; [discriminate|].
    intros H; inversion H; subst. rewrite <- E. apply span_app.
  - destruct (startswith l s) eqn:E; [|discriminate].
    intros H; inversion H; subst. now apply startswith_app.
Qed.

Lemma re_match_one_line pat s token :
  one_line pat -> re_match pat s = Some token ->
  count Char.newline token = 0.
Proof.
  destruct pat as [| |l]; simpl.
  - intros _. destruct (span Char.re_digit s) eqn:E; [discriminate|].
    intros H; inversion H; subst. rewrite <- E.
    apply (count_all_zero Char.re_digit); [reflexivity | apply span_all].
  - intros _. destruct (span Char.re_ident s) eqn:E; [discriminate|].
    intros H; inversion H; subst. rewrite <- E.
    apply (count_all_zero Char.re_ident); [reflexivity | apply span_all].
  - intros Hl. destruct (startswith l s); [|discriminate].
    intros H; inversion H; subst. assumption.
Qed.

Lemma peek_in_text p c : peek p = Some c -> 0 < count c (text p).
Proof.
  unfold peek, remaining. intros H.
  pose proof (count_drop c (pos p) (text p)) as L.
  destruct (drop (pos p) (text p)) as [|x r]; [discriminate|].
  simpl in H. inversion H; subst x. simpl in L.
  rewrite Ascii.eqb_refl in L. lia.
Qed.

Section Steady.
Variable content : string.
Hypothesis no_quote : count Char.quote content = 0.

Lemma steady_ret {A : Type} (a : A) : steady content (ret a).
Proof. intros p H. exact H. Qed.

Lemma steady_error {A : Type} msg : steady content (@error A msg).
Proof. intros p H. simpl. split; [exact H | now exists msg]. Qed.

Lemma steady_bind {A B : Type} (m : M A) (k : A -> M B) :
  steady content m -> (forall a, steady content (k a)) ->
  steady content (bind m k).
Proof.
  intros Hm Hk p H. unfold bind. specialize (Hm p H).
  destruct (m p) as [a p'|e p'|]; [|assumption | exact I].
  apply (Hk a p' Hm).
Qed.

Lemma steady_state_skip_whitespace p :
  steady_state content p -> steady_state content (skip_whitespace p).
Proof.
  intros [H1 H2]. split; [|now apply in_step_skip_whitespace].
  now rewrite skip_whitespace_text.
Qed.

Lemma steady_match pat : one_line pat -> steady content (match_ pat).
Proof.
  intros Hpat p H. apply steady_state_skip_whitespace in H.
  unfold match_, error.
  destruct (re_match pat (remaining (skip_whitespace p))) as [token|] eqn:E.
  - destruct H as [H1 H2]. split; [assumption|].
    pose proof (re_match_one_line _ _ _ Hpat E) as Hn.
    pose proof (in_step_advance _ token _ H2 (re_match_prefix _ _ _ E)) as K.
    unfold col_after in K. rewrite Hn, Nat.add_0_r in K. exact K.
  - split; [assumption | eauto].
Qed.

Lemma steady_parse_number : steady content parse_number.
Proof.
  apply steady_bind; [now apply steady_match | intros; apply steady_ret].
Qed.

Lemma steady_parse_identifier : steady content parse_identifier.
Proof. now apply steady_match. Qed.

Lemma steady_parse_var : steady content parse_var.
Proof.
  apply steady_bind; [now apply steady_match | intros _].
  apply steady_bind; [now apply steady_match | intros _].
  apply steady_bind; [apply steady_parse_identifier | intros name].
  apply steady_bind; [now apply steady_match | intros _].
  apply steady_ret.
Qed.

Lemma steady_parse_dict_loop parse_value n :
  steady content parse_value ->
  forall first result,
    steady content (parse_dict_loop parse_value n first result).
Proof.
  intros Hpv. induction n as [|n IH]; intros first result p H; simpl;
    [exact I|].
  destruct (at_end p); [exact H|].
  apply steady_state_skip_whitespace in H.
  destruct (looking_at _ _); [exact H|].
  revert H. generalize (skip_whitespace p). apply steady_bind.
  { destruct first; [apply steady_ret | now apply steady_match]. }
  intros _. apply steady_bind; [apply steady_parse_identifier | intros key].
  apply steady_bind; [now apply steady_match | intros _].
  apply steady_bind; [exact Hpv | intros value]. apply IH.
Qed.

Lemma steady_parse_value fuel : steady content (parse_value fuel).
Proof.
  induction fuel as [|fuel IH]; intros p H; simpl; [exact I|].
  apply steady_state_skip_whitespace in H.
  destruct (peek (skip_whitespace p)) as [c|] eqn:Hp;
    [|now apply steady_error].
  destruct (Char.isdigit c); [now apply steady_parse_number|].
  destruct (Ascii.eqb c Char.quote) eqn:Hq.
  { apply Ascii.eqb_eq in Hq; subst c. apply peek_in_text in Hp.
    destruct H as [H _]. rewrite skip_whitespace_text in *.
    rewrite H in Hp. lia. }
  destruct (Ascii.eqb c "{").
  { revert H. generalize (skip_whitespace p).
    apply steady_bind; [now apply steady_match | intros _].
    apply steady_bind.
    - intros q Hq'. now apply steady_parse_dict_loop.
    - intros result.
      apply steady_bind; [now apply steady_match | intros _].
      apply steady_ret. }
  destruct (Ascii.eqb c "$"); [now apply steady_parse_var|].
  now apply steady_error.
Qed.

Lemma steady_parse_let fuel : steady content (parse_let fuel).
Proof.
  apply steady_bind; [now apply steady_match | intros _].
  apply steady_bind; [apply steady_parse_identifier | intros name].
  apply steady_bind; [now apply steady_match | intros _].
  apply steady_bind; [apply steady_parse_value | intros value].
  apply steady_ret.
Qed.

Lemma steady_parse_q fuel : steady content (parse_q fuel).
Proof.
  apply steady_bind; [now apply steady_match | intros _].
  apply steady_bind; [apply steady_parse_value | intros value].
  apply steady_bind; [now apply steady_match | intros _].
  apply steady_ret.
Qed.

Lemma steady_parse_expression fuel : steady content (parse_expression fuel).
Proof.
  intros p H. unfold parse_expression.
  apply steady_state_skip_whitespace in H.
  destruct (looking_at _ _);
    [now apply steady_parse_var | now apply steady_parse_value].
Qed.

Lemma steady_parse_statement fuel : steady content (parse_statement fuel).
Proof.
  intros p H. unfold parse_statement.
  apply steady_state_skip_whitespace in H.
  destruct (at_end _); [exact H|].
  destruct (startswith "let" _); [|destruct (startswith "q(" _)];
    (apply steady_bind; [|intros; apply steady_ret | exact H]).
  - apply steady_parse_let.
  - apply steady_parse_q.
  - apply steady_parse_expression.
Qed.

Lemma steady_parse_all_loop fuel n :
  forall statements, steady content (parse_all_loop fuel n statements).
Proof.
  induction n as [|n IH]; intros statements p H; simpl; [exact I|].
  destruct (at_end p); [exact H|].
  apply steady_state_skip_whitespace in H.
  destruct (at_end _); [exact H|].
  revert H. generalize (skip_whitespace p). apply steady_bind.
  - apply steady_parse_statement.
  - intros [stmt|]; [apply IH | apply steady_ret].
Qed.

Lemma steady_state_init : steady_state content (Parser_init content).
Proof. split; reflexivity. Qed.

End Steady.

End InStep.

Section Positioned.

Lemma bind_Raise {A B : Type} (m : M A) (k : A -> M B) p e p'' :
  bind m k p = Raise e p'' ->
  m p = Raise e p'' \/ exists a p', m p = Return a p' /\ k a p' = Raise e p''.
Proof.
  unfold bind. destruct (m p) as [a p'|e' p'|]; try discriminate.
  - intros H. right. now exists a, p'.
  - intros H. left. inversion H; subst. reflexivity.
Qed.

Lemma positioned_bind {A B : Type} (m : M A) (k : A -> M B) :
  positioned m -> (forall a, positioned (k a)) -> positioned (bind m k).
Proof.
  intros Hm Hk p e p'' E. apply bind_Raise in E as [E | (a & p' & _ & E)].
  - exact (Hm _ _ _ E).
  - exact (Hk a _ _ _ E).
Qed.

Lemma positioned_ret {A : Type} (a : A) : positioned (ret a).
Proof. intros p e p' E. inversion E. Qed.

Lemma positioned_error {A : Type} msg : positioned (@error A msg).
Proof. intros p e p' E. inversion E; subst. now exists msg. Qed.

Lemma positioned_match pat : positioned (match_ pat).
Proof.
  intros p e p' E. apply match_Raise in E as (_ & _ & ->). eauto.
Qed.

Lemma positioned_parse_string : positioned parse_string.
Proof.
  apply positioned_bind; [apply positioned_match | intros _ p].
  cbv beta zeta. destruct (peek _) as [c|]; [|apply positioned_error].
  destruct (Ascii.eqb c Char.quote); [|apply positioned_error].
  apply positioned_bind; [apply positioned_match|].
  intros; apply positioned_ret.
Qed.

Lemma positioned_parse_var : positioned parse_var.
Proof.
  repeat (apply positioned_bind; [apply positioned_match | intros]).
  apply positioned_ret.
Qed.

Lemma positioned_parse_number : positioned parse_number.
Proof.
  apply positioned_bind; [apply positioned_match|].
  intros; apply positioned_ret.
Qed.

Lemma positioned_parse_dict_loop parse_value n :
  positioned parse_value ->
  forall first result,
    positioned (parse_dict_loop parse_value n first result).
Proof.
  intros Hpv. induction n as [|n IH]; intros first result p; simpl;
    [discriminate|].
  destruct (at_end p); [discriminate|].
  destruct (looking_at _ _); [discriminate|].
  apply positioned_bind.
  { destruct first; [apply positioned_ret | apply positioned_match]. }
  intros _. apply positioned_bind; [apply positioned_match | intros key].
  apply positioned_bind; [apply positioned_match | intros _].
  apply positioned_bind; [exact Hpv | intros value]. apply IH.
Qed.

Lemma positioned_parse_value fuel : positioned (parse_value fuel).
Proof.
  induction fuel as [|fuel IH]; intros p; simpl; [discriminate|].
  destruct (peek (skip_whitespace p)) as [c|]; [|apply positioned_error].
  destruct (Char.isdigit c); [apply positioned_parse_number|].
  destruct (Ascii.eqb c Char.quote); [apply positioned_parse_string|].
  destruct (Ascii.eqb c "{").
  { apply positioned_bind; [apply positioned_match | intros _].
    apply positioned_bind.
    - intros q. now apply positioned_parse_dict_loop.
    - intros result.
      apply positioned_bind; [apply positioned_match | intros _].
      apply positioned_ret. }
  destruct (Ascii.eqb c "$"); [apply positioned_parse_var|].
  apply positioned_error.
Qed.

Lemma positioned_parse_statement fuel : positioned (parse_statement fuel).
Proof.
  intros p. unfold parse_statement.
  destruct (at_end _); [discriminate|].
  destruct (Text.startswith "let" _); [|destruct (Text.startswith "q(" _)];
    (apply positioned_bind; [|intros; apply positioned_ret]).
  - apply positioned_bind; [apply positioned_match | intros _].
    apply positioned_bind; [apply positioned_match | intros name].
    apply positioned_bind; [apply positioned_match | intros _].
    apply positioned_bind; [apply positioned_parse_value | intros value].
    apply positioned_ret.
  - apply positioned_bind; [apply positioned_match | intros _].
    apply positioned_bind; [apply positioned_parse_value | intros value].
    apply positioned_bind; [apply positioned_match | intros _].
    apply positioned_ret.
  - intros q. unfold parse_expression.
    destruct (looking_at _ _);
      [apply positioned_parse_var | apply positioned_parse_value].
Qed.

Lemma positioned_parse_all_loop fuel n :
  forall statements, positioned (parse_all_loop fuel n statements).
Proof.
  induction n as [|n IH]; intros statements p; simpl; [discriminate|].
  destruct (at_end p); [discriminate|].
  destruct (at_end _); [discriminate|].
  apply positioned_bind; [apply positioned_parse_statement|].
  intros [stmt|]; [apply IH | apply positioned_ret].
Qed.

End Positioned.

(** ** What the parser builds, the interpreter accepts *)

Section WellFormed.

Lemma is_value_Dict d : is_value (Dict d) = true <-> all_values d.
Proof.
  unfold all_values. simpl. induction d as [|[k v] d IH].
  - split; [constructor | reflexivity].
  - rewrite andb_true_iff, IH. split.
    + intros [H1 H2]. now constructor.
    + intros H. inversion H; subst. now split.
Qed.

Lemma all_values_dict_set d k v :
  all_values d -> is_value v = true -> all_values (dict_set d k v).
Proof.
  intros Hd Hv. induction Hd as [|[k' v'] d Hx Hd IH]; simpl.
  - repeat constructor. exact Hv.
  - destruct (String.eqb k' k); constructor; assumption.
Qed.

Lemma yields_parse_dict_loop parse_value n :
  yields (fun v => is_value v = true) parse_value ->
  forall first result,
    all_values result ->
    yields all_values (parse_dict_loop parse_value n first result).
Proof.
  intros Hpv. induction n as [|n IH]; intros first result Hr p a p' E;
    simpl in E; [discriminate|].
  destruct (at_end p); [inversion E; now subst|].
  destruct (looking_at _ _); [inversion E; now subst|].
  apply bind_Return in E as (x & p1 & _ & E).
  apply bind_Return in E as (key & p2 & _ & E).
  apply bind_Return in E as (y & p3 & _ & E).
  apply bind_Return in E as (value & p4 & E4 & E).
  apply Hpv in E4. apply IH in E; [assumption|].
  now apply all_values_dict_set.
Qed.

Lemma yields_parse_var : yields (fun v => is_value v = true) parse_var.
Proof.
  intros p a p' E. unfold parse_var in E.
  apply bind_Return in E as (x & p1 & _ & E).
  apply bind_Return in E as (y & p2 & _ & E).
  apply bind_Return in E as (name & p3 & _ & E).
  apply bind_Return in E as (z & p4 & _ & E).
  inversion E; subst. reflexivity.
Qed.

Lemma yields_parse_string : yields (fun v => is_value v = true) parse_string.
Proof.
  intros p a p' E. unfold parse_string in E.
  apply bind_Return in E as (x & p1 & _ & E). cbv beta zeta in E.
  destruct (peek _) as [c|]; [|discriminate].
  destruct (Ascii.eqb c Char.quote); [|discriminate].
  apply bind_Return in E as (y & p2 & _ & E).
  inversion E; subst. reflexivity.
Qed.

Lemma yields_parse_number : yields (fun v => is_value v = true) parse_number.
Proof.
  intros p a p' E. unfold parse_number in E.
  apply bind_Return in E as (x & p1 & _ & E).
  inversion E; subst. reflexivity.
Qed.

Lemma yields_parse_value fuel :
  yields (fun v => is_value v = true) (parse_value fuel).
Proof.
  induction fuel as [|fuel IH]; intros p a p' E; simpl in E; [discriminate|].
  destruct (peek (skip_whitespace p)) as [c|]; [|discriminate].
  destruct (Char.isdigit c); [exact (yields_parse_number _ _ _ E)|].
  destruct (Ascii.eqb c Char.quote); [exact (yields_parse_string _ _ _ E)|].
  destruct (Ascii.eqb c "{").
  { unfold parse_dict in E.
    apply bind_Return in E as (x & p1 & _ & E).
    apply bind_Return in E as (result & p2 & E2 & E).
    apply bind_Return in E as (y & p3 & _ & E).
    inversion E; subst. apply is_value_Dict.
    apply yields_parse_dict_loop in E2; [assumption | assumption|].
    constructor. }
  destruct (Ascii.eqb c "$"); [exact (yields_parse_var _ _ _ E)|].
  discriminate.
Qed.

Lemma is_value_is_statement ast :
  is_value ast = true -> is_statement ast = true.
Proof.
  destruct ast as [n|s|items|tag args]; try (intros H; exact H).
  intros H. unfold is_statement. simpl in H.
  apply andb_prop in H as [Ht Ha]. apply String.eqb_eq in Ht; subst tag.
  simpl. exact Ha.
Qed.

Lemma yields_parse_statement fuel :
  yields (fun stmt => forall s, stmt = Some s -> is_statement s = true)
    (parse_statement fuel).
Proof.
  intros p a p' E s ->. unfold parse_statement in E.
  destruct (at_end _); [discriminate|].
  destruct (Text.startswith "let" _); [|destruct (Text.startswith "q(" _)];
    apply bind_Return in E as (stmt & p1 & E1 & E); inversion E; subst.
  - unfold parse_let in E1.
    apply bind_Return in E1 as (x & p2 & _ & E1).
    apply bind_Return in E1 as (name & p3 & _ & E1).
    apply bind_Return in E1 as (y & p4 & _ & E1).
    apply bind_Return in E1 as (value & p5 & E5 & E1).
    inversion E1; subst. apply yields_parse_value in E5. exact E5.
  - unfold parse_q in E1.
    apply bind_Return in E1 as (x & p2 & _ & E1).
    apply bind_Return in E1 as (expr & p3 & E3 & E1).
    apply bind_Return in E1 as (y & p4 & _ & E1).
    inversion E1; subst. apply yields_parse_value in E3. exact E3.
  - unfold parse_expression in E1. apply is_value_is_statement.
    destruct (looking_at _ _).
    + now apply yields_parse_var in E1.
    + now apply yields_parse_value in E1.
Qed.

Lemma yields_parse_all_loop fuel n :
  forall statements,
    Forall (fun s => is_statement s = true) statements ->
    yields (Forall (fun s => is_statement s = true))
      (parse_all_loop fuel n statements).
Proof.
  induction n as [|n IH]; intros statements Hs p a p' E; simpl in E;
    [discriminate|].
  destruct (at_end p); [inversion E; now subst|].
  destruct (at_end _); [inversion E; now subst|].
  apply bind_Return in E as (stmt & p1 & E1 & E).
  destruct stmt as [stmt|]; [|inversion E; now subst].
  apply IH in E; [assumption|].
  apply List.Forall_app. split; [assumption|].
  constructor; [|constructor].
  exact (yields_parse_statement _ _ _ _ E1 stmt eq_refl).
Qed.

(** Resolving a value raises no other exception than the program's. *)
Lemma _eval_value_no_crash vars value :
  is_value value = true -> _eval_value vars value <> Crashes.
Proof.
  induction value as [n|s|items IH|tag args IH] using node_nested_ind;
    intros Hv; try discriminate.
  - apply is_value_Dict in Hv. simpl.
    generalize (@nil (string * node)) as acc.
    induction items as [|[k v] items IHitems]; intros acc; [discriminate|].
    inversion IH as [|? ? IHv IHrest]; subst.
    inversion Hv as [|? ? Hv1 Hv2]; subst. simpl in *.
    specialize (IHv Hv1).
    destruct (_eval_value vars v); [|discriminate | contradiction].
    now apply IHitems.
  - simpl in *. apply andb_prop in Hv as [Ht Ha]. rewrite Ht.
    destruct args as [|[| name | |] [|]]; try discriminate.
    simpl. destruct (vars !! name); discriminate.
Qed.

Lemma evaluate_no_crash self stmt :
  is_statement stmt = true -> evaluate self stmt <> Crashes.
Proof.
  unfold is_statement. intros H.
  destruct stmt as [n|s|items|tag args]; try discriminate.
  simpl evaluate.
  destruct (String.eqb tag "let").
  { destruct args as [|[| name | |] [|value [|]]]; try discriminate.
    pose proof (_eval_value_no_crash (variables self) value H).
    destruct (_eval_value _ value); [discriminate | discriminate|].
    contradiction. }
  destruct (String.eqb tag "q").
  { destruct args as [|expr [|]]; try discriminate.
    pose proof (_eval_value_no_crash (variables self) expr H).
    destruct (_eval_value _ expr); [discriminate | discriminate|].
    contradiction. }
  simpl in H. apply andb_prop in H as [Ht Ha]. rewrite Ht.
  destruct args as [|[| name | |] [|]]; try discriminate.
  simpl. destruct (variables self !! name); discriminate.
Qed.

Lemma main_loop_no_traceback stmts :
  Forall (fun s => is_statement s = true) stmts ->
  forall self, status (main_loop self stmts) <> Traceback.
Proof.
  induction 1 as [|stmt stmts Hs _ IH]; intros self; simpl; [discriminate|].
  pose proof (evaluate_no_crash self stmt Hs).
  destruct (evaluate self stmt) as [[v self1]| |];
    [apply IH | discriminate | contradiction].
Qed.

(** A run of the program ends by returning or by a
    [ConfigLanguageError]: the interpreter accepts every statement that
    the parser builds. *)
Theorem main_no_traceback content out :
  main content = Some out -> status out <> Traceback.
Proof.
  unfold main, parse_all.
  destruct (parse_all_loop _ _ _ _) as [ast p|e p|] eqn:E;
    intros H; inversion H; subst; [|discriminate].
  apply main_loop_no_traceback.
  exact (yields_parse_all_loop _ _ [] (Forall_nil_2 _) _ _ _ E).
Qed.

End WellFormed.

(** ** The parser stays within the text *)

Section Within.
Import Text TextFacts.

Lemma keeps_ret (Inv : Parser -> Prop) {A : Type} (a : A) :
  keeps Inv (ret a).
Proof. intros p H. simpl. auto. Qed.

Lemma keeps_error (Inv : Parser -> Prop) {A : Type} msg :
  keeps Inv (@error A msg).
Proof. intros p H. simpl. auto. Qed.

Lemma keeps_bind (Inv : Parser -> Prop) {A B : Type} (m : M A)
    (k : A -> M B) :
  keeps Inv m -> (forall a, keeps Inv (k a)) -> keeps Inv (bind m k).
Proof.
  intros Hm Hk p H. unfold bind. specialize (Hm p H).
  destruct (m p) as [a p1|e p1|]; [|assumption | exact I].
  destruct Hm as [T1 H1]. specialize (Hk a p1 H1).
  destruct (k a p1) as [b p2|e p2|]; [| |exact I];
    (split; [destruct Hk; congruence | apply Hk]).
Qed.

Lemma count_take_le c n k (s : string) :
  count c (take n s) <= count c (take (n + k) s).
Proof. rewrite take_add, count_append. lia. Qed.

(** Moving forward on the same line keeps the parser within its text. *)
Lemma within_forward p n k :
  within p -> pos p + n <= String.length (text p) -> k <= n ->
  within (mkParser (text p) (pos p + n) (line p) (col p + k)).
Proof.
  intros (H1 & H2 & H3 & H4 & H5) Hn Hk. unfold within. cbn [pos text line col].
  pose proof (count_take_le Char.newline (pos p) n (text p)). lia.
Qed.

Lemma remaining_prefix_length p (s1 s2 : string) :
  within p -> remaining p = s1 +:+ s2 ->
  pos p + String.length s1 <= String.length (text p).
Proof.
  intros (H1 & _) R. pose proof (length_drop (pos p) (text p)) as L.
  unfold remaining in R. rewrite R, length_append in L. lia.
Qed.

Lemma within_skip_whitespace p : within p -> within (skip_whitespace p).
Proof.
  intros H. pose proof H as (H1 & H2 & H3 & H4 & H5).
  rewrite skip_whitespace_spec. cbv zeta.
  set (ws := span Char.isspace (remaining p)).
  pose proof (span_app Char.isspace (remaining p)) as R. fold ws in R.
  pose proof (remaining_prefix_length p _ _ H R) as L.
  unfold within. cbn [pos text line col].
  assert (take (pos p + String.length ws) (text p) =
          take (pos p) (text p) +:+ ws) as ->.
  { rewrite take_add. f_equal. fold (remaining p). rewrite R.
    apply take_app_length. }
  rewrite count_append. unfold col_after.
  destruct (count Char.newline ws =? 0) eqn:E.
  - apply Nat.eqb_eq in E. lia.
  - assert (String.length (after_last Char.newline ws) <= String.length ws).
    { clear. induction ws as [|a s IH]; simpl; [lia|].
      destruct (count Char.newline s =? 0); [|lia].
      destruct (Ascii.eqb a Char.newline); simpl; lia. }
    apply Nat.eqb_neq in E. lia.
Qed.

Lemma keeps_match pat : keeps within (match_ pat).
Proof.
  intros p H. unfold match_.
  pose proof (within_skip_whitespace p H) as H0.
  destruct (re_match pat (remaining (skip_whitespace p))) as [token|] eqn:E.
  - split; [apply skip_whitespace_text|].
    apply re_match_prefix in E.
    apply within_forward; [assumption | | lia].
    exact (remaining_prefix_length _ _ _ H0 E).
  - simpl. split; [apply skip_whitespace_text | assumption].
Qed.

Lemma keeps_parse_number : keeps within parse_number.
Proof.
  apply keeps_bind; [apply keeps_match | intros; apply keeps_ret].
Qed.

Lemma keeps_parse_var : keeps within parse_var.
Proof.
  repeat (apply keeps_bind; [apply keeps_match | intros]).
  apply keeps_ret.
Qed.

Lemma keeps_parse_string : keeps within parse_string.
Proof.
  apply keeps_bind; [apply keeps_match | intros _ p H].
  cbv beta zeta.
  set (p1 := mkParser (text p) (parse_string_loop (remaining p) (pos p))
               (line p) (col p)).
  assert (text p1 = text p /\ within p1) as [T1 H1].
  { split; [reflexivity|].
    destruct (parse_string_loop_bounds (remaining p) (pos p)) as [B1 B2].
    pose proof H as (L & _).
    unfold remaining in B2 at 2. rewrite length_drop in B2.
    pose proof (within_forward p
                  (parse_string_loop (remaining p) (pos p) - pos p) 0 H)
      as W.
    replace (pos p + (parse_string_loop (remaining p) (pos p) - pos p))
      with (parse_string_loop (remaining p) (pos p)) in W by lia.
    replace (col p + 0) with (col p) in W by lia.
    apply W; lia. }
  destruct (peek p1) as [c|]; [|now split].
  destruct (Ascii.eqb c Char.quote); [|now split].
  pose proof (keeps_bind within (match_ re_quote)
                (fun _ => ret (Str (slice (text p1) (pos p) (pos p1))))
                (keeps_match _) (fun _ => keeps_ret _ _) p1 H1) as K.
  destruct (bind _ _ p1); [| |exact I]; now rewrite <- T1.
Qed.

Lemma keeps_parse_dict_loop parse_value n :
  keeps within parse_value ->
  forall first result,
    keeps within (parse_dict_loop parse_value n first result).
Proof.
  intros Hpv. induction n as [|n IH]; intros first result p H; simpl;
    [exact I|].
  destruct (at_end p); [now split|].
  pose proof (within_skip_whitespace p H) as H0.
  destruct (looking_at _ _);
    [split; [apply skip_whitespace_text | assumption]|].
  assert (keeps within
            (run (if first then ret EmptyString else match_ (re_literal ","));
             do key <- parse_identifier;
             run match_ (re_literal "=>");
             do value <- parse_value;
             parse_dict_loop parse_value n false (dict_set result key value)))
    as K.
  { apply keeps_bind.
    { destruct first; [apply keeps_ret | apply keeps_match]. }
    intros _. apply keeps_bind; [apply keeps_match | intros key].
    apply keeps_bind; [apply keeps_match | intros _].
    apply keeps_bind; [exact Hpv | intros value]. apply IH. }
  specialize (K _ H0). rewrite skip_whitespace_text in K. exact K.
Qed.

Lemma keeps_after_skip {A : Type} (m m' : M A) p :
  keeps within m' -> within p -> m p = m' (skip_whitespace p) ->
  match m p with
  | Return _ p' => text p' = text p /\ within p'
  | Raise _ p' => text p' = text p /\ within p'
  | OutOfFuel => True
  end.
Proof.
  intros K H E. rewrite E.
  specialize (K _ (within_skip_whitespace p H)).
  now rewrite skip_whitespace_text in K.
Qed.

Lemma keeps_parse_value fuel : keeps within (parse_value fuel).
Proof.
  induction fuel as [|fuel IH]; intros p H; [exact I|].
  destruct (peek (skip_whitespace p)) as [c|] eqn:Hp.
  - eapply keeps_after_skip;
      [|assumption | apply (parse_value_dispatch _ _ _ Hp)].
    destruct (Char.isdigit c); [apply keeps_parse_number|].
    destruct (Ascii.eqb c Char.quote); [apply keeps_parse_string|].
    destruct (Ascii.eqb c "{").
    { apply keeps_bind; [apply keeps_match | intros _].
      apply keeps_bind.
      - intros q. now apply keeps_parse_dict_loop.
      - intros result.
        apply keeps_bind; [apply keeps_match | intros _]. apply keeps_ret. }
    destruct (Ascii.eqb c "$"); [apply keeps_parse_var | apply keeps_error].
  - cbn [parse_value]. rewrite Hp. simpl.
    split; [apply skip_whitespace_text | now apply within_skip_whitespace].
Qed.

Lemma keeps_parse_statement fuel : keeps within (parse_statement fuel).
Proof.
  intros p H. unfold parse_statement.
  pose proof (within_skip_whitespace p H) as H0.
  destruct (at_end _); [split; [apply skip_whitespace_text | assumption]|].
  assert (forall m : M (option node),
            keeps within m ->
            match m (skip_whitespace p) with
            | Return _ p' => text p' = text p /\ within p'
            | Raise _ p' => text p' = text p /\ within p'
            | OutOfFuel => True
            end) as K.
  { intros m Hm. specialize (Hm _ H0).
    now rewrite skip_whitespace_text in Hm. }
  destruct (Text.startswith "let" _); [|destruct (Text.startswith "q(" _)];
    apply K; (apply keeps_bind; [|intros; apply keeps_ret]).
  - apply keeps_bind; [apply keeps_match | intros _].
    apply keeps_bind; [apply keeps_match | intros name].
    apply keeps_bind; [apply keeps_match | intros _].
    apply keeps_bind; [apply keeps_parse_value | intros value].
    apply keeps_ret.
  - apply keeps_bind; [apply keeps_match | intros _].
    apply keeps_bind; [apply keeps_parse_value | intros value].
    apply keeps_bind; [apply keeps_match | intros _].
    apply keeps_ret.
  - intros q Hq. unfold parse_expression.
    pose proof (within_skip_whitespace q Hq) as Hq0.
    destruct (looking_at _ _).
    + pose proof (keeps_parse_var _ Hq0) as K1.
      now rewrite skip_whitespace_text in K1.
    + pose proof (keeps_parse_value fuel _ Hq0) as K1.
      now rewrite skip_whitespace_text in K1.
Qed.

Lemma keeps_parse_all_loop fuel n :
  forall statements, keeps within (parse_all_loop fuel n statements).
Proof.
  induction n as [|n IH]; intros statements p H; simpl; [exact I|].
  destruct (at_end p); [now split|].
  pose proof (within_skip_whitespace p H) as H0.
  destruct (at_end _); [split; [apply skip_whitespace_text | assumption]|].
  assert (keeps within
            (do stmt <- parse_statement fuel;
             match stmt with
             | None => ret statements
             | Some stmt => parse_all_loop fuel n (statements ++ [stmt])
             end)) as K.
  { apply keeps_bind; [apply keeps_parse_statement|].
    intros [stmt|]; [apply IH | apply keeps_ret]. }
  specialize (K _ H0). now rewrite skip_whitespace_text in K.
Qed.

Lemma within_init content : within (Parser_init content).
Proof. unfold within. simpl. lia. Qed.

(** When the loop of [parse_all] returns, the parser is at the end of the
    text. *)
Lemma parse_all_loop_at_end fuel n :
  forall statements p ast p',
    parse_all_loop fuel n statements p = Return ast p' -> at_end p' = true.
Proof.
  induction n as [|n IH]; intros statements p ast p' E; simpl in E;
    [discriminate|].
  destruct (at_end p) eqn:E1; [inversion E; now subst|].
  destruct (at_end (skip_whitespace p)) eqn:E2; [inversion E; now subst|].
  apply bind_Return in E as (stmt & p1 & Es & E).
  destruct stmt as [stmt|]; [exact (IH _ _ _ _ E)|].
  inversion E; subst. unfold parse_statement in Es.
  destruct (at_end (skip_whitespace (skip_whitespace p))) eqn:E3;
    [inversion Es; now subst|].
  destruct (Text.startswith "let" _); [|destruct (Text.startswith "q(" _)];
    apply bind_Return in Es as (s & p2 & _ & Es); inversion Es.
Qed.

End Within.

(** ** What the parser builds is of the grammar *)

Section Grammar.
Import Text TextFacts.

Lemma grammatical_Dict d :
  grammatical (Dict d) <-> NoDup (map fst d) /\ grammatical_items d.
Proof.
  unfold grammatical_items. cbn [grammatical].
  apply and_iff_compat_l. induction d as [|[k v] d IH].
  - split; [constructor | reflexivity].
  - rewrite IH. split.
    + intros (H1 & H2 & H3). now constructor.
    + intros H. inversion H as [|? ? [H1 H2] H3]; subst. auto.
Qed.

Lemma grammatical_items_dict_set d k v :
  grammatical_items d -> token_of Char.re_ident k -> grammatical v ->
  grammatical_items (dict_set d k v).
Proof.
  intros Hd Hk Hv. induction Hd as [|[k' v'] d Hx Hd IH]; simpl.
  - constructor; [now split | constructor].
  - destruct (String.eqb k' k); constructor; try assumption.
    split; [apply Hx | assumption].
Qed.

Lemma re_match_token pat f s token :
  (forall s, re_match pat s =
             match span f s with
             | EmptyString => None
             | t => Some t
             end) ->
  re_match pat s = Some token -> token_of f token.
Proof.
  intros Hpat E. rewrite Hpat in E.
  pose proof (span_all f s) as Hall.
  destruct (span f s) as [|c t]; [discriminate|].
  inversion E; subst. split; [discriminate | assumption].
Qed.

(** A token of a class that [match] returns is the longest run of the
    class after the whitespace. *)
Lemma match_token pat f p token p' :
  (forall s, re_match pat s =
             match span f s with
             | EmptyString => None
             | t => Some t
             end) ->
  match_ pat p = Return token p' ->
  token_of f token /\
  remaining (skip_whitespace p) = token +:+ remaining p' /\
  stops f (remaining p').
Proof.
  intros Hpat E. apply match_Return in E as [E ->].
  pose proof (re_match_token pat f _ _ Hpat E) as Ht.
  rewrite Hpat in E.
  pose proof (span_app f (remaining (skip_whitespace p))) as Happ.
  pose proof (span_stop f (remaining (skip_whitespace p))) as Hstop.
  destruct (span f (remaining (skip_whitespace p))) as [|c t] eqn:S;
    [discriminate|].
  inversion E; subst token. clear E.
  assert (remaining
            (mkParser (text p)
               (pos (skip_whitespace p) + String.length (String c t))
               (line (skip_whitespace p))
               (col (skip_whitespace p) + String.length (String c t))) =
          drop (String.length (String c t)) (remaining (skip_whitespace p)))
    as R.
  { rewrite <- (skip_whitespace_text p).
    now apply (remaining_advance (skip_whitespace p) _ (String c t)). }
  rewrite R. split; [exact Ht|]. split; [exact Happ | exact Hstop].
Qed.

Lemma yields_parse_identifier :
  yields (token_of Char.re_ident) parse_identifier.
Proof.
  intros p a p' E. apply match_Return in E as [E _].
  now apply (re_match_token re_identifier Char.re_ident) in E.
Qed.

Lemma grammar_parse_var : yields grammatical parse_var.
Proof.
  intros p a p' E. unfold parse_var in E.
  apply bind_Return in E as (x & p1 & _ & E).
  apply bind_Return in E as (y & p2 & _ & E).
  apply bind_Return in E as (name & p3 & En & E).
  apply bind_Return in E as (z & p4 & _ & E).
  inversion E; subst. split; [reflexivity|].
  exact (yields_parse_identifier _ _ _ En).
Qed.

Lemma grammar_parse_number : yields grammatical parse_number.
Proof.
  intros p a p' E. unfold parse_number in E.
  apply bind_Return in E as (x & p1 & _ & E).
  inversion E; subst. exact I.
Qed.

(** A string literal that [parse_string] accepts has a body between its
    quotes. *)
Lemma grammar_parse_string : yields grammatical parse_string.
Proof.
  intros p a p' E.
  destruct (remaining (skip_whitespace p)) as [|c s] eqn:R.
  { unfold parse_string, bind, match_ in E. rewrite R in E. discriminate. }
  destruct (Ascii.eqb c Char.quote) eqn:Hc.
  2:{ unfold parse_string, bind, match_ in E. rewrite R in E.
      cbn [re_match re_quote startswith] in E.
      rewrite Ascii.eqb_sym, Hc in E. discriminate. }
  apply Ascii.eqb_eq in Hc; subst c.
  destruct (string_body_cases s) as (body & Hb & [[rest ->] | Hopen]).
  - rewrite (parse_string_closed p body rest Hb R) in E.
    inversion E; subst. exact Hb.
  - assert (exists tail,
              (tail = EmptyString \/
               tail = String Char.backslash EmptyString) /\
              s = body +:+ tail) as (tail & Ht & ->).
    { destruct Hopen as [-> | ->].
      - exists EmptyString. split; [now left|]. now rewrite append_nil_r.
      - exists (String Char.backslash EmptyString). split; [now right|].
        reflexivity. }
    rewrite (parse_string_open p body tail Hb Ht R) in E. discriminate.
Qed.

Lemma grammar_parse_dict_loop parse_value n :
  yields grammatical parse_value ->
  forall first result,
    NoDup (map fst result) -> grammatical_items result ->
    yields (fun d => NoDup (map fst d) /\ grammatical_items d)
      (parse_dict_loop parse_value n first result).
Proof.
  intros Hpv. induction n as [|n IH]; intros first result Hn Hr p a p' E;
    simpl in E; [discriminate|].
  destruct (at_end p); [inversion E; now subst|].
  destruct (looking_at _ _); [inversion E; now subst|].
  apply bind_Return in E as (x & p1 & _ & E).
  apply bind_Return in E as (key & p2 & E2 & E).
  apply bind_Return in E as (y & p3 & _ & E).
  apply bind_Return in E as (value & p4 & E4 & E).
  apply Hpv in E4. apply yields_parse_identifier in E2.
  apply IH in E; [assumption | now apply NoDup_dict_set|].
  now apply grammatical_items_dict_set.
Qed.

Lemma grammar_parse_value fuel : yields grammatical (parse_value fuel).
Proof.
  induction fuel as [|fuel IH]; intros p a p' E; simpl in E; [discriminate|].
  destruct (peek (skip_whitespace p)) as [c|]; [|discriminate].
  destruct (Char.isdigit c); [exact (grammar_parse_number _ _ _ E)|].
  destruct (Ascii.eqb c Char.quote); [exact (grammar_parse_string _ _ _ E)|].
  destruct (Ascii.eqb c "{").
  { unfold parse_dict in E.
    apply bind_Return in E as (x & p1 & _ & E).
    apply bind_Return in E as (result & p2 & E2 & E).
    apply bind_Return in E as (y & p3 & _ & E).
    inversion E; subst. apply grammatical_Dict.
    apply grammar_parse_dict_loop in E2;
      [assumption | assumption | constructor | constructor]. }
  destruct (Ascii.eqb c "$"); [exact (grammar_parse_var _ _ _ E)|].
  discriminate.
Qed.

Lemma grammatical_statement_value ast :
  grammatical ast -> grammatical_statement ast.
Proof.
  destruct ast as [n|s|items|tag args]; try (intros H; exact H).
  intros H. pose proof H as [-> _]. exact H.
Qed.

Lemma grammar_parse_statement fuel :
  yields (fun stmt => forall s, stmt = Some s -> grammatical_statement s)
    (parse_statement fuel).
Proof.
  intros p a p' E s ->. unfold parse_statement in E.
  destruct (at_end _); [discriminate|].
  destruct (Text.startswith "let" _); [|destruct (Text.startswith "q(" _)];
    apply bind_Return in E as (stmt & p1 & E1 & E); inversion E; subst.
  - unfold parse_let in E1.
    apply bind_Return in E1 as (x & p2 & _ & E1).
    apply bind_Return in E1 as (name & p3 & E3 & E1).
    apply bind_Return in E1 as (y & p4 & _ & E1).
    apply bind_Return in E1 as (value & p5 & E5 & E1).
    inversion E1; subst. apply grammar_parse_value in E5.
    apply yields_parse_identifier in E3. now split.
  - unfold parse_q in E1.
    apply bind_Return in E1 as (x & p2 & _ & E1).
    apply bind_Return in E1 as (expr & p3 & E3 & E1).
    apply bind_Return in E1 as (y & p4 & _ & E1).
    inversion E1; subst. apply grammar_parse_value in E3. exact E3.
  - unfold parse_expression in E1. apply grammatical_statement_value.
    destruct (looking_at _ _).
    + now apply grammar_parse_var in E1.
    + now apply grammar_parse_value in E1.
Qed.

Lemma grammar_parse_all_loop fuel n :
  forall statements,
    Forall grammatical_statement statements ->
    yields (Forall grammatical_statement) (parse_all_loop fuel n statements).
Proof.
  induction n as [|n IH]; intros statements Hs p a p' E; simpl in E;
    [discriminate|].
  destruct (at_end p); [inversion E; now subst|].
  destruct (at_end _); [inversion E; now subst|].
  apply bind_Return in E as (stmt & p1 & E1 & E).
  destruct stmt as [stmt|]; [|inversion E; now subst].
  apply IH in E; [assumption|].
  apply List.Forall_app. split; [assumption|].
  constructor; [|constructor].
  exact (grammar_parse_statement _ _ _ _ E1 stmt eq_refl).
Qed.

End Grammar.

(** ** The first character of a value *)

Section Dispatch.
Import Text TextFacts.

Lemma parse_value_skip fuel p :
  parse_value fuel (skip_whitespace p) = parse_value fuel p.
Proof.
  destruct fuel as [|fuel]; [reflexivity|]. cbn [parse_value].
  now rewrite skip_whitespace_idem.
Qed.

(** On a [$], [parse_value] calls [parse_var]. *)
Lemma parse_var_dollar fuel p :
  looking_at "$" (skip_whitespace p) = true ->
  parse_var (skip_whitespace p) = parse_value (S fuel) p.
Proof.
  unfold looking_at. intros H.
  destruct (peek (skip_whitespace p)) as [c|] eqn:Hp; [|discriminate].
  apply Ascii.eqb_eq in H. subst c.
  rewrite (parse_value_dispatch _ _ _ Hp). reflexivity.
Qed.

(** The whitespace [ws] before a text that starts with none is what
    [skip_whitespace] moves past. *)
Lemma skip_whitespace_run p (ws rest : string) :
  remaining p = ws +:+ rest -> all Char.isspace ws = true ->
  stops Char.isspace rest ->
  skip_whitespace p =
    mkParser (text p) (pos p + String.length ws)
      (line p + count Char.newline ws) (col_after ws (col p)) /\
  remaining (skip_whitespace p) = rest.
Proof.
  intros R Hws Hrest.
  assert (span Char.isspace (remaining p) = ws) as S
    by (rewrite R; now apply span_token).
  split.
  - rewrite skip_whitespace_spec. cbv zeta. now rewrite S.
  - rewrite skip_whitespace_remaining, S, R. apply drop_app_length.
Qed.

End Dispatch.

(** ** Decimal notation *)

Section Decimal.
Import Text TextFacts.

Lemma int_loop_of_uint d :
  forall acc,
    int_loop acc (NilEmpty.string_of_uint d) =
      match acc with
      | N0 => Pos.of_uint d
      | Npos a => Npos (Pos.of_uint_acc d a)
      end.
Proof.
  induction d; intros acc; cbn [NilEmpty.string_of_uint int_loop];
    [now destruct acc|..];
    match goal with
    | |- context [digit_value ?c] =>
        let v := eval vm_compute in (digit_value c) in
        change (digit_value c) with v
    end;
    rewrite IHd; destruct acc as [|a]; try reflexivity;
    cbn [Pos.of_uint_acc];
    match goal with
    | |- _ = N.pos (Pos.of_uint_acc _ ?b) =>
        replace (10 * N.pos a + _)%N with (N.pos b) by lia
    end;
    reflexivity.
Qed.

Lemma int_string_of_uint d : int (NilZero.string_of_uint d) = N.of_uint d.
Proof.
  unfold int. destruct d; try apply (int_loop_of_uint _ 0%N). reflexivity.
Qed.

Lemma int_str n : int (yaml.str n) = n.
Proof.
  unfold yaml.str. rewrite int_string_of_uint.
  apply DecimalN.Unsigned.of_to.
Qed.

Lemma all_digits_string_of_uint d :
  all Char.re_digit (NilEmpty.string_of_uint d) = true.
Proof. induction d; simpl; auto. Qed.

Lemma token_str n : token_of Char.re_digit (yaml.str n).
Proof.
  unfold yaml.str, token_of.
  destruct (N.to_uint n) eqn:E; simpl;
    (split; [discriminate|]); try apply all_digits_string_of_uint.
  reflexivity.
Qed.

Lemma int_loop_zeros zeros digits :
  all (Ascii.eqb "0") zeros = true ->
  int_loop 0 (zeros +:+ digits) = int_loop 0 digits.
Proof.
  induction zeros as [|c zeros IH]; cbn [all String.append int_loop];
    intros H; [reflexivity|].
  apply andb_prop in H as [Hc H]. apply Ascii.eqb_eq in Hc. subst c.
  now apply IH.
Qed.

End Decimal.

(** ** Programs in the text *)

Section Programs.
Import Text TextFacts.

Lemma isspace_not_ident c : Char.isspace c = true -> Char.re_ident c = false.
Proof.
  destruct c as [[] [] [] [] [] [] [] []]; vm_compute; congruence.
Qed.

Lemma isspace_not_digit c : Char.isspace c = true -> Char.re_digit c = false.
Proof.
  destruct c as [[] [] [] [] [] [] [] []]; vm_compute; congruence.
Qed.

Lemma stops_after_ws f (ws s : string) :
  all Char.isspace ws = true ->
  (forall c, Char.isspace c = true -> f c = false) ->
  stops f s -> stops f (ws +:+ s).
Proof.
  intros Hws Hf Hs. destruct ws as [|c ws]; [exact Hs|].
  cbn [all] in Hws. apply andb_prop in Hws as [Hc _]. exact (Hf c Hc).
Qed.

Lemma skip_ws p (ws s : string) :
  remaining p = ws +:+ s -> all Char.isspace ws = true ->
  stops Char.isspace s -> remaining (skip_whitespace p) = s.
Proof. intros R Hws Hs. now apply (skip_whitespace_run p ws s). Qed.

Lemma token_solid name rest :
  token_of Char.re_ident name -> stops Char.isspace (name +:+ rest).
Proof.
  intros H. destruct (token_head _ _ H) as (c & s' & -> & Hc & _).
  now apply re_ident_not_space.
Qed.

(** A binding, whatever whitespace stands between its tokens. *)
Lemma parses_let fuel p ws1 name ws2 ws3 l rest :
  all Char.isspace ws1 = true -> all Char.isspace ws2 = true ->
  all Char.isspace ws3 = true ->
  token_of Char.re_ident name -> well_formed l -> depth l < fuel ->
  remaining p =
    "let" +:+ ws1 +:+ name +:+ ws2 +:+ "=" +:+ ws3 +:+ unparse l +:+ rest ->
  stops Char.re_digit rest ->
  parses (parse_statement fuel) p (Some (Let name (denote l))) rest.
Proof.
  intros H1 H2 H3 Hname Hwf Hfuel R Hstop.
  assert (skip_whitespace p = p) as Hskip
    by (apply skip_whitespace_solid; now rewrite R).
  apply parses_after_skip
    with (m' := do stmt <- parse_let fuel; ret (Some stmt)).
  { unfold parse_statement. rewrite Hskip.
    rewrite (remaining_cons_at_end p "l" _ R), R.
    now rewrite startswith_refl_app. }
  rewrite Hskip.
  apply parses_bind with (a := Let name (denote l)) (r1 := rest);
    [|intros; now apply parses_ret].
  unfold parse_let.
  eapply parses_bind.
  { apply parses_literal. rewrite Hskip. exact R. }
  intros p1 _ R1. eapply parses_bind.
  { apply parses_identifier; [|exact Hname|].
    - apply (skip_ws _ _ _ R1 H1). now apply token_solid.
    - apply stops_after_ws; [assumption | apply isspace_not_ident|].
      reflexivity. }
  intros p2 _ R2. eapply parses_bind.
  { apply parses_literal. now apply (skip_ws _ _ _ R2 H2). }
  intros p3 _ R3. eapply parses_bind.
  { apply (parse_value_unparse l Hwf fuel p3 rest Hfuel); [|exact Hstop].
    apply (skip_ws _ _ _ R3 H3). now apply unparse_solid. }
  intros p4 _ R4. now apply parses_ret.
Qed.

(** A [q], whatever whitespace stands around its value. *)
Lemma parses_q fuel p ws1 l ws2 rest :
  all Char.isspace ws1 = true -> all Char.isspace ws2 = true ->
  well_formed l -> depth l < fuel ->
  remaining p = "q(" +:+ ws1 +:+ unparse l +:+ ws2 +:+ ")" +:+ rest ->
  parses (parse_statement fuel) p (Some (Q (denote l))) rest.
Proof.
  intros H1 H2 Hwf Hfuel R.
  assert (skip_whitespace p = p) as Hskip
    by (apply skip_whitespace_solid; now rewrite R).
  apply parses_after_skip
    with (m' := do stmt <- parse_q fuel; ret (Some stmt)).
  { unfold parse_statement. rewrite Hskip.
    rewrite (remaining_cons_at_end p "q" _ R), R.
    now rewrite startswith_refl_app. }
  rewrite Hskip.
  apply parses_bind with (a := Q (denote l)) (r1 := rest);
    [|intros; now apply parses_ret].
  unfold parse_q.
  eapply parses_bind.
  { apply parses_literal. rewrite Hskip. exact R. }
  intros p1 _ R1. eapply parses_bind.
  { apply (parse_value_unparse l Hwf fuel p1 (ws2 +:+ ")" +:+ rest) Hfuel).
    - apply (skip_ws _ _ _ R1 H1). now apply unparse_solid.
    - apply stops_after_ws; [assumption | apply isspace_not_digit|].
      reflexivity. }
  intros p2 _ R2. eapply parses_bind.
  { apply parses_literal. now apply (skip_ws _ _ _ R2 H2). }
  intros p3 _ R3. now apply parses_ret.
Qed.

(** A bare value. *)
Lemma parses_bare fuel p l rest :
  well_formed l -> depth l < fuel ->
  remaining p = unparse l +:+ rest -> stops Char.re_digit rest ->
  parses (parse_statement fuel) p (Some (denote l)) rest.
Proof.
  intros Hwf Hfuel R Hstop.
  assert (stops Char.isspace (remaining p)) as Hsolid
    by (rewrite R; now apply unparse_solid).
  assert (skip_whitespace p = p) as Hskip
    by now apply skip_whitespace_solid.
  assert (exists c r, remaining p = String c r /\
            Text.startswith "let" (remaining p) = false /\
            Text.startswith "q(" (remaining p) = false)
    as (c & r & Rc & Hlet & Hq).
  { rewrite R. destruct l as [digits|body|name|entries];
      [cbn [unparse] | simpl ..].
    - destruct (token_head _ _ Hwf) as (c & s' & -> & Hc & _).
      destruct (re_digit_not_keyword _ Hc) as (E1 & E2 & E3).
      exists c, (s' +:+ rest). split; [reflexivity|].
      split; now apply startswith_cons_false.
    - eexists; eexists. repeat split.
    - eexists; eexists. repeat split.
    - eexists; eexists. repeat split. }
  apply parses_after_skip
    with (m' := do stmt <- parse_value fuel; ret (Some stmt)).
  { unfold parse_statement. rewrite Hskip.
    rewrite (remaining_cons_at_end _ _ _ Rc), Hlet, Hq.
    unfold bind, parse_expression.
    destruct (looking_at "$" (skip_whitespace p)) eqn:Hd;
      [|now rewrite parse_value_skip].
    destruct fuel as [|fuel]; [lia|].
    now rewrite (parse_var_dollar fuel p Hd). }
  rewrite Hskip.
  apply parses_bind with (a := denote l) (r1 := rest);
    [|intros; now apply parses_ret].
  apply (parse_value_unparse l Hwf fuel p rest Hfuel); [|exact Hstop].
  now rewrite Hskip.
Qed.

Lemma parses_statement fuel s p rest :
  well_formed_statement s -> depth (literal_of s) < fuel ->
  remaining p = unparse_statement s +:+ rest -> stops Char.re_digit rest ->
  parses (parse_statement fuel) p (Some (denote_statement s)) rest.
Proof.
  destruct s as [name value|expr|value]; cbn [well_formed_statement
    literal_of unparse_statement denote_statement]; intros Hwf Hfuel R Hstop.
  - destruct Hwf as [Hname Hwf].
    apply (parses_let fuel p " " name " " " " value rest);
      try reflexivity; try assumption.
    rewrite R, !append_assoc. reflexivity.
  - apply (parses_q fuel p "" expr "" rest); try reflexivity; try assumption.
    rewrite R, !append_assoc. reflexivity.
  - now apply parses_bare.
Qed.

Lemma unparse_statement_head s rest :
  well_formed_statement s ->
  exists c r,
    unparse_statement s +:+ rest = String c r /\ Char.isspace c = false.
Proof.
  destruct s as [name value|expr|l]; cbn [unparse_statement];
    intros Hwf; try (eexists; eexists; split; reflexivity).
  pose proof (unparse_solid l rest Hwf) as H. unfold stops in H.
  destruct (unparse l +:+ rest) as [|c r] eqn:E.
  - destruct l as [digits|body|name|entries]; try discriminate.
    destruct (token_head _ _ Hwf) as (c & s' & -> & _). discriminate.
  - exists c, r. split; [reflexivity | exact H].
Qed.

Lemma unparse_program_solid stmts :
  Forall well_formed_statement stmts ->
  stops Char.isspace (unparse_program stmts).
Proof.
  intros [|s stmts' Hs _]; [exact I|]. cbn [unparse_program].
  destruct (unparse_statement_head s
              (String Char.newline (unparse_program stmts')) Hs)
    as (c & r & -> & Hc).
  exact Hc.
Qed.

Lemma parse_all_loop_turn fuel n statements p :
  at_end p = false -> at_end (skip_whitespace p) = false ->
  parse_all_loop fuel (S n) statements p =
    (do stmt <- parse_statement fuel;
     match stmt with
     | None => ret statements
     | Some stmt => parse_all_loop fuel n (statements ++ [stmt])
     end) (skip_whitespace p).
Proof. intros H1 H2. cbn [parse_all_loop]. now rewrite H1, H2. Qed.

Lemma at_end_before_skip p :
  at_end (skip_whitespace p) = false -> at_end p = false.
Proof.
  unfold at_end. rewrite skip_whitespace_text.
  pose proof (skip_whitespace_pos p) as L. intros H.
  apply Nat.leb_gt in H. apply Nat.leb_gt. lia.
Qed.

Lemma at_end_remaining p : at_end p = true -> remaining p = EmptyString.
Proof.
  unfold at_end, remaining. intros H. apply Nat.leb_le in H.
  now apply drop_ge.
Qed.

(** The loop of [parse_all] reads the statements of a program one after
    the other. *)
Lemma parses_program fuel stmts :
  Forall well_formed_statement stmts ->
  Forall (fun s => depth (literal_of s) < fuel) stmts ->
  forall n acc p ws,
    length stmts < n -> all Char.isspace ws = true ->
    remaining p = ws +:+ unparse_program stmts ->
    parses (parse_all_loop fuel n acc) p
      (acc ++ map denote_statement stmts) EmptyString.
Proof.
  intros Hwf. induction Hwf as [|s stmts Hs Hwf IH];
    intros Hd n acc p ws Hn Hws R;
    (destruct n as [|n]; [simpl in Hn; lia|]).
  - cbn [unparse_program] in R. rewrite append_nil_r in R.
    cbn [map]. rewrite app_nil_r. unfold parses. cbn [parse_all_loop].
    destruct (at_end p) eqn:E1.
    { exists p. split; [reflexivity|]. split; [reflexivity|].
      now apply at_end_remaining. }
    assert (remaining (skip_whitespace p) = EmptyString) as R0.
    { apply (skip_ws p ws EmptyString); [|assumption | exact I].
      now rewrite append_nil_r. }
    rewrite (remaining_nil_at_end _ R0).
    exists (skip_whitespace p). split; [reflexivity|].
    split; [apply skip_whitespace_text | exact R0].
  - inversion Hd as [|? ? Hd1 Hd2]; subst.
    pose proof (unparse_program_solid (s :: stmts)
                  (@List.Forall_cons _ _ s stmts Hs Hwf)) as Hsolid.
    pose proof (skip_ws p ws _ R Hws Hsolid) as R0.
    cbn [unparse_program] in R0.
    destruct (unparse_statement_head s
                (String Char.newline (unparse_program stmts)) Hs)
      as (c & r & Hc & _).
    assert (at_end (skip_whitespace p) = false) as E2.
    { apply (remaining_cons_at_end _ c r). now rewrite R0. }
    eapply parses_after_skip.
    { apply parse_all_loop_turn; [now apply at_end_before_skip | exact E2]. }
    eapply parses_bind.
    { apply (parses_statement fuel s _ _ Hs Hd1 R0). reflexivity. }
    intros p1 _ R1. cbv beta iota.
    cbn [map]. replace (acc ++ denote_statement s :: map denote_statement stmts)
      with ((acc ++ [denote_statement s]) ++ map denote_statement stmts)
      by (now rewrite <- List.app_assoc).
    apply (IH Hd2 n _ p1 (String Char.newline EmptyString));
      [simpl in Hn; lia | reflexivity | exact R1].
Qed.

Lemma unparse_program_length stmts :
  length stmts <= String.length (unparse_program stmts) /\
  Forall
    (fun s =>
       String.length (unparse (literal_of s)) <=
       String.length (unparse_program stmts)) stmts.
Proof.
  induction stmts as [|s stmts [IH1 IH2]]; [split; [simpl; lia | constructor]|].
  cbn [unparse_program length]. rewrite length_append. cbn [String.length].
  split; [lia|]. constructor.
  - destruct s as [name value|expr|value];
      cbn [literal_of unparse_statement]; rewrite ?length_append;
      cbn [String.length]; rewrite ?length_append; lia.
  - eapply List.Forall_impl; [|exact IH2]. cbv beta. intros a Ha. lia.
Qed.

(** A text that is one statement. *)
Lemma parse_all_single content a :
  parses (parse_statement (S (String.length content))) (Parser_init content)
    (Some a) EmptyString ->
  stops Char.isspace content -> content <> EmptyString ->
  exists p, parse_all (Parser_init content) = Return [a] p.
Proof.
  intros (p1 & E1 & T1 & R1) Hsolid Hne.
  assert (exists c r, content = String c r) as (c & r & Hc)
    by (destruct content as [|c r]; [contradiction | eauto]).
  assert (exists k, String.length content = S k) as [k Hk]
    by (rewrite Hc; simpl; eauto).
  unfold parse_all. cbn [text Parser_init]. cbv zeta.
  set (fuel := S (String.length content)) in *. unfold fuel at 2.
  set (p0 := Parser_init content) in *.
  assert (remaining p0 = content) as R by reflexivity.
  assert (at_end p0 = false) as Hend
    by (apply (remaining_cons_at_end p0 c r); now rewrite R).
  assert (skip_whitespace p0 = p0) as Hskip
    by (apply skip_whitespace_solid; now rewrite R).
  rewrite parse_all_loop_turn by (rewrite ?Hskip; exact Hend).
  rewrite Hskip. unfold bind. rewrite E1. cbn [app].
  exists p1. rewrite Hk. cbn [parse_all_loop].
  now rewrite (remaining_nil_at_end _ R1).
Qed.

(** The text of a program parses to the nodes of its statements, and
    nothing of the text is left. *)
Lemma parses_whole_program stmts :
  Forall well_formed_statement stmts ->
  parses parse_all (Parser_init (unparse_program stmts))
    (map denote_statement stmts) EmptyString.
Proof.
  intros Hwf. unfold parse_all.
  set (content := unparse_program stmts).
  destruct (unparse_program_length stmts) as [L1 L2]. fold content in L1, L2.
  destruct (parses_program (S (String.length content)) stmts Hwf)
    with (n := S (String.length content)) (acc := @nil node)
         (p := Parser_init content) (ws := EmptyString)
    as (p & E & T & R); try reflexivity.
  - eapply List.Forall_impl; [|exact L2]. cbv beta. intros s Hs.
    pose proof (depth_le_length (literal_of s)). lia.
  - lia.
  - exists p. cbv zeta. cbn [text Parser_init]. auto.
Qed.

Lemma dict_set_fresh d k v :
  ~ In k (map fst d) -> dict_set d k v = d ++ [(k, v)].
Proof.
  induction d as [|[k' v'] d IH]; cbn [dict_set map fst In app];
    intros H; [reflexivity|].
  destruct (String.eqb k' k) eqn:E.
  - apply String.eqb_eq in E. tauto.
  - rewrite IH; [reflexivity | tauto].
Qed.

Lemma assign_all_NoDup es :
  forall acc,
    NoDup (map fst acc ++ map fst es) -> assign_all es acc = acc ++ es.
Proof.
  unfold assign_all.
  induction es as [|[k v] es IH]; intros acc H; cbn [fold_left fst snd];
    [now rewrite app_nil_r|].
  rewrite dict_set_fresh.
  - rewrite IH; [now rewrite <- List.app_assoc|].
    rewrite List.map_app, <- List.app_assoc. exact H.
  - apply NoDup_app in H as (_ & H & _). intros Hin.
    apply (H k); [now apply list_elem_of_In | left].
Qed.

Lemma literal_for_Dict items :
  literal_for (Dict items) =
    LDict (map (fun item => (fst item, literal_for (snd item))) items).
Proof.
  cbn [literal_for]. f_equal.
  induction items as [|[k v] items IH]; [reflexivity|].
  cbn [map fst snd]. now rewrite IH.
Qed.

(** The literal for a value of the grammar is of the grammar, and stands
    for the value. *)
Lemma literal_for_grammatical value :
  grammatical value ->
  well_formed (literal_for value) /\ denote (literal_for value) = value.
Proof.
  induction value as [n|s|items IH|tag args IH] using node_nested_ind;
    intros H.
  - split; [apply token_str|]. cbn [literal_for denote]. now rewrite int_str.
  - split; [exact H | reflexivity].
  - apply grammatical_Dict in H as [Hn Hitems].
    rewrite literal_for_Dict, well_formed_LDict, denote_LDict.
    assert (well_formed_entries
              (map (fun item => (fst item, literal_for (snd item))) items) /\
            denote_entries
              (map (fun item => (fst item, literal_for (snd item))) items) =
              items) as [Hwf Hd].
    { clear Hn. induction items as [|[k v] items IHitems];
        [split; [exact I | reflexivity]|].
      inversion IH as [|? ? IHv IHrest]; subst.
      inversion Hitems as [|? ? [Hk Hv] Hrest]; subst. cbn [fst snd] in *.
      destruct (IHv Hv) as [W D]. destruct (IHitems IHrest Hrest) as [Ws Ds].
      cbn [map fst snd well_formed_entries denote_entries].
      split; [auto|]. now rewrite D, Ds. }
    split; [exact Hwf|]. rewrite Hd. f_equal.
    now apply (assign_all_NoDup items []).
  - destruct H as [-> H]. destruct args as [|[| name | |] [|]];
      try contradiction.
    split; [exact H | reflexivity].
Qed.

Lemma statement_for_grammatical ast :
  grammatical_statement ast ->
  well_formed_statement (statement_for ast) /\
  denote_statement (statement_for ast) = ast.
Proof.
  assert (forall v, grammatical v ->
            well_formed_statement (SValue (literal_for v)) /\
            denote_statement (SValue (literal_for v)) = v) as Hvalue
    by (intros v Hv; exact (literal_for_grammatical v Hv)).
  unfold grammatical_statement, statement_for.
  destruct ast as [n|s|items|tag args]; try (apply Hvalue).
  destruct (String.eqb tag "let") eqn:E1.
  { apply String.eqb_eq in E1. subst tag.
    destruct args as [|[| name | |] [|value [|]]]; try contradiction.
    intros [Hname Hv]. destruct (literal_for_grammatical value Hv) as [W D].
    cbn [well_formed_statement denote_statement]. split; [auto|].
    now rewrite D. }
  destruct (String.eqb tag "q") eqn:E2; [|apply Hvalue].
  apply String.eqb_eq in E2. subst tag.
  destruct args as [|expr [|]]; try contradiction.
  intros Hv. destruct (literal_for_grammatical expr Hv) as [W D].
  cbn [well_formed_statement denote_statement]. split; [auto|].
  now rewrite D.
Qed.

End Programs.

(** ** The values that the interpreter resolves *)

Section Resolution.

Lemma _eval_value_Dict vars items :
  _eval_value vars (Dict items) = comprehension vars items [].
Proof.
  cbn [_eval_value]. generalize (@nil (string * node)) as acc.
  induction items as [|[k v] items IH]; intros acc; [reflexivity|].
  cbn [comprehension]. destruct (_eval_value vars v); try reflexivity.
  apply IH.
Qed.

Lemma references_Dict items :
  references (Dict items) =
    flat_map (fun item => references (snd item)) items.
Proof.
  cbn [references]. induction items as [|[k v] items IH]; [reflexivity|].
  cbn [flat_map snd]. now rewrite IH.
Qed.

Lemma first_unbound_app vars l1 l2 :
  first_unbound vars (l1 ++ l2) =
    match first_unbound vars l1 with
    | Some x => Some x
    | None => first_unbound vars l2
    end.
Proof.
  induction l1 as [|x l1 IH]; [reflexivity|]. cbn [app first_unbound].
  destruct (vars !! x); [exact IH | reflexivity].
Qed.

(** The errors of the resolution are those of unbound names. *)
Lemma _eval_value_raises vars value e :
  _eval_value vars value = Raises e -> exists x, e = UndefinedVariable x.
Proof.
  induction value as [n|s|items IH|tag args IH] using node_nested_ind;
    try discriminate.
  - rewrite _eval_value_Dict. generalize (@nil (string * node)) as acc.
    induction items as [|[k v] items IHitems]; intros acc; [discriminate|].
    inversion IH as [|? ? IHv IHrest]; subst. cbn [snd comprehension] in *.
    destruct (_eval_value vars v); [now apply IHitems | | discriminate].
    intros H. apply IHv. exact H.
  - cbn [_eval_value]. destruct (String.eqb tag "var"); [|discriminate].
    destruct args as [|[| name | |] [|]]; try discriminate.
    cbn [evaluate_var]. destruct (vars !! name); [discriminate|].
    intros H. inversion H. eauto.
Qed.


Lemma resolved_Dict d :
  resolved (Dict d) <->
  NoDup (map fst d) /\ Forall (fun item => resolved (snd item)) d.
Proof.
  cbn [resolved]. apply and_iff_compat_l. induction d as [|[k v] d IH].
  - split; [constructor | reflexivity].
  - rewrite IH. split.
    + intros (H1 & H2). now constructor.
    + intros H. inversion H; subst. auto.
Qed.

Lemma Forall_snd_dict_set (P : node -> Prop) d k v :
  Forall (fun item => P (snd item)) d -> P v ->
  Forall (fun item => P (snd item)) (dict_set d k v).
Proof.
  intros Hd Hv. induction Hd as [|[k' v'] d Hx Hd IH]; cbn [dict_set].
  - constructor; [exact Hv | constructor].
  - destruct (String.eqb k' k); constructor; assumption.
Qed.

(** Resolving a resolved value gives it back, whatever the variables. *)
Lemma _eval_value_resolved_id vars value :
  resolved value -> _eval_value vars value = Value value.
Proof.
  induction value as [n|s|items IH|tag args IH] using node_nested_ind;
    intros Hr; try reflexivity; [|destruct Hr].
  apply resolved_Dict in Hr as [Hn Hr]. rewrite _eval_value_Dict.
  change (Dict items) with (Dict ([] ++ items)).
  assert (NoDup (map fst (@nil (string * node)) ++ map fst items)) as Hn'
    by exact Hn.
  revert Hn'. generalize (@nil (string * node)) as acc. clear Hn.
  induction items as [|[k v] items IHitems]; intros acc Hn;
    [now rewrite app_nil_r|].
  inversion IH as [|? ? IHv IHrest]; subst.
  inversion Hr as [|? ? Hr1 Hr2]; subst. cbn [snd map fst] in *.
  cbn [comprehension]. rewrite (IHv Hr1).
  rewrite dict_set_fresh.
  - replace (acc ++ (k, v) :: items) with ((acc ++ [(k, v)]) ++ items)
      by (now rewrite <- List.app_assoc).
    apply IHitems; [assumption | assumption|].
    rewrite List.map_app, <- List.app_assoc. exact Hn.
  - apply NoDup_app in Hn as (_ & Hn & _). intros Hin.
    apply (Hn k); [now apply list_elem_of_In | left].
Qed.

(** What the resolution returns is resolved, when the variables are. *)
Lemma _eval_value_resolved vars value r :
  resolved_variables vars -> is_value value = true ->
  _eval_value vars value = Value r -> resolved r.
Proof.
  intros Hvars. revert r.
  induction value as [n|s|items IH|tag args IH] using node_nested_ind;
    intros r Hv E; try (inversion E; subst; exact I).
  - apply is_value_Dict in Hv. rewrite _eval_value_Dict in E.
    assert (NoDup (map fst (@nil (string * node))) /\
            Forall (fun item => resolved (snd item)) (@nil (string * node)))
      as Hacc by (split; constructor).
    revert E Hacc. generalize (@nil (string * node)) as acc.
    induction items as [|[k v] items IHitems]; intros acc E [Hn Hr].
    + inversion E; subst. now apply resolved_Dict.
    + inversion IH as [|? ? IHv IHrest]; subst.
      inversion Hv as [|? ? Hv1 Hv2]; subst. cbn [snd comprehension] in *.
      destruct (_eval_value vars v) as [v'| |]; try discriminate.
      apply (IHitems IHrest Hv2 _ E). split.
      * now apply NoDup_dict_set.
      * apply Forall_snd_dict_set; [assumption|]. now apply IHv.
  - cbn [is_value] in Hv. apply andb_prop in Hv as [Ht Ha].
    cbn [_eval_value] in E. rewrite Ht in E.
    destruct args as [|[| name | |] [|]]; try discriminate.
    cbn [evaluate_var] in E.
    destruct (vars !! name) as [v|] eqn:L; [|discriminate].
    inversion E; subst. exact (Hvars _ _ L).
Qed.

(** A statement keeps the variables resolved, and prints nothing or the
    document of a resolved value. *)
Lemma evaluate_resolved self stmt v self' :
  is_statement stmt = true -> resolved_variables (variables self) ->
  evaluate self stmt = Value (v, self') ->
  resolved_variables (variables self') /\
  (stdout self' = stdout self \/
   exists r, resolved r /\ stdout self' = stdout self ++ [yaml.dump r]).
Proof.
  intros Hs Hvars E. unfold is_statement in Hs.
  destruct stmt as [n|s|items|tag args];
    try (inversion E; subst; auto; fail).
  cbn [evaluate] in E. destruct (String.eqb tag "let").
  { destruct args as [|[| name | |] [|value [|]]]; try discriminate.
    destruct (_eval_value (variables self) value) as [r| |] eqn:Ev;
      try discriminate.
    inversion E; subst. cbn [variables stdout]. split; [|now left].
    intros x w. destruct (decide (x = name)) as [->|Hne].
    - rewrite lookup_insert_eq. intros H. inversion H; subst.
      exact (_eval_value_resolved _ _ _ Hvars Hs Ev).
    - rewrite lookup_insert_ne by congruence. apply Hvars. }
  destruct (String.eqb tag "q").
  { destruct args as [|expr [|]]; try discriminate.
    destruct (_eval_value (variables self) expr) as [r| |] eqn:Ev;
      try discriminate.
    inversion E; subst. cbn [variables stdout]. split; [assumption|].
    right. exists r. split; [|reflexivity].
    exact (_eval_value_resolved _ _ _ Hvars Hs Ev). }
  destruct (String.eqb tag "var"); [|discriminate].
  destruct (evaluate_var (variables self) args); try discriminate.
  inversion E; subst. auto.
Qed.

Lemma main_loop_resolved stmts :
  Forall (fun s => is_statement s = true) stmts ->
  forall self printed,
    resolved_variables (variables self) ->
    stdout self = map yaml.dump printed -> Forall resolved printed ->
    exists results,
      output (main_loop self stmts) = map yaml.dump results /\
      Forall resolved results.
Proof.
  induction 1 as [|stmt stmts Hs _ IH]; intros self printed Hvars Hout Hp;
    cbn [main_loop]; [now exists printed|].
  destruct (evaluate self stmt) as [[v self1]| |] eqn:E;
    [|now exists printed | now exists printed].
  destruct (evaluate_resolved _ _ _ _ Hs Hvars E) as [Hvars1 [Hsame | Hq]].
  - apply (IH self1 printed); [assumption | congruence | assumption].
  - destruct Hq as (r & Hr & Hout1).
    apply (IH self1 (printed ++ [r])); [assumption | |].
    + rewrite Hout1, Hout, List.map_app. reflexivity.
    + apply List.Forall_app. split; [assumption|]. now constructor.
Qed.

(** The errors of a statement of the language are those of unbound
    names. *)
Lemma evaluate_raises self stmt e :
  is_statement stmt = true -> evaluate self stmt = Raises e ->
  exists x, e = UndefinedVariable x.
Proof.
  unfold is_statement. intros Hs E.
  destruct stmt as [n|s|items|tag args]; try discriminate.
  cbn [evaluate] in E. destruct (String.eqb tag "let").
  { destruct args as [|[| name | |] [|value [|]]]; try discriminate.
    destruct (_eval_value (variables self) value) eqn:Ev; try discriminate.
    inversion E; subst. exact (_eval_value_raises _ _ _ Ev). }
  destruct (String.eqb tag "q").
  { destruct args as [|expr [|]]; try discriminate.
    destruct (_eval_value (variables self) expr) eqn:Ev; try discriminate.
    inversion E; subst. exact (_eval_value_raises _ _ _ Ev). }
  cbn [is_value] in Hs. apply andb_prop in Hs as [Ht Ha]. rewrite Ht in E.
  destruct args as [|[| name | |] [|]]; try discriminate.
  cbn [evaluate_var] in E. destruct (variables self !! name);
    [discriminate|].
  inversion E. eauto.
Qed.

Lemma main_loop_status stmts :
  Forall (fun s => is_statement s = true) stmts ->
  forall self,
    status (main_loop self stmts) = Finished \/
    exists x, status (main_loop self stmts) = Failed (UndefinedVariable x).
Proof.
  induction 1 as [|stmt stmts Hs _ IH]; intros self; cbn [main_loop];
    [now left|].
  pose proof (evaluate_no_crash self stmt Hs) as Hc.
  destruct (evaluate self stmt) as [[v self1]|e|] eqn:E;
    [apply IH | | contradiction].
  right. destruct (evaluate_raises _ _ _ Hs E) as [x ->]. now exists x.
Qed.




End Resolution.

(** ** The scope of the variables *)

Section Scope.

(** Resolving a value succeeds when every name that it refers to is
    bound, and fails on the first that is not. *)
Lemma _eval_value_unbound vars value :
  is_value value = true ->
  match first_unbound vars (references value) with
  | Some x => _eval_value vars value = Raises (UndefinedVariable x)
  | None => exists v, _eval_value vars value = Value v
  end.
Proof.
  induction value as [n|s|items IH|tag args IH] using node_nested_ind;
    intros Hv; try (cbn; eauto; fail).
  - apply is_value_Dict in Hv.
    rewrite _eval_value_Dict, references_Dict.
    generalize (@nil (string * node)) as acc.
    induction items as [|[k v] items IHitems]; intros acc;
      [cbn; eauto|].
    inversion IH as [|? ? IHv IHrest]; subst.
    inversion Hv as [|? ? Hv1 Hv2]; subst. cbn [snd] in *.
    specialize (IHv Hv1). cbn [flat_map snd comprehension].
    rewrite first_unbound_app.
    destruct (first_unbound vars (references v)) as [x|].
    + now rewrite IHv.
    + destruct IHv as [v' ->]. now apply IHitems.
  - cbn [is_value] in Hv. apply andb_prop in Hv as [Ht Ha].
    cbn [references _eval_value]. rewrite Ht.
    destruct args as [|[| name | |] [|]]; try discriminate.
    cbn [first_unbound evaluate_var].
    destruct (vars !! name); cbn; eauto.
Qed.

(** A statement of the language fails on the first unbound name that it
    refers to; otherwise it returns, and the variables are those it had
    and the one it binds. *)
Lemma evaluate_unbound self stmt :
  is_statement stmt = true ->
  match first_unbound (variables self) (statement_references stmt) with
  | Some x => evaluate self stmt = Raises (UndefinedVariable x)
  | None =>
      exists v self',
        evaluate self stmt = Value (v, self') /\
        forall x,
          is_Some (variables self' !! x) <->
          In x (statement_binds stmt) \/ is_Some (variables self !! x)
  end.
Proof.
  unfold is_statement. intros Hs.
  destruct stmt as [n|s|items|tag args];
    try (cbn; eexists; eexists; split; [reflexivity | tauto]).
  cbn [evaluate statement_references statement_binds].
  destruct (String.eqb tag "let").
  { destruct args as [|[| name | |] [|value [|]]]; try discriminate.
    pose proof (_eval_value_unbound (variables self) value Hs) as H.
    destruct (first_unbound _ _) as [x|]; [now rewrite H|].
    destruct H as [v ->]. eexists; eexists. split; [reflexivity|].
    intros x. cbn [variables In].
    destruct (decide (x = name)) as [->|Hne].
    - rewrite lookup_insert_eq. split; eauto.
    - rewrite lookup_insert_ne by congruence. split; [tauto|].
      intros [[->|[]]|H]; [contradiction | exact H]. }
  destruct (String.eqb tag "q").
  { destruct args as [|expr [|]]; try discriminate.
    pose proof (_eval_value_unbound (variables self) expr Hs) as H.
    destruct (first_unbound _ _) as [x|]; [now rewrite H|].
    destruct H as [v ->]. eexists; eexists. split; [reflexivity|].
    intros x. cbn [variables In]. tauto. }
  cbn [is_value] in Hs. apply andb_prop in Hs as [Ht Ha].
  cbn [references]. rewrite Ht.
  destruct args as [|[| name | |] [|]]; try discriminate.
  cbn [first_unbound evaluate_var].
  destruct (variables self !! name) as [v|]; [|reflexivity].
  eexists; eexists. split; [reflexivity|]. intros x. cbn [In]. tauto.
Qed.



End Scope.

(** ** Dict literals that do not close *)

Section DictErrors.
Import Text TextFacts.

Lemma bind_step {A B : Type} (m : M A) (k : A -> M B) p a p1 :
  m p = Return a p1 -> bind m k p = k a p1.
Proof. intros E. unfold bind. now rewrite E. Qed.

Lemma bind_raise {A B : Type} (m : M A) (k : A -> M B) p e p1 :
  m p = Raise e p1 -> bind m k p = Raise e p1.
Proof. intros E. unfold bind. now rewrite E. Qed.

Lemma match_fails pat p :
  re_match pat (remaining (skip_whitespace p)) = None ->
  match_ pat p =
    Raise (SyntaxError (line (skip_whitespace p)) (col (skip_whitespace p))
             (ExpectedToken pat)) (skip_whitespace p).
Proof. intros E. unfold match_. now rewrite E. Qed.

Lemma re_ident_not_comma c : Char.re_ident c = true -> Ascii.eqb "," c = false.
Proof.
  destruct c as [[] [] [] [] [] [] [] []]; vm_compute; congruence.
Qed.

Lemma unparse_items_length es first :
  length es <= String.length (unparse_items es first).
Proof.
  revert first; induction es as [|[k v] es IH]; intros first;
    cbn [unparse_items length]; [lia|].
  specialize (IH false). rewrite !length_append. cbn [String.length]. lia.
Qed.

(** The text of the entries goes on with a comma, or ends. *)
Lemma unparse_items_stops es tail :
  stops Char.re_digit tail ->
  stops Char.re_digit (unparse_items es false +:+ tail).
Proof. destruct es as [|[k v] es]; [trivial | reflexivity]. Qed.

Section Loop.
Variable parse_value : M node.

(** The loop of [parse_dict] reads the entries that stand in the text
    and goes on with what follows them. *)
Lemma parse_dict_loop_items es :
  well_formed_entries es ->
  Forall (fun e =>
            forall p rest,
              remaining (skip_whitespace p) = unparse (snd e) +:+ rest ->
              stops Char.re_digit rest ->
              parses parse_value p (denote (snd e)) rest) es ->
  forall n first acc p tail,
    stops Char.re_digit tail ->
    remaining p = unparse_items es first +:+ tail ->
    exists p',
      text p' = text p /\ remaining p' = tail /\
      parse_dict_loop parse_value (length es + n) first acc p =
        parse_dict_loop parse_value n
          (first && match es with [] => true | _ => false end)
          (assign_all (denote_entries es) acc) p'.
Proof.
  induction es as [|[k v] es IH]; intros Hwf Hpv n first acc p tail Ht R.
  - exists p. cbn [length Nat.add denote_entries]. rewrite andb_true_r. auto.
  - destruct Hwf as (Hk & Hv & Hes).
    inversion Hpv as [|? ? Hpv1 Hpv2]; subst. clear Hpv. cbn [snd] in Hpv1.
    destruct (token_head _ _ Hk) as (c & k' & -> & Hc & Hk').
    cbn [unparse_items] in R. rewrite !append_assoc in R.
    assert (exists c0 r0, remaining p = String c0 r0 /\
              Char.isspace c0 = false /\ Ascii.eqb c0 "}" = false)
      as (c0 & r0 & R0 & Hsp & Hbr).
    { destruct first; simpl in R; rewrite R; eexists; eexists;
        (split; [reflexivity|]); split;
        try reflexivity; try now apply re_ident_not_space.
      now apply re_ident_not_brace. }
    assert (skip_whitespace p = p) as Hskip
      by (apply skip_whitespace_solid; now rewrite R0).
    cbn [length Nat.add]. rewrite parse_dict_loop_turn;
      [|exact (remaining_cons_at_end _ _ _ R0)
       |rewrite Hskip; unfold looking_at;
        now rewrite (peek_remaining _ _ _ R0)].
    rewrite Hskip.
    set (rest := unparse_items es false +:+ tail) in *.
    assert (parses (if first then ret EmptyString else match_ (re_literal ","))
              p (if first then EmptyString else ",")
              ((if first then EmptyString else " ") +:+ String c k' +:+
               " => " +:+ unparse v +:+ rest)) as (p1 & E1 & T1 & R1).
    { destruct first.
      - apply parses_ret. exact R.
      - apply parses_literal. rewrite Hskip. exact R. }
    rewrite (bind_step _ _ _ _ _ E1).
    destruct (parses_identifier p1 (String c k')
                (" => " +:+ unparse v +:+ rest)) as (p2 & E2 & T2 & R2);
      [|assumption | reflexivity|].
    { destruct first; cbn [String.append] in R1.
      - rewrite skip_whitespace_solid; [exact R1|].
        rewrite R1. now apply re_ident_not_space.
      - apply (skip_whitespace_space _ _ R1). now apply re_ident_not_space. }
    rewrite (bind_step _ _ _ _ _ E2).
    destruct (parses_literal p2 "=>" (" " +:+ unparse v +:+ rest))
      as (p3 & E3 & T3 & R3);
      [now apply (skip_whitespace_space _ _ R2)|].
    rewrite (bind_step _ _ _ _ _ E3).
    destruct (Hpv1 p3 rest) as (p4 & E4 & T4 & R4).
    { apply (skip_whitespace_space _ _ R3). now apply unparse_solid. }
    { unfold rest. now apply unparse_items_stops. }
    rewrite (bind_step _ _ _ _ _ E4).
    destruct (IH Hes Hpv2 n false (dict_set acc (String c k') (denote v))
                p4 tail Ht R4) as (p' & T' & R' & E').
    exists p'. split; [congruence|]. split; [exact R'|].
    rewrite E'. now rewrite andb_false_r.
Qed.

End Loop.

(** [parse_value] on a dict literal whose entries are followed by
    [tail]: it comes to the loop of [parse_dict] at [tail], with fuel
    left and the entries read. *)
Lemma parse_value_items es fuel p tail :
  well_formed_entries es -> depth_entries es < fuel ->
  stops Char.re_digit tail ->
  remaining (skip_whitespace p) = "{" +:+ unparse_items es true +:+ tail ->
  exists p' n,
    text p' = text p /\ remaining p' = tail /\
    parse_value (S fuel) p =
      (do result <-
         parse_dict_loop (parse_value fuel) (S n)
           match es with [] => true | _ => false end
           (assign_all (denote_entries es) []);
       run match_ (re_literal "}");
       ret (Dict result)) p'.
Proof.
  intros Hwf Hd Ht R.
  assert (peek (skip_whitespace p) = Some "{"%char) as Hpeek
    by (unfold peek; rewrite R; reflexivity).
  rewrite (parse_value_dispatch _ _ _ Hpeek).
  change (Char.isdigit "{") with false. cbv iota.
  change (Ascii.eqb "{" Char.quote) with false. cbv iota.
  change (Ascii.eqb "{" "{") with true. cbv iota.
  unfold parse_dict.
  destruct (parses_literal (skip_whitespace p) "{"
              (unparse_items es true +:+ tail)) as (p1 & E1 & T1 & R1);
    [now rewrite skip_whitespace_idem|].
  rewrite (bind_step _ _ _ _ _ E1). unfold bind at 1. cbv beta.
  pose proof (unparse_items_length es true) as L1.
  pose proof (length_drop (pos p1) (text p1)) as L2.
  unfold remaining in R1. rewrite R1, length_append in L2.
  fold (remaining p1) in R1.
  set (n := String.length (text p1) - length es).
  assert (S (String.length (text p1)) = length es + S n) as -> by lia.
  destruct (parse_dict_loop_items (parse_value fuel) es Hwf)
    with (n := S n) (first := true) (acc := @nil (string * node))
         (p := p1) (tail := tail) as (p' & T' & R' & E'); try assumption.
  { apply List.Forall_forall. intros e Hin q rest' Rq Hq.
    pose proof (depth_entries_Forall es fuel Hd) as D.
    rewrite List.Forall_forall in D.
    pose proof (well_formed_entries_Forall _ Hwf) as W.
    rewrite List.Forall_forall in W.
    exact (parse_value_unparse (snd e) (W e Hin) fuel q rest' (D e Hin)
             Rq Hq). }
  exists p', n. rewrite skip_whitespace_text in T1.
  split; [congruence|]. split; [exact R'|].
  rewrite E'. reflexivity.
Qed.

End DictErrors.

(** ** The scanner on a text of any characters *)

Section UnicodeScanner.

Lemma unicode_span_app f l :
  l = Unicode.span f l ++ skipn (length (Unicode.span f l)) l.
Proof.
  induction l as [|c l IH]; [reflexivity|]. cbn [Unicode.span].
  destruct (f c); [|reflexivity]. cbn [length skipn app]. now f_equal.
Qed.

Lemma unicode_span_all f l : forallb f (Unicode.span f l) = true.
Proof.
  induction l as [|c l IH]; [reflexivity|]. cbn [Unicode.span].
  destruct (f c) eqn:E; [|reflexivity]. cbn [forallb]. now rewrite E.
Qed.

Lemma unicode_span_stop f l :
  match List.head (skipn (length (Unicode.span f l)) l) with
  | Some c => f c = false
  | None => True
  end.
Proof.
  induction l as [|c l IH]; [exact I|]. cbn [Unicode.span].
  destruct (f c) eqn:E; [exact IH | exact E].
Qed.

Lemma unicode_skipn_skipn n k (l : list N) :
  skipn k (skipn n l) = skipn (n + k) l.
Proof.
  revert l; induction n as [|n IH]; intros l; [reflexivity|].
  destruct l as [|c l]; [now destruct k | apply IH].
Qed.

Lemma unicode_skip_whitespace_loop_spec rest p :
  let ws := Unicode.span Unicode.isspace rest in
  Unicode.skip_whitespace_loop rest p =
    Unicode.mkParser (Unicode.text p) (Unicode.pos p + length ws)
      (Unicode.line p + Unicode.count Unicode.newline ws)
      (if Unicode.count Unicode.newline ws =? 0
       then Unicode.col p + length ws
       else 1 + length (Unicode.after_last Unicode.newline ws)).
Proof.
  revert p; induction rest as [|c rest IH]; intros p;
    cbn [Unicode.skip_whitespace_loop Unicode.span].
  - destruct p; cbn. f_equal; lia.
  - destruct (Unicode.isspace c) eqn:Hc.
    + rewrite IH. unfold Unicode.skip_char.
      cbn [length Unicode.count Unicode.after_last].
      destruct (N.eqb c Unicode.newline) eqn:Hn; cbn;
        destruct (Unicode.count Unicode.newline
                    (Unicode.span Unicode.isspace rest) =? 0) eqn:Hz;
        cbn; f_equal; lia.
    + destruct p; cbn. f_equal; lia.
Qed.

Lemma unicode_skip_whitespace_loop_fold rest p :
  Unicode.skip_whitespace_loop rest p =
    fold_left (fun q c => Unicode.skip_char c q)
      (Unicode.span Unicode.isspace rest) p.
Proof.
  revert p; induction rest as [|c rest IH]; intros p; [reflexivity|].
  cbn [Unicode.skip_whitespace_loop Unicode.span].
  destruct (Unicode.isspace c); [apply IH | reflexivity].
Qed.

Lemma unicode_isspace_code c :
  Unicode.isspace (N.of_nat (Char.code c)) = Char.isspace c.
Proof. destruct c as [[] [] [] [] [] [] [] []]; vm_compute; reflexivity. Qed.

Lemma unicode_newline_code c :
  N.eqb (N.of_nat (Char.code c)) Unicode.newline = Ascii.eqb c Char.newline.
Proof. destruct c as [[] [] [] [] [] [] [] []]; vm_compute; reflexivity. Qed.

Lemma unicode_of_string_drop n s :
  skipn n (Unicode.of_string s) = Unicode.of_string (Text.drop n s).
Proof.
  revert s; induction n as [|n IH]; intros s; [reflexivity|].
  destruct s as [|c s]; [reflexivity|]. apply IH.
Qed.

Lemma unicode_of_skip_whitespace_loop rest :
  forall p,
    Unicode.skip_whitespace_loop (Unicode.of_string rest) (unicode_of p) =
      unicode_of (skip_whitespace_loop rest p).
Proof.
  induction rest as [|c rest IH]; intros p; [reflexivity|].
  cbn [Unicode.of_string list_ascii_of_string map
       Unicode.skip_whitespace_loop skip_whitespace_loop].
  rewrite unicode_isspace_code.
  destruct (Char.isspace c); [|reflexivity].
  fold (Unicode.of_string rest). rewrite <- IH. f_equal.
  unfold Unicode.skip_char, skip_char. rewrite unicode_newline_code.
  now destruct (Ascii.eqb c Char.newline).
Qed.

End UnicodeScanner.

(** * The claims of the specification *)

(** ** The order of the keys in the output *)

(** C1, as the code has it. The dict that [q] hands to the serializer
    holds the keys in the order of the literal. The serializer sorts the
    items of a dict: the block mapping written for a dict lists the keys
    of the dict, and no other, in ascending order, and so does every
    mapping of every document that a program prints, whatever the order
    of the keys in the literal. The program [q({b => 1, a => 2})] prints a
    mapping with the key [a] before the key [b]. *)
Theorem emitted_keys_sorted :
  (forall vars items result,
     NoDup (map fst items) ->
     _eval_value vars (Dict items) = Value result ->
     exists d, result = Dict d /\ map fst d = map fst items) /\
  (forall items,
     let written := yaml.keys (yaml.dump (Dict items)) in
     Sorted key_le written /\ Permutation written (map fst items)) /\
  (forall content out,
     main content = Some out -> Forall mappings_sorted (output out)) /\
  main "q({b => 1, a => 2})" =
    Some (mkOutputs
            [yaml.MappingNode "tag:yaml.org,2002:map"
               [(yaml.ScalarNode "tag:yaml.org,2002:str" "a",
                 yaml.ScalarNode "tag:yaml.org,2002:int" "2");
                (yaml.ScalarNode "tag:yaml.org,2002:str" "b",
                 yaml.ScalarNode "tag:yaml.org,2002:int" "1")]]
            Finished).
Proof.
  split; [|split; [|split]].
  - intros vars items result Hnd H.
    apply _eval_value_keys in H as (d & -> & Hd). exists d.
    split; [reflexivity|]. rewrite Hd.
    now apply first_occurrences_NoDup.
  - intros items written. subst written. rewrite keys_dump_Dict. split.
    + apply Sorted_keys, sorted_Sorted.
    + rewrite sorted_Permutation, map_map. simpl.
      now rewrite map_ext with (g := fst).
  - intros content out. unfold main.
    destruct (parse_all (Parser_init content)) as [ast p|e p|];
      intros H; inversion H; subst; simpl.
    + apply main_loop_mappings_sorted. constructor.
    + constructor.
  - vm_compute. reflexivity.
Qed.

Lemma emitted_keys_sorted_witness :
  Forall mappings_sorted
    [yaml.dump (Dict [("z", Dict [("y", Num 1); ("x", Num 2)]); ("c", Num 3)])].
Proof.
  apply (proj1 (proj2 (proj2 emitted_keys_sorted))
           "q({z => {y => 1, x => 2}, c => 3})"
           (mkOutputs
              [yaml.dump
                 (Dict [("z", Dict [("y", Num 1); ("x", Num 2)]);
                        ("c", Num 3)])]
              Finished)).
  vm_compute. reflexivity.
Defined.

(** C1 as stated fails: the literal of [q({b => 1, a => 2})] has [b]
    before [a], and so has the dict handed to the serializer, but the
    mapping that is written has [a] before [b]. *)
Lemma source_order_not_kept :
  let content := "q({b => 1, a => 2})" in
  parse_all (Parser_init content) =
    Return [Q (Dict [("b", Num 1); ("a", Num 2)])]
      (mkParser content 19 1 20) /\
  (exists doc,
     main content = Some (mkOutputs [doc] Finished) /\
     yaml.keys doc = ["a"; "b"] /\
     yaml.keys doc <> ["b"; "a"]).
Proof.
  split; [vm_compute; reflexivity|].
  eexists. split; [vm_compute; reflexivity|].
  split; [reflexivity | discriminate].
Qed.

(** ** Two phases: parse everything, then evaluate *)

(** C2. When parsing fails, wherever in the text, [main] prints the error
    and exits with nothing on the standard output: no statement is
    evaluated, not even a [q(...)] that stands before the failure, as in
    [q(1)] followed on the next line by [badtoken]. The statements are
    evaluated when the whole text has been parsed, and then all those of
    the text are. *)
Theorem parse_failure_no_output :
  (forall content e p,
     parse_all (Parser_init content) = Raise e p ->
     main content = Some (mkOutputs [] (Failed e))) /\
  (forall content ast p,
     parse_all (Parser_init content) = Return ast p ->
     main content = Some (main_loop Interpreter_init ast)) /\
  main ("q(1)" +:+ nl +:+ "badtoken") =
    Some (mkOutputs [] (Failed (SyntaxError 2 1 ExpectedValue))).
Proof.
  split; [|split].
  - intros content e p H. unfold main. now rewrite H.
  - intros content ast p H. unfold main. now rewrite H.
  - vm_compute. reflexivity.
Qed.

Lemma parse_failure_no_output_witness :
  main ("q(1)" +:+ nl +:+ "q(2") =
    Some (mkOutputs []
            (Failed (SyntaxError 2 4 (ExpectedToken (re_literal ")"))))).
Proof.
  apply (proj1 parse_failure_no_output _ _
           (mkParser ("q(1)" +:+ nl +:+ "q(2") 8 2 4)).
  vm_compute. reflexivity.
Defined.

(** ** Bare statements *)

(** C3, as the code has it. A top-level statement that is a bare number,
    string or dict is returned as it is, nothing in it being looked up; a
    top-level variable reference is looked up and fails with the
    undefined-variable error when the name is unbound. Either way nothing
    is printed, the variables stay as they are, and the loop of [main]
    drops the value. *)
Theorem bare_statement_no_effect :
  (forall self ast rest,
     is_literal ast = true ->
     evaluate self ast = Value (Some ast, self) /\
     main_loop self (ast :: rest) = main_loop self rest) /\
  (forall self name v rest,
     variables self !! name = Some v ->
     evaluate self (Var name) = Value (Some v, self) /\
     main_loop self (Var name :: rest) = main_loop self rest) /\
  (forall self name rest,
     variables self !! name = None ->
     evaluate self (Var name) = Raises (UndefinedVariable name) /\
     main_loop self (Var name :: rest) =
       mkOutputs (stdout self) (Failed (UndefinedVariable name))).
Proof.
  split; [|split].
  - intros self ast rest H. destruct ast; try discriminate; simpl; auto.
  - intros self name v rest H. simpl. rewrite H. auto.
  - intros self name rest H. simpl. rewrite H. auto.
Qed.

Lemma bare_statement_no_effect_witness :
  evaluate Interpreter_init (Dict [("k", Num 1)]) =
    Value (Some (Dict [("k", Num 1)]), Interpreter_init) /\
  evaluate Interpreter_init (Var "x") = Raises (UndefinedVariable "x").
Proof.
  destruct bare_statement_no_effect as (H1 & _ & H3). split.
  - apply (H1 Interpreter_init (Dict [("k", Num 1)]) []). reflexivity.
  - apply (H3 Interpreter_init "x" []). reflexivity.
Defined.

(** C3 as stated fails: the variable reference inside a bare dict is not
    looked up. Resolving [{k => $[x]}] with [x] unbound raises, while the
    statement [{k => $[x]}] evaluates, and the program made of it ends
    without an error. *)
Lemma bare_dict_not_resolved :
  let ast := Dict [("k", Var "x")] in
  _eval_value (variables Interpreter_init) ast =
    Raises (UndefinedVariable "x") /\
  evaluate Interpreter_init ast = Value (Some ast, Interpreter_init) /\
  main "{k => $[x]}" = Some (mkOutputs [] Finished).
Proof. vm_compute. auto. Qed.

(** ** Unknown nodes *)

(** C4, as the code has it. A top-level statement whose tag is none of
    ['let'], ['q'], ['var'] is rejected with the unknown-node error, and
    the run stops there, after the statements before it. *)
Theorem unknown_statement_rejected :
  forall tag args,
    recognized tag = false ->
    (forall self,
       evaluate self (Tuple tag args) =
         Raises (UnknownNode (Tuple tag args))) /\
    (forall self pre self' post,
       evaluated self pre self' ->
       main_loop self (pre ++ Tuple tag args :: post) =
         mkOutputs (stdout self') (Failed (UnknownNode (Tuple tag args)))).
Proof.
  intros tag args H. unfold recognized in H.
  apply orb_false_iff in H as [H H3]. apply orb_false_iff in H as [H1 H2].
  assert (forall self, evaluate self (Tuple tag args) =
                         Raises (UnknownNode (Tuple tag args))) as E.
  { intros self. simpl. now rewrite H1, H2, H3. }
  split; [exact E|].
  intros self pre self' post Hpre.
  rewrite (main_loop_app _ _ _ _ Hpre). cbn [main_loop]. now rewrite E.
Qed.

Lemma unknown_statement_rejected_witness :
  main_loop Interpreter_init [Q (Num 1); Tuple "print" [Num 2]; Q (Num 3)] =
    mkOutputs [yaml.dump (Num 1)]
      (Failed (UnknownNode (Tuple "print" [Num 2]))).
Proof.
  apply (proj2 (unknown_statement_rejected "print" [Num 2] eq_refl)
           Interpreter_init [Q (Num 1)]
           (mkInterpreter ∅ [yaml.dump (Num 1)]) [Q (Num 3)]).
  eapply evaluated_cons; [reflexivity | apply evaluated_nil].
Defined.

(** C4 as stated fails below the top level: a tuple with an unknown tag
    that is the value of a [let], the argument of a [q] or an entry of a
    dict is taken as a value. *)
Lemma nested_unknown_node_accepted :
  let bogus := Tuple "bogus" [Num 1] in
  recognized "bogus" = false /\
  main_loop Interpreter_init
    [Let "x" bogus; Q bogus; Q (Dict [("k", bogus)]); Q (Var "x")] =
    mkOutputs
      [yaml.dump bogus; yaml.dump (Dict [("k", bogus)]); yaml.dump bogus]
      Finished.
Proof. vm_compute. auto. Qed.

(** ** The position of a syntax error *)

(** C5 fails after a string literal. The error of a failed parse is a
    syntax error with the line and the column that the parser has, and
    the message of what was expected. [skip_whitespace] and [match] keep
    that line and column in step with the offset, so in a text without a
    quote they are the line and the column of the offset at which the
    parse stopped. The scan of [parse_string] moves the offset alone: in
    [q("ab"]] the closing parenthesis is missed at offset 6, which is
    line 1, column 7, and the error says line 1, column 5. *)
Theorem syntax_error_position_after_string :
  (forall content e p,
     parse_all (Parser_init content) = Raise e p ->
     exists msg, e = SyntaxError (line p) (col p) msg) /\
  (forall content e p,
     Text.count Char.quote content = 0 ->
     parse_all (Parser_init content) = Raise e p ->
     text p = content /\
     (line p, col p) = line_col_at content (pos p)) /\
  (let content := "q(" +:+ dq +:+ "ab" +:+ dq +:+ "]" in
   parse_all (Parser_init content) =
     Raise (SyntaxError 1 5 (ExpectedToken (re_literal ")")))
       (mkParser content 6 1 5) /\
   line_col_at content 6 = (1, 7)).
Proof.
  split; [|split].
  - intros content e p H. unfold parse_all in H.
    exact (positioned_parse_all_loop _ _ _ _ _ _ H).
  - intros content e p Hq H. unfold parse_all in H.
    pose proof (steady_parse_all_loop content Hq (S (String.length content))
                  (S (String.length content)) [] (Parser_init content)
                  (steady_state_init content)) as K.
    cbn [text Parser_init] in H. rewrite H in K.
    destruct K as [[T K] _].
    split; [exact T|]. unfold in_step in K. now rewrite T in K.
  - vm_compute. auto.
Qed.

Lemma syntax_error_position_after_string_witness :
  parse_all (Parser_init ("q(1" +:+ nl +:+ "  ]")) =
    Raise (SyntaxError 2 3 (ExpectedToken (re_literal ")")))
      (mkParser ("q(1" +:+ nl +:+ "  ]") 6 2 3) /\
  (2, 3) = line_col_at ("q(1" +:+ nl +:+ "  ]") 6.
Proof.
  split; [vm_compute; reflexivity|].
  apply (proj1 (proj2 syntax_error_position_after_string)
           ("q(1" +:+ nl +:+ "  ]")
           (SyntaxError 2 3 (ExpectedToken (re_literal ")")))
           (mkParser ("q(1" +:+ nl +:+ "  ]") 6 2 3));
    vm_compute; reflexivity.
Defined.

(** ** String literals *)

(** C6. After the opening quote, [parse_string] takes characters other
    than the quote and the backslash one by one, and a backslash together
    with the character after it, whatever that character is; it stores
    what it took as it stands in the text, backslashes included, and ends
    the literal at the first quote that no backslash precedes. When the
    text ends before such a quote, also right after a backslash, it raises
    the unterminated-string error. Every text after an opening quote is of
    one of these shapes. The text made of a quote, [a], a backslash, a
    quote, [b] and a quote is one string literal of the four characters
    [a], backslash, quote, [b]. *)
Theorem string_literal_verbatim :
  (forall p body rest,
     string_body body ->
     remaining (skip_whitespace p) =
       String Char.quote (body +:+ String Char.quote rest) ->
     let p0 := skip_whitespace p in
     parse_string p =
       Return (Str body)
         (mkParser (text p) (pos p0 + 1 + String.length body + 1)
            (line p0) (col p0 + 1 + 1))) /\
  (forall p body tail,
     string_body body ->
     tail = EmptyString \/ tail = String Char.backslash EmptyString ->
     remaining (skip_whitespace p) = String Char.quote (body +:+ tail) ->
     let p0 := skip_whitespace p in
     parse_string p =
       Raise (SyntaxError (line p0) (col p0 + 1) UnterminatedString)
         (mkParser (text p) (String.length (text p)) (line p0) (col p0 + 1))) /\
  (forall s,
     exists body,
       string_body body /\
       ((exists rest, s = body +:+ String Char.quote rest) \/
        s = body \/ s = body +:+ String Char.backslash EmptyString)) /\
  (let content := dq +:+ "a\" +:+ dq +:+ "b" +:+ dq in
   let stored := String "a" (String Char.backslash (String Char.quote "b")) in
   parse_all (Parser_init content) =
     Return [Str stored] (mkParser content 6 1 3) /\
   String.length stored = 4).
Proof.
  split; [|split; [|split]].
  - intros p body rest Hbody Hrem.
    exact (parse_string_closed p body rest Hbody Hrem).
  - intros p body tail Hbody Htail Hrem.
    exact (parse_string_open p body tail Hbody Htail Hrem).
  - apply string_body_cases.
  - vm_compute. auto.
Qed.

Lemma string_literal_verbatim_witness :
  parse_string (Parser_init (" " +:+ dq +:+ "\\" +:+ dq +:+ " x")) =
    Return (Str "\\") (mkParser (" " +:+ dq +:+ "\\" +:+ dq +:+ " x") 5 1 4) /\
  parse_string (Parser_init (dq +:+ "ab\")) =
    Raise (SyntaxError 1 2 UnterminatedString)
      (mkParser (dq +:+ "ab\") 4 1 2).
Proof.
  destruct string_literal_verbatim as (H1 & H2 & _). split.
  - apply (H1 (Parser_init (" " +:+ dq +:+ "\\" +:+ dq +:+ " x")) "\\" " x").
    + apply body_escape, body_nil.
    + reflexivity.
  - apply (H2 (Parser_init (dq +:+ "ab\")) "ab"
             (String Char.backslash EmptyString)).
    + apply body_char; [discriminate | discriminate|].
      apply body_char; [discriminate | discriminate|]. apply body_nil.
    + right; reflexivity.
    + reflexivity.
Defined.

(** ** Failing statements *)

(** C7. A reference to a name that has no binding fails with the
    undefined-variable error for that name, on its own and as the
    argument of a [q] or the value of a [let]; the program [q($[y])]
    prints nothing and exits with code 1; and when a statement fails, the
    run ends with what the statements before it printed, whatever comes
    after it. *)
Theorem undefined_variable_aborts :
  (forall self name,
     variables self !! name = None ->
     evaluate self (Var name) = Raises (UndefinedVariable name) /\
     evaluate self (Q (Var name)) = Raises (UndefinedVariable name) /\
     forall x,
       evaluate self (Let x (Var name)) = Raises (UndefinedVariable name)) /\
  (main "q($[y])" = Some (mkOutputs [] (Failed (UndefinedVariable "y"))) /\
   exit_code (Failed (UndefinedVariable "y")) = 1) /\
  (forall self pre self' stmt e post,
     evaluated self pre self' ->
     evaluate self' stmt = Raises e ->
     main_loop self pre = mkOutputs (stdout self') Finished /\
     main_loop self (pre ++ stmt :: post) =
       mkOutputs (stdout self') (Failed e)).
Proof.
  split; [|split].
  - intros self name H. simpl. rewrite H. auto.
  - split; [vm_compute|]; reflexivity.
  - intros self pre self' stmt e post Hpre Hk. split.
    + now apply main_loop_finished.
    + rewrite (main_loop_app _ _ _ _ Hpre). cbn [main_loop]. now rewrite Hk.
Qed.

Lemma undefined_variable_aborts_witness :
  main_loop Interpreter_init [Q (Num 1); Q (Var "y"); Q (Num 3)] =
    mkOutputs [yaml.dump (Num 1)] (Failed (UndefinedVariable "y")).
Proof.
  destruct undefined_variable_aborts as (H1 & _ & H3).
  apply (H3 Interpreter_init [Q (Num 1)]
           (mkInterpreter ∅ [yaml.dump (Num 1)]) (Q (Var "y"))
           (UndefinedVariable "y") [Q (Num 3)]).
  - eapply evaluated_cons; [reflexivity | apply evaluated_nil].
  - apply (H1 (mkInterpreter ∅ [yaml.dump (Num 1)]) "y"). reflexivity.
Defined.

(** ** Rebinding *)



(** ** Whitespace *)

(** C9, as the code has it. From any position of any text, whatever
    characters it holds, [skip_whitespace] moves past the longest run
    [ws] of characters for which [str.isspace] holds and stops at the
    first character for which it does not, or at the end of the text.
    These characters are the space, the tab and the newline, and also
    U+000B to U+000D, U+001C to U+001F, U+0085, U+00A0, U+1680, U+2000
    to U+200A, U+2028, U+2029, U+202F, U+205F and U+3000. It treats the
    characters of [ws] one by one: a newline adds one to the line and
    sets the column to 1, any other adds one to the column; so the line
    grows by the number of newlines in [ws], and the column is one more
    than the number of characters after the last newline of [ws], or
    grows by the length of [ws] when it has no newline. On a text of
    code points below 256 this is the [skip_whitespace] of the parser. *)
Theorem skip_whitespace_isspace :
  (forall p,
     let ws := Unicode.span Unicode.isspace (Unicode.remaining p) in
     Unicode.remaining p =
       ws ++ Unicode.remaining (Unicode.skip_whitespace p) /\
     forallb Unicode.isspace ws = true /\
     match Unicode.peek (Unicode.skip_whitespace p) with
     | Some c => Unicode.isspace c = false
     | None => True
     end /\
     Unicode.skip_whitespace p =
       fold_left
         (fun q c =>
            if N.eqb c Unicode.newline
            then Unicode.mkParser (Unicode.text q) (Unicode.pos q + 1)
                   (Unicode.line q + 1) 1
            else Unicode.mkParser (Unicode.text q) (Unicode.pos q + 1)
                   (Unicode.line q) (Unicode.col q + 1))
         ws p /\
     Unicode.skip_whitespace p =
       Unicode.mkParser (Unicode.text p) (Unicode.pos p + length ws)
         (Unicode.line p + Unicode.count Unicode.newline ws)
         (if Unicode.count Unicode.newline ws =? 0
          then Unicode.col p + length ws
          else 1 + length (Unicode.after_last Unicode.newline ws))) /\
  (forall c,
     Unicode.isspace c = true <->
     In c [9; 10; 11; 12; 13; 28; 29; 30; 31; 32; 133; 160; 5760;
           8192; 8193; 8194; 8195; 8196; 8197; 8198; 8199; 8200; 8201;
           8202; 8232; 8233; 8239; 8287; 12288]%N) /\
  (forall p,
     Unicode.skip_whitespace (unicode_of p) = unicode_of (skip_whitespace p)).
Proof.
  split; [|split].
  - intros p ws.
    assert (Unicode.remaining (Unicode.skip_whitespace p) =
            skipn (length ws) (Unicode.remaining p)) as R.
    { unfold Unicode.skip_whitespace.
      rewrite unicode_skip_whitespace_loop_spec. unfold Unicode.remaining.
      cbn [Unicode.pos Unicode.text]. now rewrite unicode_skipn_skipn. }
    repeat split.
    + rewrite R. apply unicode_span_app.
    + apply unicode_span_all.
    + unfold Unicode.peek. rewrite R. apply unicode_span_stop.
    + apply unicode_skip_whitespace_loop_fold.
    + apply unicode_skip_whitespace_loop_spec.
  - intros c. unfold Unicode.isspace. rewrite existsb_exists. split.
    + intros (x & Hx & E). apply N.eqb_eq in E. now subst x.
    + intros H. exists c. split; [exact H | apply N.eqb_refl].
  - intros p. unfold Unicode.skip_whitespace, skip_whitespace.
    rewrite <- unicode_of_skip_whitespace_loop. f_equal.
    unfold Unicode.remaining, remaining. cbn [Unicode.pos Unicode.text
      unicode_of]. apply unicode_of_string_drop.
Qed.

(** C9 as stated fails: the form feed and the line separator U+2028
    are none of the space, the tab and the newline, and [skip_whitespace]
    moves past them. *)
Lemma skip_whitespace_form_feed :
  Unicode.space_tab_newline 12 = false /\
  Unicode.space_tab_newline 8232 = false /\
  Unicode.skip_whitespace (Unicode.mkParser [12; 8232; 120]%N 0 1 1) =
    Unicode.mkParser [12; 8232; 120]%N 2 1 3 /\
  skip_whitespace (Parser_init (String "012" "x")) =
    mkParser (String "012" "x") 1 1 2.
Proof. vm_compute. auto. Qed.

(** ** Dict literals with a repeated key *)

(** C10. [parse_dict] assigns the entries of the literal one after the
    other, in the order of the text. The dict it returns has every key
    once, the keys stand in the order of their first occurrences in the
    text, and each is bound to the value of its last entry: an entry whose
    key is already there replaces the value and leaves the key where it
    is. This holds of the dict that the program made of a dict literal
    parses to, for every list of entries of the grammar, and of the loop
    of [parse_dict] on every text, whatever [parse_value] reads as the
    values. So [{a => 1, b => 2, a => 3}] is the dict with [a] bound to 3
    and then [b] bound to 2. *)
Theorem duplicate_key_first_position_last_value :
  (forall entries,
     well_formed_entries entries ->
     let d := assign_all (denote_entries entries) [] in
     (exists p,
        parse_all (Parser_init (unparse (LDict entries))) =
          Return [Dict d] p) /\
     NoDup (map fst d) /\
     map fst d = first_occurrences [] (map fst entries) /\
     forall key, dict_get d key = last_value key (denote_entries entries)) /\
  (forall parse_value n p,
     parse_dict_loop parse_value n true [] p =
       result_map (fun entries => assign_all entries [])
         (read_entries parse_value n true [] p)) /\
  (forall entries,
     let d := assign_all entries [] in
     NoDup (map fst d) /\
     map fst d = first_occurrences [] (map fst entries) /\
     forall key, dict_get d key = last_value key entries) /\
  parse_all (Parser_init "{a => 1, b => 2, a => 3}") =
    Return [Dict [("a", Num 3); ("b", Num 2)]]
      (mkParser "{a => 1, b => 2, a => 3}" 24 1 25).
Proof.
  assert (forall entries,
            let d := assign_all entries [] in
            NoDup (map fst d) /\
            map fst d = first_occurrences [] (map fst entries) /\
            forall key, dict_get d key = last_value key entries) as Hdict.
  { intros entries d. subst d. split; [|split].
    - apply NoDup_assign_all. constructor.
    - apply keys_assign_all.
    - intros key. rewrite dict_get_assign_all.
      now destruct (last_value key entries). }
  split; [|split; [|split]].
  - intros entries Hwf d.
    destruct (Hdict (denote_entries entries)) as (H1 & H2 & H3).
    split; [|split; [exact H1|split; [|exact H3]]].
    + destruct (parse_all_unparse (LDict entries) Hwf) as (p & E & _).
      exists p. exact E.
    + fold d in H2. now rewrite H2, keys_denote_entries.
  - intros parse_value n p.
    apply (parse_dict_loop_read_entries parse_value n true []).
  - exact Hdict.
  - vm_compute. reflexivity.
Qed.

Lemma duplicate_key_first_position_last_value_witness :
  let entries := [("b", LNum "1"); ("a", LStr "x"); ("b", LVar "y")] in
  unparse (LDict entries) = "{b => 1, a => " +:+ dq +:+ "x" +:+ dq +:+
                            ", b => $[y]}" /\
  map fst (assign_all (denote_entries entries) []) = ["b"; "a"] /\
  dict_get (assign_all (denote_entries entries) []) "b" = Some (Var "y").
Proof.
  intros entries.
  assert (well_formed_entries entries) as Hwf.
  { simpl. repeat split; try discriminate. repeat constructor; discriminate. }
  destruct (proj1 duplicate_key_first_position_last_value entries Hwf)
    as (_ & _ & H2 & H3).
  split; [reflexivity|]. split.
  - rewrite H2. reflexivity.
  - rewrite H3. reflexivity.
Defined.

(** * Further properties of the code *)

(** ** The parser and the text *)

(** X1. When [parse_all] returns, it has read the text to its end: the
    offset is the length of the text, so that nothing after the last
    statement is left unread. When it raises, it stopped at an offset
    within the text. The text itself is never changed. *)
Theorem parse_all_reads_whole_text content r :
  parse_all (Parser_init content) = r ->
  match r with
  | Return _ p => text p = content /\ pos p = String.length content
  | Raise _ p => text p = content /\ pos p <= String.length content
  | OutOfFuel => True
  end.
Proof.
  intros <-. unfold parse_all. cbv zeta. cbn [text Parser_init].
  set (fuel := S (String.length content)).
  pose proof (keeps_parse_all_loop fuel fuel [] _ (within_init content)) as K.
  destruct (parse_all_loop fuel fuel [] (Parser_init content))
    as [ast p|e p|] eqn:E; [| |exact I].
  - destruct K as [T (L & _)].
    apply parse_all_loop_at_end in E. unfold at_end in E.
    apply Nat.leb_le in E. cbn [text Parser_init] in T. rewrite T in *.
    split; [reflexivity | lia].
  - destruct K as [T (L & _)].
    cbn [text Parser_init] in T. rewrite T in *. now split.
Qed.

Lemma parse_all_reads_whole_text_witness :
  text (mkParser ("let x = 1" +:+ nl +:+ "q($[x]) ") 18 2 9) =
    "let x = 1" +:+ nl +:+ "q($[x]) " /\
  pos (mkParser ("let x = 1" +:+ nl +:+ "q($[x]) ") 18 2 9) =
    String.length ("let x = 1" +:+ nl +:+ "q($[x]) ").
Proof.
  apply (parse_all_reads_whole_text
           ("let x = 1" +:+ nl +:+ "q($[x]) ")
           (Return [Let "x" (Num 1); Q (Var "x")]
              (mkParser ("let x = 1" +:+ nl +:+ "q($[x]) ") 18 2 9))).
  vm_compute. reflexivity.
Defined.

(** X2. The position that a syntax error reports stays within bounds:
    the line is at least 1 and at most the line of the offset where the
    parser stopped, one more than the newlines of the text before that
    offset; the column is at least 1 and at most one more than that
    offset. *)
Theorem error_position_bounds content e p :
  parse_all (Parser_init content) = Raise e p ->
  exists msg,
    e = SyntaxError (line p) (col p) msg /\
    1 <= line p /\
    line p <= 1 + Text.count Char.newline (Text.take (pos p) content) /\
    1 <= col p /\
    col p <= pos p + 1.
Proof.
  unfold parse_all. cbv zeta. cbn [text Parser_init].
  set (fuel := S (String.length content)). intros E.
  pose proof (keeps_parse_all_loop fuel fuel [] _ (within_init content)) as K.
  rewrite E in K. destruct K as [T (_ & H)].
  destruct (positioned_parse_all_loop _ _ _ _ _ _ E) as [msg ->].
  cbn [text Parser_init] in T. rewrite T in H. exists msg. auto.
Qed.

Lemma error_position_bounds_witness :
  exists msg,
    SyntaxError 1 5 (ExpectedToken (re_literal ")")) = SyntaxError 1 5 msg /\
    1 <= 1 /\
    1 <= 1 + Text.count Char.newline
               (Text.take 7
                  ("q(" +:+ dq +:+ "a" +:+ nl +:+ "b" +:+ dq +:+ "]")) /\
    1 <= 5 /\
    5 <= 7 + 1.
Proof.
  apply (error_position_bounds
           ("q(" +:+ dq +:+ "a" +:+ nl +:+ "b" +:+ dq +:+ "]")
           (SyntaxError 1 5 (ExpectedToken (re_literal ")")))
           (mkParser ("q(" +:+ dq +:+ "a" +:+ nl +:+ "b" +:+ dq +:+ "]")
              7 1 5)).
  vm_compute. reflexivity.
Defined.

(** X3. Every statement that [parse_all] returns is one of the grammar:
    the binding of an identifier to a value, the [q] of a value, or a
    value; a value is a number, a string with no quote but after a
    backslash, a reference to an identifier, or a dict whose keys are
    identifiers, each once, and whose values are such values. *)
Theorem parse_all_grammatical content ast p :
  parse_all (Parser_init content) = Return ast p ->
  Forall grammatical_statement ast.
Proof.
  unfold parse_all. cbv zeta. intros E.
  exact (grammar_parse_all_loop _ _ [] (Forall_nil_2 _) _ _ _ E).
Qed.

Lemma parse_all_grammatical_witness :
  Forall grammatical_statement
    [Let "x" (Dict [("a", Num 3); ("b", Var "y")]); Q (Var "x")].
Proof.
  apply (parse_all_grammatical
           "let x = {a => 1, b => $[y], a => 3} q($[x])" _
           (mkParser "let x = {a => 1, b => $[y], a => 3} q($[x])" 43 1 44)).
  vm_compute. reflexivity.
Defined.

(** X4. [parse_expression] is [parse_value]: the branch that it takes
    on a [$] calls [parse_var], and so does [parse_value] on the same
    character; from every state both return the same node, or raise the
    same error, and leave the same parser. *)
Theorem parse_expression_is_parse_value fuel p :
  parse_expression (S fuel) p = parse_value (S fuel) p.
Proof.
  unfold parse_expression.
  destruct (looking_at "$" (skip_whitespace p)) eqn:H.
  - now apply parse_var_dollar.
  - apply parse_value_skip.
Qed.

(** X5. What [parse_value] raises on the first character it looks at,
    after the whitespace [ws]: at the end of the text, the error of the
    unexpected end; on a character that starts no value (no digit, quote,
    brace or dollar), the error of the expected value; on a character
    that [isdigit] takes for a digit and [\d] does not (a superscript
    digit), the error of [match] for the pattern of numbers. The error
    carries the line and the column that [skip_whitespace] reached, and
    the parser stays there. *)
Theorem parse_value_rejects fuel p ws rest :
  remaining p = ws +:+ rest ->
  Text.all Char.isspace ws = true ->
  stops Char.isspace rest ->
  let p0 :=
    mkParser (text p) (pos p + String.length ws)
      (line p + Text.count Char.newline ws) (col_after ws (col p)) in
  let raises msg :=
    parse_value (S fuel) p = Raise (SyntaxError (line p0) (col p0) msg) p0 in
  match rest with
  | EmptyString => raises UnexpectedEnd
  | String c _ =>
      if Char.isdigit c
      then Char.re_digit c = false -> raises (ExpectedToken re_digits)
      else if Ascii.eqb c Char.quote || Ascii.eqb c "{" || Ascii.eqb c "$"
      then True
      else raises ExpectedValue
  end.
Proof.
  intros R Hws Hrest p0 raises. subst raises.
  destruct (skip_whitespace_run p ws rest R Hws Hrest) as [Hskip Hrem].
  fold p0 in Hskip. rewrite Hskip in Hrem.
  destruct rest as [|c rest].
  - cbn [parse_value]. rewrite Hskip. unfold peek. now rewrite Hrem.
  - assert (peek (skip_whitespace p) = Some c) as Hp
      by (rewrite Hskip; unfold peek; now rewrite Hrem).
    destruct (Char.isdigit c) eqn:Hd.
    + intros Hre. rewrite (parse_value_dispatch _ _ _ Hp), Hd, Hskip.
      unfold parse_number, bind, match_.
      rewrite <- Hskip, skip_whitespace_idem, Hskip, Hrem.
      cbn [re_match Text.span]. now rewrite Hre.
    + destruct (Ascii.eqb c Char.quote) eqn:H1; [exact I|].
      destruct (Ascii.eqb c "{") eqn:H2; [exact I|].
      destruct (Ascii.eqb c "$") eqn:H3; [exact I|]. cbn [orb].
      rewrite (parse_value_dispatch _ _ _ Hp), Hd, H1, H2, H3, Hskip.
      reflexivity.
Qed.

Lemma parse_value_rejects_witness :
  parse_value 1
    (mkParser ("let x =" +:+ " " +:+ nl +:+ " " +:+ String "178" "") 7 1 8) =
    Raise (SyntaxError 2 2 (ExpectedToken re_digits))
      (mkParser ("let x =" +:+ " " +:+ nl +:+ " " +:+ String "178" "")
         10 2 2).
Proof.
  exact (parse_value_rejects 0
           (mkParser ("let x =" +:+ " " +:+ nl +:+ " " +:+ String "178" "")
              7 1 8)
           (" " +:+ nl +:+ " ") (String "178" "")
           eq_refl eq_refl eq_refl eq_refl).
Defined.

(** X6. Numbers are read in decimal notation: the digits that [str]
    writes for a number, when they are no more than [int] accepts and
    no further digit follows them, are read by [parse_value] as that
    number; and zeros before the digits, within the same limit, do not
    change the number read. *)
Theorem number_round_trip :
  (forall n,
     String.length (yaml.str n) <= int_max_str_digits ->
     int (yaml.str n) = n) /\
  (forall n fuel p rest,
     String.length (yaml.str n) <= int_max_str_digits ->
     remaining (skip_whitespace p) = yaml.str n +:+ rest ->
     stops Char.re_digit rest ->
     exists p',
       parse_value (S fuel) p = Return (Num n) p' /\
       text p' = text p /\ remaining p' = rest) /\
  (forall zeros digits,
     String.length (zeros +:+ digits) <= int_max_str_digits ->
     Text.all (Ascii.eqb "0") zeros = true ->
     int (zeros +:+ digits) = int digits).
Proof.
  split; [intros n _; apply int_str | split].
  - intros n fuel p rest _ R Hstop.
    pose proof (parse_value_unparse (LNum (yaml.str n)) (token_str n)
                  (S fuel) p rest (Nat.lt_0_succ _) R Hstop) as H.
    cbn [denote] in H. now rewrite int_str in H.
  - intros zeros digits _. apply int_loop_zeros.
Qed.

Lemma number_round_trip_witness :
  exists p',
    parse_value 1 (Parser_init " 340282366920938463463374607431768211456)") =
      Return (Num 340282366920938463463374607431768211456) p' /\
    text p' = " 340282366920938463463374607431768211456)" /\
    remaining p' = ")".
Proof.
  refine (proj1 (proj2 number_round_trip)
            340282366920938463463374607431768211456%N 0
            (Parser_init " 340282366920938463463374607431768211456)")
            ")" _ _ _);
    [apply Nat.leb_le; vm_compute; reflexivity | |];
    vm_compute; reflexivity.
Defined.

(** X7. The tokens of names and numbers are the longest runs: when
    [parse_identifier] returns, the name is not empty, is made of
    characters of [[_a-z]], stands in the text right after the
    whitespace, and the text does not go on with a character of
    [[_a-z]]; and so for [parse_number] and the decimal digits, the
    number being the value of the digits. *)
Theorem tokens_are_longest_runs :
  (forall p name p',
     parse_identifier p = Return name p' ->
     token_of Char.re_ident name /\
     remaining (skip_whitespace p) = name +:+ remaining p' /\
     stops Char.re_ident (remaining p')) /\
  (forall p v p',
     parse_number p = Return v p' ->
     exists digits,
       v = Num (int digits) /\
       token_of Char.re_digit digits /\
       remaining (skip_whitespace p) = digits +:+ remaining p' /\
       stops Char.re_digit (remaining p')).
Proof.
  split.
  - intros p name p' E.
    now apply (match_token re_identifier Char.re_ident).
  - intros p v p' E. unfold parse_number in E.
    apply bind_Return in E as (digits & p1 & E1 & E).
    inversion E; subst. exists digits. split; [reflexivity|].
    now apply (match_token re_digits Char.re_digit).
Qed.

Lemma tokens_are_longest_runs_witness :
  token_of Char.re_ident "ab_c" /\
  remaining (skip_whitespace (Parser_init "  ab_c=>1")) =
    "ab_c" +:+ remaining (mkParser "  ab_c=>1" 6 1 7) /\
  stops Char.re_ident (remaining (mkParser "  ab_c=>1" 6 1 7)).
Proof.
  apply (proj1 tokens_are_longest_runs (Parser_init "  ab_c=>1") "ab_c"
           (mkParser "  ab_c=>1" 6 1 7)).
  reflexivity.
Defined.

(** ** Programs and their text *)

(** X8. The parser reads back every program of the grammar from its
    text: written a statement per line ([let name = value], [q(value)] or
    a bare value, the values as numbers, strings, references and dict
    literals), a list of statements parses to the list of the tuples and
    values that they stand for, in the same order. *)
Theorem parse_all_unparse_program stmts :
  Forall well_formed_statement stmts ->
  exists p,
    parse_all (Parser_init (unparse_program stmts)) =
      Return (map denote_statement stmts) p.
Proof.
  intros Hwf. destruct (parses_whole_program stmts Hwf) as (p & E & _).
  now exists p.
Qed.

Lemma parse_all_unparse_program_witness :
  exists p,
    parse_all
      (Parser_init
         ("let x = {a => 1, b => $[y]}" +:+ nl +:+
          "q($[x])" +:+ nl +:+ dq +:+ "s" +:+ dq +:+ nl)) =
      Return
        [Let "x" (Dict [("a", Num 1); ("b", Var "y")]); Q (Var "x"); Str "s"]
        p.
Proof.
  apply (parse_all_unparse_program
           [SLet "x" (LDict [("a", LNum "1"); ("b", LVar "y")]);
            SQ (LVar "x"); SValue (LStr "s")]).
  repeat (constructor || discriminate || reflexivity).
Defined.

(** X9. The parser reaches every program of the grammar: for every
    list of statements of the grammar there is a text, a line per
    statement, that [parse_all] reads as that very list. Numbers are
    written as [str] writes them, strings with their body between quotes,
    the items of a dict in their order. *)
Theorem parse_all_onto_grammar ast :
  Forall grammatical_statement ast ->
  exists p,
    parse_all (Parser_init (unparse_program (map statement_for ast))) =
      Return ast p.
Proof.
  intros H.
  assert (Forall well_formed_statement (map statement_for ast) /\
          map denote_statement (map statement_for ast) = ast) as [Hwf Hd].
  { induction H as [|s ast Hs _ [IH1 IH2]];
      [split; [constructor | reflexivity]|].
    destruct (statement_for_grammatical s Hs) as [W D]. cbn [map]. split.
    - now constructor.
    - now rewrite D, IH2. }
  destruct (parses_whole_program _ Hwf) as (p & E & _).
  exists p. now rewrite <- Hd at 2.
Qed.

Lemma parse_all_onto_grammar_witness :
  exists p,
    parse_all
      (Parser_init
         ("let x = {k => 12, s => " +:+ dq +:+ "a b" +:+ dq +:+ "}" +:+ nl +:+
          "q($[x])" +:+ nl)) =
      Return [Let "x" (Dict [("k", Num 12); ("s", Str "a b")]); Q (Var "x")]
        p.
Proof.
  apply (parse_all_onto_grammar
           [Let "x" (Dict [("k", Num 12); ("s", Str "a b")]); Q (Var "x")]).
  repeat (constructor || discriminate || reflexivity).
  all: cbn; intros H;
    repeat (apply elem_of_cons in H as [H|H]; [discriminate|]);
    now apply elem_of_nil in H.
Defined.

(** X10. Whitespace between the tokens of a statement is free, and none
    is needed: a binding is read the same whatever whitespace, if any,
    stands after [let], around the name and around [=], and a [q]
    whatever whitespace stands around its value. In particular [let] is
    taken off the front of the statement without looking at what
    follows: [letx=1] binds [x]. *)
Theorem whitespace_between_tokens ws1 ws2 ws3 name l :
  Text.all Char.isspace ws1 = true ->
  Text.all Char.isspace ws2 = true ->
  Text.all Char.isspace ws3 = true ->
  token_of Char.re_ident name ->
  well_formed l ->
  (exists p,
     parse_all
       (Parser_init
          ("let" +:+ ws1 +:+ name +:+ ws2 +:+ "=" +:+ ws3 +:+ unparse l)) =
       Return [Let name (denote l)] p) /\
  (exists p,
     parse_all (Parser_init ("q(" +:+ ws1 +:+ unparse l +:+ ws2 +:+ ")")) =
       Return [Q (denote l)] p).
Proof.
  intros H1 H2 H3 Hname Hwf. pose proof (depth_le_length l) as D. split.
  - apply parse_all_single; [|reflexivity | discriminate].
    apply (parses_let _ _ ws1 name ws2 ws3 l EmptyString);
      try assumption; [|now rewrite TextFacts.append_nil_r | exact I].
    rewrite !TextFacts.length_append. lia.
  - apply parse_all_single; [|reflexivity | discriminate].
    apply (parses_q _ _ ws1 l ws2 EmptyString); try assumption;
      [|reflexivity].
    rewrite !TextFacts.length_append. lia.
Qed.

Lemma whitespace_between_tokens_witness :
  (exists p, parse_all (Parser_init "letx=1") = Return [Let "x" (Num 1)] p) /\
  (exists p, parse_all (Parser_init "q(1)") = Return [Q (Num 1)] p).
Proof.
  apply (whitespace_between_tokens "" "" "" "x" (LNum "1"));
    try reflexivity; split; (discriminate || reflexivity).
Defined.

(** X11. A text with nothing but whitespace, the empty text among them,
    is the empty program: [parse_all] moves past the whitespace and
    returns no statement, and [main] prints nothing and returns. *)
Theorem blank_text_is_empty_program content :
  Text.all Char.isspace content = true ->
  parse_all (Parser_init content) =
    Return [] (skip_whitespace (Parser_init content)) /\
  main content = Some (mkOutputs [] Finished).
Proof.
  intros Hws.
  assert (parse_all (Parser_init content) =
            Return [] (skip_whitespace (Parser_init content))) as E.
  { unfold parse_all. cbn [text Parser_init]. cbv zeta.
    cbn [parse_all_loop]. set (p0 := Parser_init content).
    destruct (at_end p0) eqn:E0.
    - rewrite skip_whitespace_solid; [reflexivity|].
      now rewrite (at_end_remaining _ E0).
    - assert (remaining (skip_whitespace p0) = EmptyString) as R.
      { apply (skip_ws p0 content EmptyString); [|assumption | exact I].
        now rewrite TextFacts.append_nil_r. }
      now rewrite (remaining_nil_at_end _ R). }
  split; [exact E|]. unfold main. now rewrite E.
Qed.

Lemma blank_text_is_empty_program_witness :
  parse_all (Parser_init (" " +:+ nl +:+ String "009" "")) =
    Return [] (mkParser (" " +:+ nl +:+ String "009" "") 3 2 2) /\
  main (" " +:+ nl +:+ String "009" "") = Some (mkOutputs [] Finished).
Proof.
  apply (blank_text_is_empty_program (" " +:+ nl +:+ String "009" "")).
  reflexivity.
Defined.

(** X12. A dict literal that does not close as the grammar has it is
    rejected by the error of [match], whatever entries of the grammar
    come first: a comma before the closing brace, with the pattern of
    names, as a comma announces an entry; a name after an entry without a
    comma between them, with the pattern of the comma; the end of the
    text right after the opening brace or an entry, with the pattern of
    the closing brace. *)
Theorem unclosed_dict_errors es fuel p :
  well_formed_entries es ->
  depth_entries es < fuel ->
  let raises msg :=
    exists l c p',
      parse_value (S fuel) p = Raise (SyntaxError l c msg) p' in
  (forall ws rest,
     Text.all Char.isspace ws = true ->
     remaining (skip_whitespace p) =
       "{" +:+ unparse_items es true +:+ "," +:+ ws +:+ "}" +:+ rest ->
     raises (ExpectedToken re_identifier)) /\
  (forall k rest,
     es <> [] ->
     token_of Char.re_ident k ->
     remaining (skip_whitespace p) =
       "{" +:+ unparse_items es true +:+ " " +:+ k +:+ rest ->
     raises (ExpectedToken (re_literal ","))) /\
  (remaining (skip_whitespace p) = "{" +:+ unparse_items es true ->
   raises (ExpectedToken (re_literal "}"))).
Proof.
  intros Hwf Hd raises. subst raises. cbv beta. split; [|split].
  - intros ws rest Hws R.
    destruct (parse_value_items es fuel p ("," +:+ ws +:+ "}" +:+ rest)
                Hwf Hd eq_refl R) as (p1 & n & T1 & R1 & ->).
    assert (skip_whitespace p1 = p1) as Hskip
      by (apply skip_whitespace_solid; now rewrite R1).
    assert (forall first acc,
              parse_dict_loop (parse_value fuel) (S n) first acc p1 =
                (run (if first then ret EmptyString
                      else match_ (re_literal ","));
                 do key <- parse_identifier;
                 run match_ (re_literal "=>");
                 do value <- parse_value fuel;
                 parse_dict_loop (parse_value fuel) n false
                   (dict_set acc key value)) p1) as Hturn.
    { intros first acc. rewrite parse_dict_loop_turn;
        [now rewrite Hskip
        |exact (remaining_cons_at_end _ _ _ R1)
        |rewrite Hskip; unfold looking_at;
         now rewrite (peek_remaining _ _ _ R1)]. }
    destruct es as [|e es]; eexists; eexists; eexists; apply bind_raise;
      rewrite Hturn.
    + rewrite (bind_step _ _ p1 EmptyString p1 eq_refl).
      apply bind_raise. apply match_fails. now rewrite Hskip, R1.
    + pose proof (match_literal p1 "," (ws +:+ "}" +:+ rest)) as E.
      rewrite Hskip in E. cbv zeta in E. specialize (E R1).
      rewrite (bind_step _ _ _ _ _ E). apply bind_raise.
      apply match_fails.
      erewrite (skip_ws _ ws ("}" +:+ rest));
        [reflexivity | |assumption | reflexivity].
      apply (remaining_advance p1 1 "," (ws +:+ "}" +:+ rest));
        [exact R1 | reflexivity].
  - intros k rest Hne Hk R.
    destruct (parse_value_items es fuel p (" " +:+ k +:+ rest)
                Hwf Hd eq_refl R) as (p1 & n & T1 & R1 & ->).
    destruct es as [|e es]; [contradiction|].
    destruct (token_head _ _ Hk) as (c & k' & -> & Hc & _).
    assert (remaining (skip_whitespace p1) = String c k' +:+ rest) as R0
      by (apply (skip_whitespace_space _ _ R1); now apply re_ident_not_space).
    eexists; eexists; eexists. apply bind_raise.
    rewrite parse_dict_loop_turn.
    + apply bind_raise. apply match_fails.
      rewrite skip_whitespace_idem, R0.
      cbn [re_match Text.startswith String.append].
      now rewrite (re_ident_not_comma _ Hc).
    + exact (remaining_cons_at_end _ _ _ R1).
    + unfold looking_at. rewrite (peek_remaining _ _ _ R0).
      now apply re_ident_not_brace.
  - intros R. rewrite <- (TextFacts.append_nil_r (unparse_items es true)) in R.
    destruct (parse_value_items es fuel p EmptyString Hwf Hd I R)
      as (p1 & n & T1 & R1 & ->).
    assert (parse_dict_loop (parse_value fuel) (S n)
              match es with [] => true | _ => false end
              (assign_all (denote_entries es) []) p1 =
            Return (assign_all (denote_entries es) []) p1) as E.
    { cbn [parse_dict_loop]. now rewrite (remaining_nil_at_end _ R1). }
    rewrite (bind_step _ _ _ _ _ E).
    eexists; eexists; eexists. apply bind_raise. apply match_fails.
    rewrite skip_whitespace_solid by (now rewrite R1). now rewrite R1.
Qed.

Lemma unclosed_dict_errors_witness :
  exists l c p',
    parse_value 2 (Parser_init "{a => 1, }") =
      Raise (SyntaxError l c (ExpectedToken re_identifier)) p'.
Proof.
  assert (well_formed_entries [("a", LNum "1")]) as Hwf
    by (repeat split; discriminate).
  apply (proj1 (unclosed_dict_errors [("a", LNum "1")] 1
                  (Parser_init "{a => 1, }") Hwf (Nat.lt_0_succ 0))
           " " "");
    reflexivity.
Defined.

(** ** The interpreter and its variables *)

(** X13. Resolving a value of the language succeeds exactly when every
    variable that it refers to is bound; otherwise it raises the
    undefined-variable error for the first unbound name in the order of
    the text, the entries of a dict taken one after the other and each to
    its depth. So does the evaluation of a statement, for the names of
    the value of a [let] or a [q] and for a bare reference; a bare dict
    is not resolved and never fails. *)
Theorem first_unbound_reference :
  (forall vars value,
     is_value value = true ->
     match first_unbound vars (references value) with
     | Some x => _eval_value vars value = Raises (UndefinedVariable x)
     | None => exists v, _eval_value vars value = Value v
     end) /\
  (forall self stmt,
     is_statement stmt = true ->
     match first_unbound (variables self) (statement_references stmt) with
     | Some x => evaluate self stmt = Raises (UndefinedVariable x)
     | None => exists v self', evaluate self stmt = Value (v, self')
     end).
Proof.
  split; [exact _eval_value_unbound|]. intros self stmt Hs.
  pose proof (evaluate_unbound self stmt Hs) as H.
  destruct (first_unbound _ _) as [x|]; [exact H|].
  destruct H as (v & self' & E & _). eauto.
Qed.

Lemma first_unbound_reference_witness :
  _eval_value {["x" := Num 1]}
    (Dict [("a", Var "x"); ("b", Dict [("c", Var "y")]); ("d", Var "z")]) =
    Raises (UndefinedVariable "y").
Proof.
  exact (proj1 first_unbound_reference {["x" := Num 1]}
           (Dict [("a", Var "x"); ("b", Dict [("c", Var "y")]);
                  ("d", Var "z")])
           eq_refl).
Defined.

(** X14. What the resolution of a value of the language returns holds
    no reference any more, when the variables are bound to such values:
    it is a number, a string, or a dict, each key once, of such values.
    Resolving it again gives it back, whatever the variables then are. *)
Theorem _eval_value_resolves vars value r :
  resolved_variables vars ->
  is_value value = true ->
  _eval_value vars value = Value r ->
  resolved r /\ forall vars', _eval_value vars' r = Value r.
Proof.
  intros Hvars Hv E.
  pose proof (_eval_value_resolved vars value r Hvars Hv E) as Hr.
  split; [exact Hr|]. intros vars'. now apply _eval_value_resolved_id.
Qed.

Lemma _eval_value_resolves_witness :
  resolved (Dict [("a", Dict [("k", Num 1)]); ("b", Str "s")]) /\
  forall vars',
    _eval_value vars' (Dict [("a", Dict [("k", Num 1)]); ("b", Str "s")]) =
      Value (Dict [("a", Dict [("k", Num 1)]); ("b", Str "s")]).
Proof.
  apply (_eval_value_resolves {["x" := Dict [("k", Num 1)]]}
           (Dict [("a", Num 0); ("b", Str "s"); ("a", Var "x")])).
  - intros x v H. apply lookup_singleton_Some in H as [_ <-].
    cbn. repeat constructor. intros H. inversion H.
  - reflexivity.
  - reflexivity.
Defined.

(** X15. Every document that a program prints is that of a resolved
    value: whatever the text, no reference to a variable and no other
    tuple reaches the serializer. *)
Theorem printed_values_resolved content out :
  main content = Some out ->
  exists results,
    output out = map yaml.dump results /\ Forall resolved results.
Proof.
  unfold main, parse_all.
  destruct (parse_all_loop _ _ _ _) as [ast p|e p|] eqn:E;
    intros H; inversion H; subst.
  - apply (main_loop_resolved ast) with (printed := []).
    + exact (yields_parse_all_loop _ _ [] (Forall_nil_2 _) _ _ _ E).
    + intros x v L. cbn in L. rewrite lookup_empty in L. discriminate.
    + reflexivity.
    + constructor.
  - exists []. split; [reflexivity | constructor].
Qed.

Lemma printed_values_resolved_witness :
  exists results,
    [yaml.dump (Dict [("b", Dict [("a", Num 1)])])] =
      map yaml.dump results /\
    Forall resolved results.
Proof.
  apply (printed_values_resolved "let x = {a => 1} q({b => $[x]})"
           (mkOutputs [yaml.dump (Dict [("b", Dict [("a", Num 1)])])]
              Finished)).
  vm_compute. reflexivity.
Defined.

(** X16. The errors that a run reports. When [main] ends on a
    [ConfigLanguageError], it is a syntax error of the parser, and then
    nothing was printed, or the undefined variable of a reference: the
    unknown-node error of [evaluate] is never reported, whatever the
    text. *)
Theorem main_endings content out e :
  main content = Some out ->
  status out = Failed e ->
  (exists l c msg, e = SyntaxError l c msg /\ output out = []) \/
  (exists x, e = UndefinedVariable x).
Proof.
  unfold main, parse_all. cbv zeta.
  destruct (parse_all_loop _ _ _ _) as [ast p|e' p|] eqn:E;
    intros H S; inversion H; subst; cbn [status output] in *.
  - right.
    destruct (main_loop_status ast) with (self := Interpreter_init)
      as [F | [x F]].
    + exact (yields_parse_all_loop _ _ [] (Forall_nil_2 _) _ _ _ E).
    + rewrite F in S. discriminate.
    + rewrite F in S. inversion S. now exists x.
  - left. inversion S; subst.
    destruct (positioned_parse_all_loop _ _ _ _ _ _ E) as [msg ->].
    now exists (line p), (col p), msg.
Qed.

Lemma main_endings_witness :
  (exists l c msg,
     UndefinedVariable "y" = SyntaxError l c msg /\
     [yaml.dump (Num 1)] = []) \/
  (exists x, UndefinedVariable "y" = UndefinedVariable x).
Proof.
  apply (main_endings "q(1) q($[y]) q(2)"
           (mkOutputs [yaml.dump (Num 1)] (Failed (UndefinedVariable "y")))
           (UndefinedVariable "y")).
  - vm_compute. reflexivity.
  - reflexivity.
Defined.







(** ** The process *)

(** X20. What the process leaves. The exit status is 0 or 1, and it is
    0 exactly when nothing is on the error stream. The usage line is
    there exactly when the command line has not one argument. The message
    of a [ConfigLanguageError] there is that of a syntax error, with
    nothing on the standard output, or that of an undefined variable.
    Something is on the standard output only when there was one
    argument, the file could be read, and the whole of its text was
    parsed. *)
Theorem main_argv_exit argv open_ r :
  main_argv argv open_ = Some r ->
  (process_status r = 0 \/ process_status r = 1) /\
  (process_status r = 0 <-> process_stderr r = []) /\
  (In Usage (process_stderr r) <-> length argv <> 2) /\
  (forall e,
     In (Message e) (process_stderr r) ->
     (exists l c msg, e = SyntaxError l c msg /\ process_stdout r = []) \/
     (exists x, e = UndefinedVariable x)) /\
  (process_stdout r <> [] ->
   exists prog filepath content ast p,
     argv = [prog; filepath] /\
     open_ filepath = Content content /\
     parse_all (Parser_init content) = Return ast p).
Proof.
  assert (forall (P : Prop) (d d' : diagnostic),
            d <> d' -> In d [d'] -> P) as one
    by (intros P d d' N [H|[]]; now contradiction N).
  assert (forall d : diagnostic,
            (1 = 0 \/ 1 = 1) /\ (1 = 0 <-> [d] = [])) as failed
    by (intros d; split; [now right | split; discriminate]).
  unfold main_argv.
  destruct argv as [|prog [|filepath [|extra argv]]].
  1, 2, 4:
    intros H; inversion H; subst; clear H;
    cbn [process_stdout process_stderr process_status length];
    destruct (failed Usage) as [F1 F2];
    (split; [exact F1 | split; [exact F2 | split; [|split]]]);
    [ split; [intros _; lia | intros _; now left]
    | intros e; apply one; discriminate
    | intros N; now contradiction N ].
  destruct (open_ filepath) as [content| |] eqn:O.
  - destruct (main content) as [out|] eqn:M; [|discriminate].
    intros H; inversion H; subst; clear H.
    cbn [process_stdout process_stderr process_status length].
    assert (forall e, status out = Failed e ->
              (exists l c msg, e = SyntaxError l c msg /\ output out = []) \/
              (exists x, e = UndefinedVariable x)) as Herr.
    { revert M. unfold main, parse_all. cbv zeta.
      destruct (parse_all_loop _ _ _ _) as [ast p|e' p|] eqn:E;
        intros H e S; inversion H; subst; cbn [status output] in *.
      - right.
        destruct (main_loop_status ast) with (self := Interpreter_init)
          as [F | [x F]].
        + exact (yields_parse_all_loop _ _ [] (Forall_nil_2 _) _ _ _ E).
        + rewrite F in S. discriminate.
        + rewrite F in S. inversion S. now exists x.
      - left. inversion S; subst.
        destruct (positioned_parse_all_loop _ _ _ _ _ _ E) as [msg ->].
        now exists (line p), (col p), msg. }
    assert (output out <> [] ->
            exists prog0 filepath0 content0 ast p,
              [prog; filepath] = [prog0; filepath0] /\
              open_ filepath0 = Content content0 /\
              parse_all (Parser_init content0) = Return ast p) as Hout.
    { revert M. unfold main.
      destruct (parse_all (Parser_init content)) as [ast p|e' p|] eqn:E;
        intros H N; inversion H; subst;
        [now exists prog, filepath, content, ast, p|].
      now contradiction N. }
    destruct (status out) as [|e|] eqn:S; cbn [exit_code].
    + split; [now left | split; [now split | split; [|split]]].
      * split; [intros [] | intros N; now contradiction N].
      * intros e [].
      * exact Hout.
    + destruct (failed (Message e)) as [F1 F2].
      split; [exact F1 | split; [exact F2 | split; [|split]]].
      * split; [apply one; discriminate | intros N; now contradiction N].
      * intros e0 [F|[]]. inversion F; subst. now apply Herr.
      * exact Hout.
    + destruct (failed Uncaught) as [F1 F2].
      split; [exact F1 | split; [exact F2 | split; [|split]]].
      * split; [apply one; discriminate | intros N; now contradiction N].
      * intros e0. apply one. discriminate.
      * exact Hout.
  - intros H; inversion H; subst; clear H.
    cbn [process_stdout process_stderr process_status length].
    destruct (failed (FileNotFound filepath)) as [F1 F2].
    split; [exact F1 | split; [exact F2 | split; [|split]]].
    + split; [apply one; discriminate | intros N; now contradiction N].
    + intros e. apply one. discriminate.
    + intros N. now contradiction N.
  - intros H; inversion H; subst; clear H.
    cbn [process_stdout process_stderr process_status length].
    destruct (failed ReadError) as [F1 F2].
    split; [exact F1 | split; [exact F2 | split; [|split]]].
    + split; [apply one; discriminate | intros N; now contradiction N].
    + intros e. apply one. discriminate.
    + intros N. now contradiction N.
Qed.

Lemma main_argv_exit_witness :
  (1 = 0 \/ 1 = 1) /\
  (1 = 0 <-> [Message (UndefinedVariable "x")] = []) /\
  (In Usage [Message (UndefinedVariable "x")] <->
   length ["config_parser.py"; "a.conf"] <> 2) /\
  (forall e,
     In (Message e) [Message (UndefinedVariable "x")] ->
     (exists l c msg,
        e = SyntaxError l c msg /\ [yaml.dump (Num 1)] = []) \/
     (exists x, e = UndefinedVariable x)) /\
  ([yaml.dump (Num 1)] <> [] ->
   exists prog filepath content ast p,
     ["config_parser.py"; "a.conf"] = [prog; filepath] /\
     (if String.eqb filepath "a.conf" then Content "q(1) q($[x])"
      else FileNotFoundError) = Content content /\
     parse_all (Parser_init content) = Return ast p).
Proof.
  apply (main_argv_exit ["config_parser.py"; "a.conf"]
           (fun filepath =>
              if String.eqb filepath "a.conf" then Content "q(1) q($[x])"
              else FileNotFoundError)
           (mkProcess [yaml.dump (Num 1)]
              [Message (UndefinedVariable "x")] 1)).
  vm_compute. reflexivity.
Defined.
